(** * Maya2glTF: baking node animation into glTF channels

A shallow embedding of [NodeAnimation] (constructor, [sampleAt],
[exportTo], [finish]) and of the [ExportableClip] constructor, with the
properties of the sampling and channel-synthesis pipeline proved about
them.

Conventions of the embedding.
- A C++ [float]/[double] is a rational ([Q]): the only arithmetic the
  code performs on samples is [std::abs (a - b) < t] and [std::max],
  samples are otherwise copied verbatim.  Rounding, infinities and NaN
  are outside the model.
- [int] is [Z]; [size_t] is [nat].
- A [std::unique_ptr<T>] is an [option T]; [release()] leaves [None].
- A function that can hit a failed [assert], an out-of-range read or a
  null dereference returns [option]: [None] is the abort. *)

From Stdlib Require Import String ZArith QArith Qabs Bool Lia Arith List.
Import ListNotations.

Set Implicit Arguments.

#[local] Open Scope nat_scope.

(** ** A small error monad for the aborting paths *)

Definition bind {A B : Type} (m : option A) (k : A -> option B) : option B :=
  match m with
  | Some a => k a
  | None => None
  end.

Notation "x <- m ;; k" := (bind m (fun x => k))
  (at level 61, m at next level, right associativity).

Notation "' p <- m ;; k" := (bind m (fun x => let p := x in k))
  (at level 61, p pattern, m at next level, right associativity).

Notation "'assert!' b ;; k" := (if b then k else None)
  (at level 61, b at next level, right associativity).

(** ** Scalars *)

(** [a < b] on rationals, as a boolean. *)
Definition Qltb (a b : Q) : bool :=
  (Qnum a * QDen b <? Qnum b * QDen a)%Z.

(** [std::max] on doubles: [(a < b) ? b : a]. *)
Definition std_max (a b : Q) : Q := if Qltb a b then b else a.

(** Maya's [MTime], in seconds. *)
Definition MTime := Q.

(** ** [std::vector] with its capacity *)

Module StdVector.

Record t (A : Type) := mk { items : list A; capacity : nat }.

Arguments mk {A} _ _.

Definition empty {A} : t A := mk [] 0.

Definition size {A} (v : t A) : nat := length (items v).

(** [reserve n]: the capacity becomes at least [n]; the common
    implementations allocate exactly [n] when they have to grow. *)
Definition reserve {A} (n : nat) (v : t A) : t A :=
  if capacity v <? n then mk (items v) n else v.

(** [emplace_back]: appends; a full vector reallocates (doubling). *)
Definition emplace_back {A} (x : A) (v : t A) : t A :=
  if size v <? capacity v
  then mk (items v ++ [x]) (capacity v)
  else mk (items v ++ [x]) (Nat.max 1 (2 * capacity v)).

Definition is_empty {A} (v : t A) : bool :=
  match items v with [] => true | _ :: _ => false end.

End StdVector.

(** ** glTF output objects *)

Module GLTF.

Inductive Path := TRANSLATION | ROTATION | SCALE | WEIGHTS.

(** A glTF node is identified by its index in the document. *)
Definition Node := nat.

(** An animation channel with its sampler inlined: the keyframe times
    (sampler input) and the keyframe values (sampler output). *)
Record Channel := mkChannel {
  channelName : string;
  targetNode : Node;
  targetPath : Path;
  keyframeTimes : list Q;
  keyframeValues : list Q
}.

Record Animation := mkAnimation {
  name : string;
  channels : list Channel
}.

(** [channels.push_back (c)] *)
Definition push_back (c : Channel) (a : Animation) : Animation :=
  mkAnimation (name a) (channels a ++ [c]).

End GLTF.

(** ** Transforms *)

Definition float3 : Type := Q * Q * Q.
Definition float4 : Type := Q * Q * Q * Q.

(** [gsl::make_span] of a fixed-size array. *)
Definition span3 (v : float3) : list Q := let '(a, b, c) := v in [a; b; c].
Definition span4 (v : float4) : list Q := let '(a, b, c, d) := v in [a; b; c; d].

Record TRS := mkTRS {
  translation : float3;
  rotation : float4;
  scale : float3
}.

Record NodeTransformState := mkState {
  primaryTRS : TRS;
  secondaryTRS : TRS;
  maxNonOrthogonality : Q
}.

Inductive TransformKind := Simple | ComplexJoint | ComplexTransform.

(** ** Configuration *)

Record Arguments := mkArguments {
  forceAnimationSampling : bool;
  forceAnimationChannels : bool;
  disableNameAssignment : bool;
  constantTranslationThreshold : Q;
  constantRotationThreshold : Q;
  constantScalingThreshold : Q;
  constantWeightsThreshold : Q;
  getStepDetectSampleCount : Z;
  getBakeScaleFactor : Q;
  redrawViewport : bool
}.

(** ** The frame grid *)

Module ExportableFrames.

Record t := mk {
  framesName : string;
  count : Z;
  times : list Q
}.

(** Modelled from the spec: the constructor of [ExportableFrames] (the
    spec's FrameGrid [build]) is not among the sources.  It produces
    [frameCount] relative times [times[i] = i / samplesPerSecond] and
    fails when [frameCount < 1] or [samplesPerSecond <= 0]. *)
Definition make (accessorName : string) (frameCount : Z) (framesPerSecond : Q)
  : option t :=
  if (frameCount <? 1)%Z || negb (Qltb 0 framesPerSecond) then None
  else Some (mk accessorName frameCount
               (map (fun i => (inject_Z (Z.of_nat i) / framesPerSecond)%Q)
                    (seq 0 (Z.to_nat frameCount)))).

End ExportableFrames.

(** ** One animated property: [PropAnimation] *)

Module PropAnimation.

Record t := mk {
  frames : ExportableFrames.t;
  glNode : GLTF.Node;
  path : GLTF.Path;
  dimension : nat;
  useFloatArray : bool;
  componentValuesPerFrame : list Q;
  glChannel : GLTF.Channel
}.

(** Modelled from the spec: the [PropAnimation] class is declared in a
    header that is not among the sources.  A fresh buffer has no samples
    and a channel that targets the given node and path. *)
Definition make (frames : ExportableFrames.t) (node : GLTF.Node)
    (path : GLTF.Path) (dimension : nat) (useFloatArray : bool) : t :=
  mk frames node path dimension useFloatArray []
     (GLTF.mkChannel EmptyString node path [] []).

(** Modelled from the spec: [append] is not among the sources.  It
    requires [values.length == dimension] (a fatal precondition) and
    appends one frame's block of samples. *)
Definition append (values : list Q) (p : t) : option t :=
  assert! (length values =? dimension p) ;;
  Some (mk (frames p) (glNode p) (path p) (dimension p) (useFloatArray p)
           (componentValuesPerFrame p ++ values) (glChannel p)).

(** Modelled from the spec: [appendQuaternion] is not among the sources.
    It is like [append]; no sign unwrapping is performed. *)
Definition appendQuaternion (values : list Q) (p : t) : option t :=
  append values p.

(** Modelled from the spec: [PropAnimation::finish (name, useSingleKey)]
    is not among the sources.  With [useSingleKey] it emits one keyframe
    at time 0 holding the first sampled block; otherwise it emits all the
    sampled keyframes verbatim, one per time of the frame grid.  The spec
    makes finalising a buffer that does not hold every frame of the grid a
    fatal precondition violation; that check is not modelled, so on such a
    buffer this function says more than the spec does. *)
Definition finish (name : string) (useSingleKey : bool) (p : t) : t :=
  mk (frames p) (glNode p) (path p) (dimension p) (useFloatArray p)
     (componentValuesPerFrame p)
     (GLTF.mkChannel name (glNode p) (path p)
        (if useSingleKey then [0%Q] else ExportableFrames.times (frames p))
        (if useSingleKey
         then firstn (dimension p) (componentValuesPerFrame p)
         else componentValuesPerFrame p)).

End PropAnimation.

(** ** The scene's nodes *)

(** The host scene is an external collaborator: once its time cursor is at
    [t], a mesh reports its blend-shape weights and a node its decomposed
    local transform.  Both are functions of the cursor here. *)
Record ExportableMesh := mkMesh {
  blendShapeCount : nat;
  initialWeights : list Q;
  weightsAt : MTime -> list Q
}.

Record ExportableNode := mkNode {
  nodeName : string;
  transformKind : TransformKind;
  mesh : option ExportableMesh;
  initialTransformState : NodeTransformState;
  glPrimaryNode : GLTF.Node;
  glSecondaryNode : GLTF.Node;
  transformAt : MTime -> Q -> NodeTransformState;
  animatable : bool
}.

(** The scene's time cursor ([setCurrentTime] writes it). *)
Record Host := mkHost { currentTime : MTime }.

Definition setCurrentTime (t : MTime) (redraw : bool) (h : Host) : Host :=
  mkHost t.

(** [mesh->currentWeights()] *)
Definition currentWeights (h : Host) (m : ExportableMesh) : list Q :=
  weightsAt m (currentTime h).

(** A [NodeTransformCache] is created afresh for every frame and answers
    with the scene's transform at the cursor; the memo table only avoids
    recomputation and is left out. *)
Module NodeTransformCache.

Record t := mk { host : Host }.

Definition getTransform (c : t) (node : ExportableNode) (scaleFactor : Q)
  : NodeTransformState :=
  transformAt node (currentTime (host c)) scaleFactor.

End NodeTransformCache.

(** ** What is written to [cerr] *)

Inductive CerrItem :=
| Text (s : string)
| Fixed2 (x : Q)      (* a double under [std::fixed << std::setprecision (2)] *)
| Time (t : MTime)
| Endl.

(** ** [NodeAnimation] *)

Module NodeAnimation.

Record t := mk {
  node : ExportableNode;
  m_mesh : option ExportableMesh;
  m_scaleFactor : Q;
  m_blendShapeCount : nat;
  m_arguments : Arguments;
  m_maxNonOrthogonality : Q;
  m_invalidLocalTransformTimes : StdVector.t MTime;
  m_positions : option PropAnimation.t;
  m_rotations : option PropAnimation.t;
  m_scales : option PropAnimation.t;
  m_correctors : option PropAnimation.t;
  m_dummyProps1 : option PropAnimation.t;
  m_dummyProps2 : option PropAnimation.t;
  m_weights : option PropAnimation.t
}.

(** Assignments to one member. *)
Definition set_invalid (mx : Q) (v : StdVector.t MTime) (a : t) : t :=
  mk (node a) (m_mesh a) (m_scaleFactor a) (m_blendShapeCount a) (m_arguments a)
     mx v (m_positions a) (m_rotations a) (m_scales a) (m_correctors a)
     (m_dummyProps1 a) (m_dummyProps2 a) (m_weights a).

Definition set_positions (p : option PropAnimation.t) (a : t) : t :=
  mk (node a) (m_mesh a) (m_scaleFactor a) (m_blendShapeCount a) (m_arguments a)
     (m_maxNonOrthogonality a) (m_invalidLocalTransformTimes a)
     p (m_rotations a) (m_scales a) (m_correctors a)
     (m_dummyProps1 a) (m_dummyProps2 a) (m_weights a).

Definition set_rotations (p : option PropAnimation.t) (a : t) : t :=
  mk (node a) (m_mesh a) (m_scaleFactor a) (m_blendShapeCount a) (m_arguments a)
     (m_maxNonOrthogonality a) (m_invalidLocalTransformTimes a)
     (m_positions a) p (m_scales a) (m_correctors a)
     (m_dummyProps1 a) (m_dummyProps2 a) (m_weights a).

Definition set_scales (p : option PropAnimation.t) (a : t) : t :=
  mk (node a) (m_mesh a) (m_scaleFactor a) (m_blendShapeCount a) (m_arguments a)
     (m_maxNonOrthogonality a) (m_invalidLocalTransformTimes a)
     (m_positions a) (m_rotations a) p (m_correctors a)
     (m_dummyProps1 a) (m_dummyProps2 a) (m_weights a).

Definition set_correctors (p : option PropAnimation.t) (a : t) : t :=
  mk (node a) (m_mesh a) (m_scaleFactor a) (m_blendShapeCount a) (m_arguments a)
     (m_maxNonOrthogonality a) (m_invalidLocalTransformTimes a)
     (m_positions a) (m_rotations a) (m_scales a) p
     (m_dummyProps1 a) (m_dummyProps2 a) (m_weights a).

Definition set_dummyProps1 (p : option PropAnimation.t) (a : t) : t :=
  mk (node a) (m_mesh a) (m_scaleFactor a) (m_blendShapeCount a) (m_arguments a)
     (m_maxNonOrthogonality a) (m_invalidLocalTransformTimes a)
     (m_positions a) (m_rotations a) (m_scales a) (m_correctors a)
     p (m_dummyProps2 a) (m_weights a).

Definition set_dummyProps2 (p : option PropAnimation.t) (a : t) : t :=
  mk (node a) (m_mesh a) (m_scaleFactor a) (m_blendShapeCount a) (m_arguments a)
     (m_maxNonOrthogonality a) (m_invalidLocalTransformTimes a)
     (m_positions a) (m_rotations a) (m_scales a) (m_correctors a)
     (m_dummyProps1 a) p (m_weights a).

Definition set_weights (p : option PropAnimation.t) (a : t) : t :=
  mk (node a) (m_mesh a) (m_scaleFactor a) (m_blendShapeCount a) (m_arguments a)
     (m_maxNonOrthogonality a) (m_invalidLocalTransformTimes a)
     (m_positions a) (m_rotations a) (m_scales a) (m_correctors a)
     (m_dummyProps1 a) (m_dummyProps2 a) p.

(** [ptr->f (...)] on a [unique_ptr] member: a null pointer aborts. *)
Definition arrow (f : PropAnimation.t -> option PropAnimation.t)
    (ptr : option PropAnimation.t) : option (option PropAnimation.t) :=
  p <- ptr ;; p' <- f p ;; Some (Some p').

(** *** The constructor (source lines 9-56) *)

Definition make (node : ExportableNode) (frames : ExportableFrames.t)
    (scaleFactor : Q) (arguments : Arguments) : t :=
  let mesh := mesh node in
  let m_blendShapeCount :=
    match mesh with Some m => blendShapeCount m | None => 0 end in
  let sNode := glSecondaryNode node in
  let pNode := glPrimaryNode node in
  let times := StdVector.reserve 10 StdVector.empty in
  let init :=
    mk node mesh scaleFactor m_blendShapeCount arguments 0%Q times
       None None None None None None None in
  let new := PropAnimation.make frames in
  let a :=
    match transformKind node with
    | Simple =>
        let a := set_positions (Some (new pNode GLTF.TRANSLATION 3 false)) init in
        let a := set_rotations (Some (new pNode GLTF.ROTATION 4 false)) a in
        set_scales (Some (new pNode GLTF.SCALE 3 false)) a
    | ComplexJoint =>
        let a := set_positions (Some (new sNode GLTF.TRANSLATION 3 false)) init in
        let a := set_rotations (Some (new pNode GLTF.ROTATION 4 false)) a in
        let a := set_scales (Some (new pNode GLTF.SCALE 3 false)) a in
        let a := set_correctors (Some (new sNode GLTF.SCALE 3 false)) a in
        if forceAnimationChannels arguments then
          let a := set_dummyProps1 (Some (new pNode GLTF.TRANSLATION 3 false)) a in
          set_dummyProps2 (Some (new sNode GLTF.ROTATION 4 false)) a
        else a
    | ComplexTransform =>
        let a := set_positions (Some (new sNode GLTF.TRANSLATION 3 false)) init in
        let a := set_rotations (Some (new sNode GLTF.ROTATION 4 false)) a in
        let a := set_scales (Some (new sNode GLTF.SCALE 3 false)) a in
        let a := set_correctors (Some (new pNode GLTF.TRANSLATION 3 false)) a in
        if forceAnimationChannels arguments then
          let a := set_dummyProps1 (Some (new pNode GLTF.SCALE 3 false)) a in
          set_dummyProps2 (Some (new pNode GLTF.ROTATION 4 false)) a
        else a
    end in
  if 0 <? m_blendShapeCount
  then set_weights (Some (new pNode GLTF.WEIGHTS m_blendShapeCount true)) a
  else a.

(** The channel buffers a sampler owns, in declaration order. *)
Definition buffers (a : t) : list PropAnimation.t :=
  flat_map (fun ptr => match ptr with Some p => [p] | None => [] end)
    [m_positions a; m_rotations a; m_scales a; m_correctors a;
     m_dummyProps1 a; m_dummyProps2 a; m_weights a].

Section WithConstants.

(** [MAX_NON_ORTHOGONALITY] (from Transform.h) and the log [prefix]
    (from OutputStreamsPatch.h) are declared outside the sources. *)
Variable MAX_NON_ORTHOGONALITY : Q.
Variable prefix : string.

(** *** [sampleAt] (source lines 58-110) *)

Definition sampleAt (a : t) (h : Host) (absoluteTime : MTime) (frameIndex : Z)
    (transformCache : NodeTransformCache.t) : option t :=
  let transformState :=
    NodeTransformCache.getTransform transformCache (node a) (m_scaleFactor a) in
  let pTRS := primaryTRS transformState in
  let sTRS := secondaryTRS transformState in
  let a :=
    if Qltb MAX_NON_ORTHOGONALITY (maxNonOrthogonality transformState)
       && (StdVector.size (m_invalidLocalTransformTimes a)
           <? StdVector.capacity (m_invalidLocalTransformTimes a))
    then
      set_invalid
        (std_max (m_maxNonOrthogonality a) (maxNonOrthogonality transformState))
        (StdVector.emplace_back absoluteTime (m_invalidLocalTransformTimes a))
        a
    else a in
  a <-
    match transformKind (node a) with
    | Simple =>
        p <- arrow (PropAnimation.append (span3 (translation pTRS))) (m_positions a) ;;
        let a := set_positions p a in
        p <- arrow (PropAnimation.appendQuaternion (span4 (rotation pTRS))) (m_rotations a) ;;
        let a := set_rotations p a in
        p <- arrow (PropAnimation.append (span3 (scale pTRS))) (m_scales a) ;;
        Some (set_scales p a)
    | ComplexJoint =>
        p <- arrow (PropAnimation.append (span3 (translation sTRS))) (m_positions a) ;;
        let a := set_positions p a in
        p <- arrow (PropAnimation.appendQuaternion (span4 (rotation pTRS))) (m_rotations a) ;;
        let a := set_rotations p a in
        p <- arrow (PropAnimation.append (span3 (scale pTRS))) (m_scales a) ;;
        let a := set_scales p a in
        p <- arrow (PropAnimation.append (span3 (scale sTRS))) (m_correctors a) ;;
        let a := set_correctors p a in
        if forceAnimationChannels (m_arguments a) then
          p <- arrow (PropAnimation.append (span3 (translation pTRS))) (m_dummyProps1 a) ;;
          let a := set_dummyProps1 p a in
          p <- arrow (PropAnimation.appendQuaternion (span4 (rotation sTRS))) (m_dummyProps2 a) ;;
          Some (set_dummyProps2 p a)
        else Some a
    | ComplexTransform =>
        p <- arrow (PropAnimation.append (span3 (translation sTRS))) (m_positions a) ;;
        let a := set_positions p a in
        p <- arrow (PropAnimation.appendQuaternion (span4 (rotation sTRS))) (m_rotations a) ;;
        let a := set_rotations p a in
        p <- arrow (PropAnimation.append (span3 (scale sTRS))) (m_scales a) ;;
        let a := set_scales p a in
        p <- arrow (PropAnimation.append (span3 (translation pTRS))) (m_correctors a) ;;
        let a := set_correctors p a in
        if forceAnimationChannels (m_arguments a) then
          p <- arrow (PropAnimation.append (span3 (scale pTRS))) (m_dummyProps1 a) ;;
          let a := set_dummyProps1 p a in
          p <- arrow (PropAnimation.appendQuaternion (span4 (rotation pTRS))) (m_dummyProps2 a) ;;
          Some (set_dummyProps2 p a)
        else Some a
    end ;;
  if 0 <? m_blendShapeCount a then
    m <- m_mesh a ;;
    let weights := currentWeights h m in
    assert! (length weights =? m_blendShapeCount a) ;;
    p <- arrow (PropAnimation.append weights) (m_weights a) ;;
    Some (set_weights p a)
  else Some a.

(** *** [finish] (source lines 179-212) *)

Section IsConstant.

Variables (baseValues componentValues : list Q).
Variables (dimension : nat) (constantThreshold : Q).

(** The inner loop,
    [for (index = 0; index < dimension && isConstant; ++index)];
    [fuel] bounds the number of iterations ([dimension] suffices). *)
Fixpoint scanComponents (fuel index offset : nat) (isConstant : bool)
  {struct fuel} : option bool :=
  if (index <? dimension) && isConstant then
    match fuel with
    | 0 => None
    | S fuel =>
        b <- nth_error baseValues index ;;
        v <- nth_error componentValues (offset + index) ;;
        scanComponents fuel (S index) offset
          (Qltb (Qabs (b - v)) constantThreshold)
    end
  else Some isConstant.

(** The outer loop,
    [for (offset = 0; offset < componentValues.size () && isConstant;
          offset += dimension)];
    it runs at most [componentValues.size ()] times as [dimension]
    is not 0 where the loop is entered. *)
Fixpoint scanFrames (fuel offset : nat) (isConstant : bool)
  {struct fuel} : option bool :=
  if (offset <? length componentValues) && isConstant then
    match fuel with
    | 0 => None
    | S fuel =>
        isConstant <- scanComponents dimension 0 offset isConstant ;;
        scanFrames fuel (offset + dimension) isConstant
    end
  else Some isConstant.

End IsConstant.

Definition finish (a : t) (glAnimation : GLTF.Animation) (propName : string)
    (animatedProp : option PropAnimation.t) (constantThreshold : Q)
    (detectStepSampleCount : Z) (baseValues : list Q)
  : option (GLTF.Animation * option PropAnimation.t) :=
  p <- animatedProp ;;
  let dimension := PropAnimation.dimension p in
  if 0 <? dimension then
    assert! (dimension =? length baseValues) ;;
    let componentValues := PropAnimation.componentValuesPerFrame p in
    isConstant <-
      scanFrames baseValues componentValues dimension constantThreshold
        (length componentValues) 0 true ;;
    if isConstant && negb (forceAnimationSampling (m_arguments a))
       && negb (forceAnimationChannels (m_arguments a))
    then Some (glAnimation, None)
    else
      let useSingleKey :=
        isConstant && negb (forceAnimationSampling (m_arguments a)) in
      if useSingleKey || (detectStepSampleCount <=? 1)%Z then
        let p :=
          PropAnimation.finish
            (if disableNameAssignment (m_arguments a) then EmptyString
             else (nodeName (node a) ++ "/anim/" ++ GLTF.name glAnimation
                   ++ "/" ++ propName)%string)
            useSingleKey p in
        Some (GLTF.push_back (PropAnimation.glChannel p) glAnimation, Some p)
      else Some (glAnimation, animatedProp)
  else Some (glAnimation, animatedProp).

(** *** [exportTo] (source lines 112-177)

The calls of [finish] in the source leave out the
[detectStepSampleCount] argument that [finish] declares; the only
value of that name in scope is the local read from the arguments at
the top of [exportTo], and that is what is passed here. *)

Definition warning (a : t) : list CerrItem :=
  [Text prefix; Text "WARNING: node '"; Text (nodeName (node a));
   Text "' has animated transforms that are not representable by glTF! Skewing is not supported, use 3 nodes to simulate this. Largest deviation = ";
   Fixed2 (m_maxNonOrthogonality a * 100)%Q; Text "%"; Endl;
   Text prefix; Text "The first invalid transforms were found at times: "]
  ++ flat_map (fun time => [Time time; Text " "])
       (StdVector.items (m_invalidLocalTransformTimes a))
  ++ [Endl].

Definition exportTo (a : t) (glAnimation : GLTF.Animation)
  : option (t * GLTF.Animation * list CerrItem) :=
  let detectStepSampleCount := getStepDetectSampleCount (m_arguments a) in
  let cerr :=
    if negb (StdVector.is_empty (m_invalidLocalTransformTimes a))
    then warning a else [] in
  let pTRS := primaryTRS (initialTransformState (node a)) in
  let sTRS := secondaryTRS (initialTransformState (node a)) in
  let args := m_arguments a in
  let fin g propName ptr threshold baseValues :=
    finish a g propName ptr threshold detectStepSampleCount baseValues in
  '(a, g) <-
    match transformKind (node a) with
    | Simple =>
        '(g, p) <- fin glAnimation "T"%string (m_positions a)
                     (constantTranslationThreshold args) (span3 (translation pTRS)) ;;
        let a := set_positions p a in
        '(g, p) <- fin g "R"%string (m_rotations a)
                     (constantRotationThreshold args) (span4 (rotation pTRS)) ;;
        let a := set_rotations p a in
        '(g, p) <- fin g "S"%string (m_scales a)
                     (constantScalingThreshold args) (span3 (scale pTRS)) ;;
        Some (set_scales p a, g)
    | ComplexJoint =>
        '(g, p) <- fin glAnimation "T"%string (m_positions a)
                     (constantTranslationThreshold args) (span3 (translation sTRS)) ;;
        let a := set_positions p a in
        '(g, p) <- fin g "R"%string (m_rotations a)
                     (constantRotationThreshold args) (span4 (rotation pTRS)) ;;
        let a := set_rotations p a in
        '(g, p) <- fin g "S"%string (m_scales a)
                     (constantScalingThreshold args) (span3 (scale pTRS)) ;;
        let a := set_scales p a in
        '(g, p) <- fin g "C"%string (m_correctors a)
                     (constantScalingThreshold args) (span3 (scale sTRS)) ;;
        let a := set_correctors p a in
        if forceAnimationChannels args then
          '(g, p) <- fin g "DT"%string (m_dummyProps1 a) 0%Q (span3 (translation pTRS)) ;;
          let a := set_dummyProps1 p a in
          '(g, p) <- fin g "DR"%string (m_dummyProps2 a) 0%Q (span4 (rotation sTRS)) ;;
          Some (set_dummyProps2 p a, g)
        else Some (a, g)
    | ComplexTransform =>
        '(g, p) <- fin glAnimation "T"%string (m_positions a)
                     (constantTranslationThreshold args) (span3 (translation sTRS)) ;;
        let a := set_positions p a in
        '(g, p) <- fin g "R"%string (m_rotations a)
                     (constantRotationThreshold args) (span4 (rotation sTRS)) ;;
        let a := set_rotations p a in
        '(g, p) <- fin g "S"%string (m_scales a)
                     (constantScalingThreshold args) (span3 (scale sTRS)) ;;
        let a := set_scales p a in
        '(g, p) <- fin g "C"%string (m_correctors a)
                     (constantScalingThreshold args) (span3 (translation pTRS)) ;;
        let a := set_correctors p a in
        if forceAnimationChannels args then
          '(g, p) <- fin g "DS"%string (m_dummyProps1 a) 0%Q (span3 (scale pTRS)) ;;
          let a := set_dummyProps1 p a in
          '(g, p) <- fin g "DR"%string (m_dummyProps2 a) 0%Q (span4 (rotation pTRS)) ;;
          Some (set_dummyProps2 p a, g)
        else Some (a, g)
    end ;;
  if 0 <? m_blendShapeCount a then
    m <- m_mesh a ;;
    let initialWeights := initialWeights m in
    assert! (length initialWeights =? m_blendShapeCount a) ;;
    '(g, p) <- fin g "W"%string (m_weights a)
                 (constantWeightsThreshold args) initialWeights ;;
    Some (set_weights p a, g, cerr)
  else Some (a, g, cerr).

End WithConstants.

End NodeAnimation.

(** ** [ExportableClip] *)

Module ExportableClip.

Record AnimClipArg := mkClipArg {
  clipName : string;
  startTime : MTime;
  frameCount : Z;
  framesPerSecond : Q
}.

(** [scene.table ()]: the exportable nodes in the order of the map. *)
Record ExportableScene := mkScene {
  table : list (string * ExportableNode)
}.

Record t := mk {
  m_frames : ExportableFrames.t;
  glAnimation : GLTF.Animation;
  m_nodeAnimations : list NodeAnimation.t
}.

(** What the constructor did besides building the clip. *)
Record Effects := mkEffects {
  host : Host;
  cerr : list CerrItem;
  progress : list (string * Z)
}.

(** Modelled from the spec: [Arguments::makeName] is not among the
    sources; names are assigned only when naming is enabled. *)
Definition makeName (args : Arguments) (s : string) : string :=
  if disableNameAssignment args then EmptyString else s.

(** Modelled from the spec: [ExportableNode::createAnimation] is not among
    the sources.  It builds the node's sampler, and yields a null pointer
    for a node the scene reports as not animatable. *)
Definition createAnimation (node : ExportableNode) (args : Arguments)
    (frames : ExportableFrames.t) (scaleFactor : Q) : option NodeAnimation.t :=
  if animatable node
  then Some (NodeAnimation.make node frames scaleFactor args)
  else None.

Fixpoint mapM {A B} (f : A -> option B) (l : list A) : option (list B) :=
  match l with
  | [] => Some []
  | x :: l => y <- f x ;; l' <- mapM f l ;; Some (y :: l')
  end.

Section WithConstants.

Variable MAX_NON_ORTHOGONALITY : Q.
Variable prefix : string.
(** [checkProgressFrameInterval] comes from progress.h. *)
Variable checkProgressFrameInterval : Z.

(** The first loop (source lines 20-26). *)
Fixpoint createAnimations (items : list (string * ExportableNode))
    (args : Arguments) (frames : ExportableFrames.t) (scaleFactor : Q)
  : list NodeAnimation.t :=
  match items with
  | [] => []
  | item :: items =>
      let node := snd item in
      match createAnimation node args frames scaleFactor with
      | Some nodeAnimation =>
          nodeAnimation :: createAnimations items args frames scaleFactor
      | None => createAnimations items args frames scaleFactor
      end
  end.

(** One iteration of the frame loop (source lines 29-41). *)
Definition sampleFrame (args : Arguments) (clipArg : AnimClipArg)
    (frames : ExportableFrames.t) (frameCount : Z) (relativeFrameIndex : Z)
    (st : list NodeAnimation.t * Host * list (string * Z))
  : option (list NodeAnimation.t * Host * list (string * Z)) :=
  let '(nodeAnimations, h, ui) := st in
  relativeFrameTime <-
    nth_error (ExportableFrames.times frames) (Z.to_nat relativeFrameIndex) ;;
  let absoluteFrameTime := (startTime clipArg + relativeFrameTime)%Q in
  let h := setCurrentTime absoluteFrameTime (redrawViewport args) h in
  let transformCache := NodeTransformCache.mk h in
  nodeAnimations <-
    mapM (fun nodeAnimation =>
            NodeAnimation.sampleAt MAX_NON_ORTHOGONALITY nodeAnimation h
              absoluteFrameTime relativeFrameIndex transformCache)
         nodeAnimations ;;
  let ui :=
    if (Z.rem relativeFrameIndex checkProgressFrameInterval
        =? checkProgressFrameInterval - 1)%Z
    then ui ++ [(clipName clipArg, Z.quot (relativeFrameIndex * 100) frameCount)]
    else ui in
  Some (nodeAnimations, h, ui).

(** The frame loop (source line 28), over the indices
    [0 .. frameCount - 1]. *)
Fixpoint sampleFrames (args : Arguments) (clipArg : AnimClipArg)
    (frames : ExportableFrames.t) (frameCount : Z) (indices : list nat)
    (st : list NodeAnimation.t * Host * list (string * Z))
  : option (list NodeAnimation.t * Host * list (string * Z)) :=
  match indices with
  | [] => Some st
  | i :: indices =>
      st <- sampleFrame args clipArg frames frameCount (Z.of_nat i) st ;;
      sampleFrames args clipArg frames frameCount indices st
  end.

(** The last loop (source lines 44-46).  [exportTo] is called with the
    step-detection count as a second argument, the same value
    [exportTo] reads from its own arguments. *)
Fixpoint exportAll (nodeAnimations : list NodeAnimation.t)
    (g : GLTF.Animation) (log : list CerrItem)
  : option (list NodeAnimation.t * GLTF.Animation * list CerrItem) :=
  match nodeAnimations with
  | [] => Some ([], g, log)
  | nodeAnimation :: rest =>
      '(nodeAnimation, g, out) <- NodeAnimation.exportTo prefix nodeAnimation g ;;
      '(rest, g, log) <- exportAll rest g (log ++ out) ;;
      Some (nodeAnimation :: rest, g, log)
  end.

(** The constructor (source lines 8-47). *)
Definition make (args : Arguments) (clipArg : AnimClipArg)
    (scene : ExportableScene) (h : Host) : option (t * Effects) :=
  m_frames <-
    ExportableFrames.make
      (makeName args (clipName clipArg ++ "/anim/frames")%string)
      (frameCount clipArg) (framesPerSecond clipArg) ;;
  let glAnimation := GLTF.mkAnimation (clipName clipArg) [] in
  let frameCount := ExportableFrames.count m_frames in
  let scaleFactor := getBakeScaleFactor args in
  let items := table scene in
  let m_nodeAnimations := createAnimations items args m_frames scaleFactor in
  '(m_nodeAnimations, h, ui) <-
    sampleFrames args clipArg m_frames frameCount
      (seq 0 (Z.to_nat frameCount)) (m_nodeAnimations, h, []) ;;
  '(m_nodeAnimations, glAnimation, log) <-
    exportAll m_nodeAnimations glAnimation [] ;;
  Some (mk m_frames glAnimation m_nodeAnimations, mkEffects h log ui).

End WithConstants.

End ExportableClip.

(** * Specification vocabulary *)

Unset Implicit Arguments.

Import NodeAnimation.

Definition sample (p : PropAnimation.t) (frame index : nat) : option Q :=
  nth_error (PropAnimation.componentValuesPerFrame p)
            (frame * PropAnimation.dimension p + index).

Definition withinThreshold (baseValues : list Q) (constantThreshold : Q)
    (p : PropAnimation.t) : Prop :=
  forall frame index b v,
    index < PropAnimation.dimension p ->
    nth_error baseValues index = Some b ->
    sample p frame index = Some v ->
    (Qabs (b - v) < constantThreshold)%Q.

(** A buffer that holds [n] sampled frames. *)
Definition holdsFrames (n : nat) (p : PropAnimation.t) : Prop :=
  0 < PropAnimation.dimension p /\
  length (PropAnimation.componentValuesPerFrame p) = n * PropAnimation.dimension p.

(** The same test as a boolean, frame by frame and component by component. *)
Definition withinAt (baseValues componentValues : list Q) (thr : Q)
    (offset index : nat) : bool :=
  match nth_error baseValues index, nth_error componentValues (offset + index) with
  | Some b, Some v => Qltb (Qabs (b - v)) thr
  | _, _ => false
  end.

Definition allWithin (baseValues : list Q) (thr : Q) (p : PropAnimation.t)
    (n : nat) : bool :=
  forallb
    (fun frame =>
       forallb (withinAt baseValues (PropAnimation.componentValuesPerFrame p) thr
                  (frame * PropAnimation.dimension p))
               (seq 0 (PropAnimation.dimension p)))
    (seq 0 n).

(** The name [finish] gives to a channel. *)
Definition channelNameOf (a : NodeAnimation.t) (g : GLTF.Animation)
    (propName : string) : string :=
  if disableNameAssignment (m_arguments a) then EmptyString
  else (nodeName (node a) ++ "/anim/" ++ GLTF.name g ++ "/" ++ propName)%string.

(** What [finish] decides once the loops have computed [isConstant]. *)
Definition finishWith (isConstant : bool) (a : NodeAnimation.t)
    (g : GLTF.Animation) (propName : string) (p : PropAnimation.t)
    (detectStepSampleCount : Z) : GLTF.Animation * option PropAnimation.t :=
  let fs := forceAnimationSampling (m_arguments a) in
  let fc := forceAnimationChannels (m_arguments a) in
  if isConstant && negb fs && negb fc then (g, None)
  else if (isConstant && negb fs) || (detectStepSampleCount <=? 1)%Z then
    let p' := PropAnimation.finish (channelNameOf a g propName)
                (isConstant && negb fs) p in
    (GLTF.push_back (PropAnimation.glChannel p') g, Some p')
  else (g, Some p).

Definition Dropped (g : GLTF.Animation)
    (r : GLTF.Animation * option PropAnimation.t) : Prop :=
  r = (g, None).

Definition Emitted (g : GLTF.Animation) (p : PropAnimation.t)
    (times values : list Q)
    (r : GLTF.Animation * option PropAnimation.t) : Prop :=
  exists p',
    r = (GLTF.push_back (PropAnimation.glChannel p') g, Some p') /\
    GLTF.targetNode (PropAnimation.glChannel p') = PropAnimation.glNode p /\
    GLTF.targetPath (PropAnimation.glChannel p') = PropAnimation.path p /\
    GLTF.keyframeTimes (PropAnimation.glChannel p') = times /\
    GLTF.keyframeValues (PropAnimation.glChannel p') = values.

(** One keyframe at time 0 holding the first sampled block. *)
Definition SingleKeyframe (g : GLTF.Animation) (p : PropAnimation.t) :=
  Emitted g p [0%Q]
    (firstn (PropAnimation.dimension p) (PropAnimation.componentValuesPerFrame p)).

(** Every sampled keyframe, one per time of the frame grid. *)
Definition FullTrack (g : GLTF.Animation) (p : PropAnimation.t) :=
  Emitted g p (ExportableFrames.times (PropAnimation.frames p))
    (PropAnimation.componentValuesPerFrame p).

(** ** Sampling *)

(** [ptr'] is the buffer [ptr] after one more block [values]. *)
Definition appended (values : list Q) (ptr ptr' : option PropAnimation.t) : Prop :=
  exists p,
    ptr = Some p /\
    length values = PropAnimation.dimension p /\
    ptr' = Some (PropAnimation.mk (PropAnimation.frames p) (PropAnimation.glNode p)
                   (PropAnimation.path p) (PropAnimation.dimension p)
                   (PropAnimation.useFloatArray p)
                   (PropAnimation.componentValuesPerFrame p ++ values)
                   (PropAnimation.glChannel p)).

(** The members of a sampler that [sampleAt] never writes. *)
Definition sameNode (a a' : NodeAnimation.t) : Prop :=
  node a' = node a /\ m_mesh a' = m_mesh a /\ m_scaleFactor a' = m_scaleFactor a /\
  m_blendShapeCount a' = m_blendShapeCount a /\ m_arguments a' = m_arguments a.

(** A frame offends when its deviation exceeds the tolerance. *)
Definition offending (MAX_NON_ORTHOGONALITY : Q) (st : NodeTransformState) : bool :=
  Qltb MAX_NON_ORTHOGONALITY (maxNonOrthogonality st).

(** One call of [sampleAt]: the scene at the cursor, the frame's time and
    index, and the frame's cache. *)
Record Call := mkCall {
  callHost : Host;
  callTime : MTime;
  callFrame : Z;
  callCache : NodeTransformCache.t
}.

(** A sampler driven through a sequence of frames, one [sampleAt] each, the
    way the frame loop of [ExportableClip] drives it. *)
Fixpoint sampleMany (MAX_NON_ORTHOGONALITY : Q) (a : NodeAnimation.t)
    (calls : list Call) : option NodeAnimation.t :=
  match calls with
  | [] => Some a
  | c :: calls =>
      a <- sampleAt MAX_NON_ORTHOGONALITY a (callHost c) (callTime c)
             (callFrame c) (callCache c) ;;
      sampleMany MAX_NON_ORTHOGONALITY a calls
  end.

(** The frame a call makes the sampler see: its time and the transform the
    cache returns for the sampler's node. *)
Definition observe (a : NodeAnimation.t) (c : Call) : MTime * NodeTransformState :=
  (callTime c,
   NodeTransformCache.getTransform (callCache c) (node a) (m_scaleFactor a)).

(** The offending frames a sampler records: the first ten. *)
Definition recordedFrames (MAX_NON_ORTHOGONALITY : Q)
    (history : list (MTime * NodeTransformState))
  : list (MTime * NodeTransformState) :=
  firstn 10 (filter (fun f => offending MAX_NON_ORTHOGONALITY (snd f)) history).

(** The largest of a list of deviations, from 0. *)
Definition largest (deviations : list Q) : Q := fold_left std_max deviations 0%Q.

(** What [sampleAt] does to the record of offending frames. *)
Definition recorded (MAX_NON_ORTHOGONALITY : Q) (a a' : NodeAnimation.t)
    (absoluteTime : MTime) (st : NodeTransformState) : Prop :=
  if offending MAX_NON_ORTHOGONALITY st
     && (StdVector.size (m_invalidLocalTransformTimes a)
         <? StdVector.capacity (m_invalidLocalTransformTimes a))
  then
    m_maxNonOrthogonality a'
    = std_max (m_maxNonOrthogonality a) (maxNonOrthogonality st) /\
    m_invalidLocalTransformTimes a'
    = StdVector.emplace_back absoluteTime (m_invalidLocalTransformTimes a)
  else
    m_maxNonOrthogonality a' = m_maxNonOrthogonality a /\
    m_invalidLocalTransformTimes a' = m_invalidLocalTransformTimes a.

(** [ptr] is a buffer for [path], of dimension [d], that holds [n] frames. *)
Definition holds (path : GLTF.Path) (d n : nat) (ptr : option PropAnimation.t)
  : Prop :=
  exists p, ptr = Some p /\ PropAnimation.path p = path /\
            PropAnimation.dimension p = d /\ holdsFrames n p.

(** The buffers of a sampler after [n] frames, by decomposition kind. *)
Definition samplerInv (n : nat) (a : NodeAnimation.t) : Prop :=
  m_mesh a = mesh (node a) /\
  m_blendShapeCount a
  = match mesh (node a) with Some m => blendShapeCount m | None => 0 end /\
  holds GLTF.TRANSLATION 3 n (m_positions a) /\
  holds GLTF.ROTATION 4 n (m_rotations a) /\
  holds GLTF.SCALE 3 n (m_scales a) /\
  match transformKind (node a) with
  | Simple => True
  | ComplexJoint =>
      holds GLTF.SCALE 3 n (m_correctors a) /\
      (forceAnimationChannels (m_arguments a) = true ->
       holds GLTF.TRANSLATION 3 n (m_dummyProps1 a) /\
       holds GLTF.ROTATION 4 n (m_dummyProps2 a))
  | ComplexTransform =>
      holds GLTF.TRANSLATION 3 n (m_correctors a) /\
      (forceAnimationChannels (m_arguments a) = true ->
       holds GLTF.SCALE 3 n (m_dummyProps1 a) /\
       holds GLTF.ROTATION 4 n (m_dummyProps2 a))
  end /\
  (0 < m_blendShapeCount a ->
   holds GLTF.WEIGHTS (m_blendShapeCount a) n (m_weights a)).

(** What [sampleAt] appends to each buffer, by decomposition kind. *)
Definition routed (a a' : NodeAnimation.t) (st : NodeTransformState) : Prop :=
  let pTRS := primaryTRS st in
  let sTRS := secondaryTRS st in
  match transformKind (node a) with
  | Simple =>
      appended (span3 (translation pTRS)) (m_positions a) (m_positions a') /\
      appended (span4 (rotation pTRS)) (m_rotations a) (m_rotations a') /\
      appended (span3 (scale pTRS)) (m_scales a) (m_scales a') /\
      m_correctors a' = m_correctors a /\
      m_dummyProps1 a' = m_dummyProps1 a /\
      m_dummyProps2 a' = m_dummyProps2 a
  | ComplexJoint =>
      appended (span3 (translation sTRS)) (m_positions a) (m_positions a') /\
      appended (span4 (rotation pTRS)) (m_rotations a) (m_rotations a') /\
      appended (span3 (scale pTRS)) (m_scales a) (m_scales a') /\
      appended (span3 (scale sTRS)) (m_correctors a) (m_correctors a') /\
      if forceAnimationChannels (m_arguments a) then
        appended (span3 (translation pTRS)) (m_dummyProps1 a) (m_dummyProps1 a') /\
        appended (span4 (rotation sTRS)) (m_dummyProps2 a) (m_dummyProps2 a')
      else
        m_dummyProps1 a' = m_dummyProps1 a /\ m_dummyProps2 a' = m_dummyProps2 a
  | ComplexTransform =>
      appended (span3 (translation sTRS)) (m_positions a) (m_positions a') /\
      appended (span4 (rotation sTRS)) (m_rotations a) (m_rotations a') /\
      appended (span3 (scale sTRS)) (m_scales a) (m_scales a') /\
      appended (span3 (translation pTRS)) (m_correctors a) (m_correctors a') /\
      if forceAnimationChannels (m_arguments a) then
        appended (span3 (scale pTRS)) (m_dummyProps1 a) (m_dummyProps1 a') /\
        appended (span4 (rotation pTRS)) (m_dummyProps2 a) (m_dummyProps2 a')
      else
        m_dummyProps1 a' = m_dummyProps1 a /\ m_dummyProps2 a' = m_dummyProps2 a
  end.

(** ** Exporting *)

(** [finish] on a buffer that holds [n] frames, as a total function. *)
Definition finishOf (n : nat) (a : NodeAnimation.t) (g : GLTF.Animation)
    (propName : string) (ptr : option PropAnimation.t) (thr : Q)
    (baseValues : list Q) : GLTF.Animation * option PropAnimation.t :=
  match ptr with
  | Some p =>
      finishWith (allWithin baseValues thr p n) a g propName p
        (getStepDetectSampleCount (m_arguments a))
  | None => (g, None)
  end.

(** The warning [exportTo] prints, if any. *)
Definition cerrOf (prefix : string) (a : NodeAnimation.t) : list CerrItem :=
  if negb (StdVector.is_empty (m_invalidLocalTransformTimes a))
  then warning prefix a else [].

(** The warning for a node of the given name, a worst deviation and the
    times of the offending frames. *)
Definition warningOf (prefix name : string) (deviation : Q) (times : list MTime)
  : list CerrItem :=
  [Text prefix; Text "WARNING: node '"; Text name;
   Text "' has animated transforms that are not representable by glTF! Skewing is not supported, use 3 nodes to simulate this. Largest deviation = ";
   Fixed2 (deviation * 100)%Q; Text "%"; Endl;
   Text prefix; Text "The first invalid transforms were found at times: "]
  ++ flat_map (fun time => [Time time; Text " "]) times
  ++ [Endl].

(** The [switch] of [exportTo] on a sampler whose buffers hold [n] frames,
    as a total function: every [finish] is replaced by [finishOf]. *)
Definition exportKind (n : nat) (a : NodeAnimation.t) (glAnimation : GLTF.Animation)
  : NodeAnimation.t * GLTF.Animation :=
  let pTRS := primaryTRS (initialTransformState (node a)) in
  let sTRS := secondaryTRS (initialTransformState (node a)) in
  let args := m_arguments a in
  let fin := finishOf n a in
    match transformKind (node a) with
    | Simple =>
        let '(g, p) := fin glAnimation "T"%string (m_positions a)
                         (constantTranslationThreshold args) (span3 (translation pTRS)) in
        let a := set_positions p a in
        let '(g, p) := fin g "R"%string (m_rotations a)
                         (constantRotationThreshold args) (span4 (rotation pTRS)) in
        let a := set_rotations p a in
        let '(g, p) := fin g "S"%string (m_scales a)
                         (constantScalingThreshold args) (span3 (scale pTRS)) in
        (set_scales p a, g)
    | ComplexJoint =>
        let '(g, p) := fin glAnimation "T"%string (m_positions a)
                         (constantTranslationThreshold args) (span3 (translation sTRS)) in
        let a := set_positions p a in
        let '(g, p) := fin g "R"%string (m_rotations a)
                         (constantRotationThreshold args) (span4 (rotation pTRS)) in
        let a := set_rotations p a in
        let '(g, p) := fin g "S"%string (m_scales a)
                         (constantScalingThreshold args) (span3 (scale pTRS)) in
        let a := set_scales p a in
        let '(g, p) := fin g "C"%string (m_correctors a)
                         (constantScalingThreshold args) (span3 (scale sTRS)) in
        let a := set_correctors p a in
        if forceAnimationChannels args then
          let '(g, p) := fin g "DT"%string (m_dummyProps1 a) 0%Q (span3 (translation pTRS)) in
          let a := set_dummyProps1 p a in
          let '(g, p) := fin g "DR"%string (m_dummyProps2 a) 0%Q (span4 (rotation sTRS)) in
          (set_dummyProps2 p a, g)
        else (a, g)
    | ComplexTransform =>
        let '(g, p) := fin glAnimation "T"%string (m_positions a)
                         (constantTranslationThreshold args) (span3 (translation sTRS)) in
        let a := set_positions p a in
        let '(g, p) := fin g "R"%string (m_rotations a)
                         (constantRotationThreshold args) (span4 (rotation sTRS)) in
        let a := set_rotations p a in
        let '(g, p) := fin g "S"%string (m_scales a)
                         (constantScalingThreshold args) (span3 (scale sTRS)) in
        let a := set_scales p a in
        let '(g, p) := fin g "C"%string (m_correctors a)
                         (constantScalingThreshold args) (span3 (translation pTRS)) in
        let a := set_correctors p a in
        if forceAnimationChannels args then
          let '(g, p) := fin g "DS"%string (m_dummyProps1 a) 0%Q (span3 (scale pTRS)) in
          let a := set_dummyProps1 p a in
          let '(g, p) := fin g "DR"%string (m_dummyProps2 a) 0%Q (span4 (rotation pTRS)) in
          (set_dummyProps2 p a, g)
        else (a, g)
    end.

(** The blend-shape weights part of [exportTo], as a total function. *)
Definition weightsWith (n : nat) (a a' : NodeAnimation.t) (g : GLTF.Animation)
  : NodeAnimation.t * GLTF.Animation :=
  match m_mesh a' with
  | Some m =>
      if 0 <? m_blendShapeCount a' then
        let '(g, p) := finishOf n a g "W"%string (m_weights a')
                         (constantWeightsThreshold (m_arguments a))
                         (initialWeights m) in
        (set_weights p a', g)
      else (a', g)
  | None => (a', g)
  end.

(** [exportTo] on such a sampler, as a total function. *)
Definition exportWith (n : nat) (a : NodeAnimation.t) (glAnimation : GLTF.Animation)
  : NodeAnimation.t * GLTF.Animation :=
  let '(a', g) := exportKind n a glAnimation in
  weightsWith n a a' g.

(** ** Emitted channels *)

(** [ch] is the buffer [ptr] emitted with a single keyframe: time 0 and the
    first sampled block. *)
Definition singleKey (ptr : option PropAnimation.t) (ch : GLTF.Channel) : Prop :=
  exists p,
    ptr = Some p /\
    GLTF.targetNode ch = PropAnimation.glNode p /\
    GLTF.targetPath ch = PropAnimation.path p /\
    GLTF.keyframeTimes ch = [0%Q] /\
    GLTF.keyframeValues ch
    = firstn (PropAnimation.dimension p) (PropAnimation.componentValuesPerFrame p).

(** [ch] is the buffer [ptr] emitted in full: every sampled block, at the
    times of the frame grid. *)
Definition fullKeys (ptr : option PropAnimation.t) (ch : GLTF.Channel) : Prop :=
  exists p,
    ptr = Some p /\
    GLTF.targetNode ch = PropAnimation.glNode p /\
    GLTF.targetPath ch = PropAnimation.path p /\
    GLTF.keyframeTimes ch = ExportableFrames.times (PropAnimation.frames p) /\
    GLTF.keyframeValues ch = PropAnimation.componentValuesPerFrame p.

(** The buffer [ptr], if any, is within [thr] of [baseValues]. *)
Definition constantAt (baseValues : list Q) (thr : Q)
    (ptr : option PropAnimation.t) : Prop :=
  forall p, ptr = Some p -> withinThreshold baseValues thr p.

(** ** The decomposition-kind table *)

(** The buffers the table of decomposition kinds prescribes, as (target
    node, path, dimension), for a node with primary and secondary glTF
    nodes [pNode] and [sNode] and [blendShapes] morph targets. *)
Definition expectedBuffers (kind : TransformKind) (forceChannels : bool)
    (pNode sNode : GLTF.Node) (blendShapes : nat)
  : list (GLTF.Node * GLTF.Path * nat) :=
  match kind with
  | Simple =>
      [(pNode, GLTF.TRANSLATION, 3); (pNode, GLTF.ROTATION, 4); (pNode, GLTF.SCALE, 3)]
  | ComplexJoint =>
      [(sNode, GLTF.TRANSLATION, 3); (pNode, GLTF.ROTATION, 4); (pNode, GLTF.SCALE, 3);
       (sNode, GLTF.SCALE, 3)]
      ++ (if forceChannels
          then [(pNode, GLTF.TRANSLATION, 3); (sNode, GLTF.ROTATION, 4)] else [])
  | ComplexTransform =>
      [(sNode, GLTF.TRANSLATION, 3); (sNode, GLTF.ROTATION, 4); (sNode, GLTF.SCALE, 3);
       (pNode, GLTF.TRANSLATION, 3)]
      ++ (if forceChannels
          then [(pNode, GLTF.SCALE, 3); (pNode, GLTF.ROTATION, 4)] else [])
  end
  ++ (if 0 <? blendShapes then [(pNode, GLTF.WEIGHTS, blendShapes)] else []).

(** The number of morph targets of a node's mesh (0 without a mesh). *)
Definition morphTargets (node0 : ExportableNode) : nat :=
  match mesh node0 with Some m => blendShapeCount m | None => 0 end.

(** The routing the claim about [ComplexTransform] describes: translation is
    read from one TRS, rotation and scale from the other one. *)
Definition oppositeRouting (a a' : NodeAnimation.t) (st : NodeTransformState)
  : Prop :=
  exists one other,
    (one = primaryTRS st /\ other = secondaryTRS st \/
     one = secondaryTRS st /\ other = primaryTRS st) /\
    appended (span3 (translation one)) (m_positions a) (m_positions a') /\
    appended (span4 (rotation other)) (m_rotations a) (m_rotations a') /\
    appended (span3 (scale other)) (m_scales a) (m_scales a').

(** ** The members of a sampler, one by one *)

(** What a buffer pointer is expected to be after [n] frames: null, or a
    buffer over [frames] for the given target node, path and dimension that
    holds [n] blocks. *)
Definition slot (frames : ExportableFrames.t) (n : nat)
    (expected : option (GLTF.Node * GLTF.Path * nat))
    (ptr : option PropAnimation.t) : Prop :=
  match expected, ptr with
  | None, None => True
  | Some (nd, pa, d), Some p =>
      PropAnimation.glNode p = nd /\ PropAnimation.path p = pa /\
      PropAnimation.dimension p = d /\ PropAnimation.frames p = frames /\
      length (PropAnimation.componentValuesPerFrame p) = n * d
  | _, _ => False
  end.

(** The row of the decomposition-kind table, member by member. *)
Definition expectedCorrectors (kind : TransformKind) (pNode sNode : GLTF.Node)
  : option (GLTF.Node * GLTF.Path * nat) :=
  match kind with
  | Simple => None
  | ComplexJoint => Some (sNode, GLTF.SCALE, 3)
  | ComplexTransform => Some (pNode, GLTF.TRANSLATION, 3)
  end.

Definition expectedDummy1 (kind : TransformKind) (forceChannels : bool)
    (pNode : GLTF.Node) : option (GLTF.Node * GLTF.Path * nat) :=
  match kind, forceChannels with
  | ComplexJoint, true => Some (pNode, GLTF.TRANSLATION, 3)
  | ComplexTransform, true => Some (pNode, GLTF.SCALE, 3)
  | _, _ => None
  end.

Definition expectedDummy2 (kind : TransformKind) (forceChannels : bool)
    (pNode sNode : GLTF.Node) : option (GLTF.Node * GLTF.Path * nat) :=
  match kind, forceChannels with
  | ComplexJoint, true => Some (sNode, GLTF.ROTATION, 4)
  | ComplexTransform, true => Some (pNode, GLTF.ROTATION, 4)
  | _, _ => None
  end.

(** Every member of the sampler is as the table says, after [n] frames. *)
Definition slotsInv (frames : ExportableFrames.t) (n : nat) (a : NodeAnimation.t)
  : Prop :=
  let kind := transformKind (node a) in
  let fc := forceAnimationChannels (m_arguments a) in
  let pNode := glPrimaryNode (node a) in
  let sNode := glSecondaryNode (node a) in
  slot frames n
    (Some (match kind with Simple => pNode | _ => sNode end, GLTF.TRANSLATION, 3))
    (m_positions a) /\
  slot frames n
    (Some (match kind with ComplexTransform => sNode | _ => pNode end, GLTF.ROTATION, 4))
    (m_rotations a) /\
  slot frames n
    (Some (match kind with ComplexTransform => sNode | _ => pNode end, GLTF.SCALE, 3))
    (m_scales a) /\
  slot frames n (expectedCorrectors kind pNode sNode) (m_correctors a) /\
  slot frames n (expectedDummy1 kind fc pNode) (m_dummyProps1 a) /\
  slot frames n (expectedDummy2 kind fc pNode sNode) (m_dummyProps2 a) /\
  slot frames n
    (if 0 <? m_blendShapeCount a
     then Some (pNode, GLTF.WEIGHTS, m_blendShapeCount a) else None)
    (m_weights a).

(** ** The frame loop of [ExportableClip] *)

(** The call the frame loop makes for frame [i], whose relative time is
    [t]: the cursor is first set to the absolute time. *)
Definition frameCall (clipArg : ExportableClip.AnimClipArg) (t : Q) (i : nat)
  : Call :=
  let absoluteFrameTime := (ExportableClip.startTime clipArg + t)%Q in
  let h := mkHost absoluteFrameTime in
  mkCall h absoluteFrameTime (Z.of_nat i) (NodeTransformCache.mk h).

(** The calls for the frames [indices], in order (a frame without a time in
    the grid has none). *)
Definition frameCalls (clipArg : ExportableClip.AnimClipArg)
    (frames : ExportableFrames.t) (indices : list nat) : list Call :=
  flat_map (fun i => match nth_error (ExportableFrames.times frames) i with
                     | Some t => [frameCall clipArg t i]
                     | None => []
                     end) indices.

(** The progress messages for the frames [indices]. *)
Definition progressOf (interval : Z) (clipArg : ExportableClip.AnimClipArg)
    (frameCount : Z) (indices : list nat) : list (string * Z) :=
  flat_map (fun i =>
              if (Z.rem (Z.of_nat i) interval =? interval - 1)%Z
              then [(ExportableClip.clipName clipArg,
                     Z.quot (Z.of_nat i * 100) frameCount)]
              else []) indices.

(** * Concrete inputs

    A two-frame clip at 24 frames per second and a joint whose rest pose is
    the identity; they are the inputs at which the properties below are
    instantiated. *)

Definition ex_identity : TRS := mkTRS (0, 0, 0)%Q (0, 0, 0, 1)%Q (1, 1, 1)%Q.

(** The identity moved one unit along x. *)
Definition ex_moved : TRS := mkTRS (1, 0, 0)%Q (0, 0, 0, 1)%Q (1, 1, 1)%Q.

(** A pose that differs from [ex_identity] in translation, rotation and
    scale. *)
Definition ex_posed : TRS := mkTRS (1, 2, 3)%Q (1, 0, 0, 0)%Q (2, 2, 2)%Q.

Definition ex_args (forceSampling forceChannels : bool) (stepDetect : Z)
  : Arguments :=
  mkArguments forceSampling forceChannels false
    (1 # 1000) (1 # 1000) (1 # 1000) (1 # 1000) stepDetect 1 false.

Definition ex_frames : ExportableFrames.t :=
  ExportableFrames.mk "walk/anim/frames" 2 [0%Q; (1 # 24)%Q].

(** A node of the given kind, without a mesh, that rests at the identity
    and reports [pose t] at time [t]. *)
Definition ex_node (kind : TransformKind) (pose : MTime -> NodeTransformState)
  : ExportableNode :=
  mkNode "joint1" kind None (mkState ex_identity ex_identity 0) 0 1
    (fun t _ => pose t) true.

(** A node that never moves. *)
Definition ex_still (kind : TransformKind) : ExportableNode :=
  ex_node kind (fun _ => mkState ex_identity ex_identity 0).

Definition ex_animation : GLTF.Animation := GLTF.mkAnimation "walk" [].

(** A translation buffer with two sampled frames, at rest in both. *)
Definition ex_constant_buffer : PropAnimation.t :=
  PropAnimation.mk ex_frames 0 GLTF.TRANSLATION 3 false
    [0; 0; 0; 0; 0; 0]%Q (GLTF.mkChannel "" 0 GLTF.TRANSLATION [] []).

(** A translation buffer with two sampled frames, moving in the second. *)
Definition ex_moving_buffer : PropAnimation.t :=
  PropAnimation.mk ex_frames 0 GLTF.TRANSLATION 3 false
    [0; 0; 0; 1; 0; 0]%Q (GLTF.mkChannel "" 0 GLTF.TRANSLATION [] []).

(** The sampler of a still [Simple] node under the given configuration. *)
Definition ex_sampler (forceSampling forceChannels : bool) (stepDetect : Z)
  : NodeAnimation.t :=
  NodeAnimation.make (ex_still Simple) ex_frames 1
    (ex_args forceSampling forceChannels stepDetect).

(** The call that samples frame [i], at [i / 24] seconds. *)
Definition ex_call (i : nat) : Call :=
  let t := (Z.of_nat i # 24)%Q in
  mkCall (mkHost t) t (Z.of_nat i) (NodeTransformCache.mk (mkHost t)).

Definition ex_calls (n : nat) : list Call := map ex_call (seq 0 n).

(** A [Simple] node at rest whose transform is sheared at every frame: by 5%
    during the first ten frames, by 50% afterwards. *)
Definition ex_sheared : ExportableNode :=
  ex_node Simple
    (fun t => mkState ex_identity ex_identity
                (if Qltb t (10 # 24) then (5 # 100)%Q else (50 # 100)%Q)).

(** A node of the given kind whose primary TRS stays at the identity while
    its secondary TRS is posed. *)
Definition ex_split (kind : TransformKind) : ExportableNode :=
  ex_node kind (fun _ => mkState ex_identity ex_posed 0).

(** The value of a computation that does not abort ([d] otherwise). *)
Definition the {A} (o : option A) (d : A) : A :=
  match o with Some x => x | None => d end.

(** The sampler of a still [Simple] node after the two frames of the clip. *)
Definition ex_sampled (forceSampling forceChannels : bool) (stepDetect : Z)
  : NodeAnimation.t :=
  the (sampleMany (1 # 100) (ex_sampler forceSampling forceChannels stepDetect)
         (ex_calls 2))
      (ex_sampler forceSampling forceChannels stepDetect).

(** The sampler of the sheared node after [n] frames. *)
Definition ex_sheared_sampled (n : nat) : NodeAnimation.t :=
  the (sampleMany (1 # 100)
         (NodeAnimation.make ex_sheared ex_frames 1 (ex_args false false 1))
         (ex_calls n))
      (NodeAnimation.make ex_sheared ex_frames 1 (ex_args false false 1)).

(** The sampler of a split [ComplexJoint] node with the dummy channels
    forced, after the two frames of the clip. *)
Definition ex_joint_sampled (stepDetect : Z) : NodeAnimation.t :=
  the (sampleMany (1 # 100)
         (NodeAnimation.make (ex_split ComplexJoint) ex_frames 1
            (ex_args false true stepDetect))
         (ex_calls 2))
      (NodeAnimation.make (ex_split ComplexJoint) ex_frames 1
         (ex_args false true stepDetect)).

(** A node the scene reports as not animatable. *)
Definition ex_static : ExportableNode :=
  mkNode "locator1" Simple None (mkState ex_identity ex_identity 0) 2 2
    (fun _ _ => mkState ex_identity ex_identity 0) false.

(** A sampler configured like [ex_sampler] but with the channels forced. *)
Definition ex_forced : NodeAnimation.t := ex_sampler false true 1.

(** A translation buffer that was never sampled. *)
Definition ex_empty_buffer : PropAnimation.t :=
  PropAnimation.make ex_frames 0 GLTF.TRANSLATION 3 false.

(** The sampler [exportTo] leaves behind after it has dropped the three
    buffers of a still [Simple] node. *)
Definition ex_exported : NodeAnimation.t :=
  match exportTo "" (ex_sampled false false 1) ex_animation with
  | Some (a', _, _) => a'
  | None => ex_sampled false false 1
  end.

(** A mesh with two blend shapes that reports three weights from the second
    second on. *)
Definition ex_mesh : ExportableMesh :=
  mkMesh 2 [0; 0]%Q
    (fun t => if Qltb t 1 then [0; (1 # 2)]%Q else [0; (1 # 2); 1]%Q).

(** A still [Simple] node that carries [ex_mesh]. *)
Definition ex_morphing : ExportableNode :=
  mkNode "face" Simple (Some ex_mesh) (mkState ex_identity ex_identity 0) 0 1
    (fun _ _ => mkState ex_identity ex_identity 0) true.

(** What [exportTo] returns for the still [Simple] node under
    [forceAnimationSampling]. *)
Definition ex_export : NodeAnimation.t * GLTF.Animation * list CerrItem :=
  the (exportTo "" (ex_sampled true false 1) ex_animation)
      (ex_sampled true false 1, ex_animation, []).

(** A clip of five frames at 24 frames per second that starts at 1 s, over
    a scene with the sheared node and a node that is not animatable. *)
Definition ex_clip_arg : ExportableClip.AnimClipArg :=
  ExportableClip.mkClipArg "walk" 1%Q 5 24.

Definition ex_scene : ExportableClip.ExportableScene :=
  ExportableClip.mkScene
    [("joint1"%string, ex_sheared); ("locator1"%string, ex_static)].

(** The clip baked from them, reporting progress every second frame. *)
Definition ex_baked : ExportableClip.t * ExportableClip.Effects :=
  the (ExportableClip.make (1 # 100) "" 2 (ex_args false false 1) ex_clip_arg
         ex_scene (mkHost 0%Q))
      (ExportableClip.mk ex_frames ex_animation [],
       ExportableClip.mkEffects (mkHost 0%Q) [] []).

(** A clip of eleven frames at 24 frames per second. *)
Definition ex_long_frames : ExportableFrames.t :=
  ExportableFrames.mk "walk/anim/frames" 11
    (map (fun i => (Z.of_nat i # 24)%Q) (seq 0 11)).

(** A [Simple] node at rest at the identity that drifts along x, at [t]
    units at time [t], and is sheared at every frame: by 5% during the
    first ten frames, by 50% afterwards. *)
Definition ex_drifting : ExportableNode :=
  ex_node Simple
    (fun t => mkState (mkTRS (t, 0, 0)%Q (0, 0, 0, 1)%Q (1, 1, 1)%Q) ex_identity
                (if Qltb t (10 # 24) then (5 # 100)%Q else (50 # 100)%Q)).

(** * Properties *)

(** ** Scalars *)

Lemma Qltb_lt (a b : Q) : Qltb a b = true <-> (a < b)%Q.
Proof. unfold Qltb, Qlt. apply Z.ltb_lt. Qed.

Lemma Qltb_nlt (a b : Q) : Qltb a b = false <-> ~ (a < b)%Q.
Proof.
  rewrite <- Qltb_lt. destruct (Qltb a b); split; congruence.
Qed.

(** No absolute value is below a threshold of 0. *)
Lemma Qltb_abs_0 (x : Q) : Qltb (Qabs x) 0 = false.
Proof.
  apply Qltb_nlt. apply Qle_not_lt. apply Qabs_nonneg.
Qed.

(** ** What "constant within the threshold" means

[sample p frame index] is component [index] of the block sampled at
frame [frame]; a buffer is within the threshold of [baseValues] when
every sampled component is. *)

(** ** The two loops of [finish] *)

Section Scan.

Variables (baseValues componentValues : list Q).
Variables (dimension : nat) (thr : Q).

Abbreviation scanC := (scanComponents baseValues componentValues dimension thr).
Abbreviation scanF := (scanFrames baseValues componentValues dimension thr).

Lemma scanComponents_false fuel index offset :
  scanC fuel index offset false = Some false.
Proof.
  destruct fuel; simpl; rewrite andb_false_r; reflexivity.
Qed.

Lemma scanFrames_false fuel offset :
  scanF fuel offset false = Some false.
Proof.
  destruct fuel; simpl; rewrite andb_false_r; reflexivity.
Qed.

Hypothesis base_length : length baseValues = dimension.

Lemma scanComponents_spec offset :
  offset + dimension <= length componentValues ->
  forall k index fuel,
    index + k = dimension -> k <= fuel ->
    scanC fuel index offset true
    = Some (forallb (withinAt baseValues componentValues thr offset) (seq index k)).
Proof.
  intros Hoff. induction k as [|k IH]; intros index fuel Hk Hfuel.
  - assert (Hge : (index <? dimension) = false) by (apply Nat.ltb_ge; lia).
    destruct fuel; simpl; rewrite Hge; reflexivity.
  - destruct fuel as [|fuel]; [lia|].
    assert (Hlt : (index <? dimension) = true) by (apply Nat.ltb_lt; lia).
    cbn [scanComponents seq forallb]. rewrite Hlt. cbn [andb].
    unfold withinAt at 1.
    destruct (nth_error baseValues index) as [b|] eqn:Hb.
    2:{ apply nth_error_None in Hb. lia. }
    destruct (nth_error componentValues (offset + index)) as [v|] eqn:Hv.
    2:{ apply nth_error_None in Hv. lia. }
    cbn [bind].
    destruct (Qltb (Qabs (b - v)) thr); cbn [andb].
    + apply IH; lia.
    + apply scanComponents_false.
Qed.

Lemma scanFrames_spec :
  0 < dimension ->
  forall n k fuel,
    length componentValues = (k + n) * dimension -> n <= fuel ->
    scanF fuel (k * dimension) true
    = Some (forallb
              (fun frame =>
                 forallb (withinAt baseValues componentValues thr (frame * dimension))
                         (seq 0 dimension))
              (seq k n)).
Proof.
  intros Hd. induction n as [|n IH]; intros k fuel Hlen Hfuel.
  - assert (Hge : (k * dimension <? length componentValues) = false)
      by (apply Nat.ltb_ge; lia).
    destruct fuel; simpl; rewrite Hge; reflexivity.
  - destruct fuel as [|fuel]; [lia|].
    assert (Hlt : (k * dimension <? length componentValues) = true)
      by (apply Nat.ltb_lt; nia).
    cbn [scanFrames seq forallb]. rewrite Hlt. cbn [andb].
    rewrite (scanComponents_spec (k * dimension)) with (k := dimension);
      [ | nia | lia | lia ].
    cbn [bind].
    destruct (forallb (withinAt baseValues componentValues thr (k * dimension))
                      (seq 0 dimension)); cbn [andb].
    + replace (k * dimension + dimension) with (S k * dimension) by lia.
      apply IH; lia.
    + apply scanFrames_false.
Qed.

End Scan.

Lemma allWithin_iff baseValues thr p n :
  holdsFrames n p ->
  length baseValues = PropAnimation.dimension p ->
  allWithin baseValues thr p n = true <-> withinThreshold baseValues thr p.
Proof.
  intros [Hd Hlen] Hbase. unfold allWithin, withinThreshold, sample. split.
  - intros Hall frame index b v Hi Hb Hv.
    assert (Hf : frame < n).
    { assert (Hlt : frame * PropAnimation.dimension p + index
                    < length (PropAnimation.componentValuesPerFrame p))
        by (apply nth_error_Some; congruence).
      rewrite Hlen in Hlt. nia. }
    rewrite forallb_forall in Hall.
    specialize (Hall frame). rewrite in_seq in Hall.
    assert (Hrow := Hall ltac:(lia)). rewrite forallb_forall in Hrow.
    specialize (Hrow index). rewrite in_seq in Hrow.
    assert (Hw := Hrow ltac:(lia)). unfold withinAt in Hw.
    rewrite Hb, Hv in Hw. apply Qltb_lt. exact Hw.
  - intros Hall. apply forallb_forall. intros frame Hf. apply in_seq in Hf.
    apply forallb_forall. intros index Hi. apply in_seq in Hi.
    unfold withinAt.
    destruct (nth_error baseValues index) as [b|] eqn:Hb.
    2:{ apply nth_error_None in Hb. lia. }
    destruct (nth_error (PropAnimation.componentValuesPerFrame p)
                (frame * PropAnimation.dimension p + index)) as [v|] eqn:Hv.
    2:{ apply nth_error_None in Hv. rewrite Hlen in Hv. nia. }
    apply Qltb_lt. apply (Hall frame index b v); [lia | assumption | assumption].
Qed.

Lemma allWithin_false_iff baseValues thr p n :
  holdsFrames n p ->
  length baseValues = PropAnimation.dimension p ->
  allWithin baseValues thr p n = false <-> ~ withinThreshold baseValues thr p.
Proof.
  intros Hp Hbase. rewrite <- (allWithin_iff baseValues thr p n Hp Hbase).
  destruct (allWithin baseValues thr p n); split; congruence.
Qed.

(** On a buffer that holds [n] frames the loops of [finish] terminate
    without a fault and compute [allWithin]. *)
Lemma finish_holdsFrames a g propName p thr detect baseValues n :
  holdsFrames n p ->
  length baseValues = PropAnimation.dimension p ->
  finish a g propName (Some p) thr detect baseValues
  = Some (finishWith (allWithin baseValues thr p n) a g propName p detect).
Proof.
  intros [Hd Hlen] Hbase. unfold finish. cbn [bind].
  assert (Hpos : (0 <? PropAnimation.dimension p) = true) by (apply Nat.ltb_lt; lia).
  rewrite Hpos. rewrite Hbase, Nat.eqb_refl.
  rewrite (scanFrames_spec baseValues (PropAnimation.componentValuesPerFrame p)
             (PropAnimation.dimension p) thr Hbase Hd n 0 _);
    [ | rewrite Hlen; lia | rewrite Hlen; nia ].
  cbn [bind]. fold (allWithin baseValues thr p n).
  unfold finishWith, channelNameOf.
  destruct (allWithin baseValues thr p n),
    (forceAnimationSampling (m_arguments a)),
    (forceAnimationChannels (m_arguments a)),
    (detect <=? 1)%Z; reflexivity.
Qed.

(** ** The three outcomes of [finish]

They are read off what [finish] leaves behind: the output animation and
the (possibly released) buffer. *)

Lemma finishWith_emitted isConstant a g propName p detect :
  let fs := forceAnimationSampling (m_arguments a) in
  let fc := forceAnimationChannels (m_arguments a) in
  isConstant && negb fs && negb fc = false ->
  (isConstant && negb fs) || (detect <=? 1)%Z = true ->
  (if isConstant && negb fs then SingleKeyframe g p else FullTrack g p)
    (finishWith isConstant a g propName p detect).
Proof.
  intros fs fc Hkeep Hemit. unfold finishWith. fold fs fc.
  rewrite Hkeep, Hemit.
  destruct (isConstant && negb fs);
    eexists; repeat split; reflexivity.
Qed.

Lemma push_back_neq c g : GLTF.push_back c g <> g.
Proof.
  intros H. apply (f_equal (fun x => length (GLTF.channels x))) in H.
  unfold GLTF.push_back in H. cbn in H. rewrite length_app in H. cbn in H. lia.
Qed.

Lemma Emitted_not_unchanged g p times values q :
  ~ Emitted g p times values (g, q).
Proof.
  intros [p' [H _]]. inversion H as [[Hg Hq]].
  symmetry in Hg. exact (push_back_neq _ _ Hg).
Qed.

(** ** One step of sampling *)

Lemma arrow_append values ptr q :
  arrow (PropAnimation.append values) ptr = Some q -> appended values ptr q.
Proof.
  unfold arrow, PropAnimation.append. destruct ptr as [p|]; cbn [bind]; [|discriminate].
  destruct (length values =? PropAnimation.dimension p) eqn:Hlen; cbn [bind];
    [|discriminate].
  intros H. inversion H. exists p. apply Nat.eqb_eq in Hlen. auto.
Qed.

Lemma arrow_appendQuaternion values ptr q :
  arrow (PropAnimation.appendQuaternion values) ptr = Some q -> appended values ptr q.
Proof. apply arrow_append. Qed.

Ltac bind_inv H :=
  match type of H with
  | bind ?m _ = Some _ =>
      let E := fresh "E" in
      destruct m eqn:E; cbn [bind] in H; [|discriminate H];
      first [ apply arrow_append in E | apply arrow_appendQuaternion in E | idtac ]
  | (if ?b then _ else None) = Some _ =>
      let E := fresh "E" in
      destruct b eqn:E; [|discriminate H]
  end.

Ltac binds_inv H := repeat (bind_inv H; cbn in H).

Section SampleAt.

Variable MAX_NON_ORTHOGONALITY : Q.

Lemma sampleAt_inv a h absoluteTime frameIndex cache a' :
  sampleAt MAX_NON_ORTHOGONALITY a h absoluteTime frameIndex cache = Some a' ->
  let st := NodeTransformCache.getTransform cache (node a) (m_scaleFactor a) in
  sameNode a a' /\
  recorded MAX_NON_ORTHOGONALITY a a' absoluteTime st /\
  routed a a' st /\
  (if 0 <? m_blendShapeCount a then
     exists m, m_mesh a = Some m /\
               appended (currentWeights h m) (m_weights a) (m_weights a')
   else m_weights a' = m_weights a).
Proof.
  intros H st. unfold sampleAt in H. fold st in H.
  unfold sameNode, recorded, routed, offending.
  bind_inv H.
  destruct (Qltb MAX_NON_ORTHOGONALITY (maxNonOrthogonality st)
            && (StdVector.size (m_invalidLocalTransformTimes a)
                <? StdVector.capacity (m_invalidLocalTransformTimes a)));
    cbn [node set_invalid] in E;
    destruct (transformKind (node a)); cbn in E; binds_inv E;
    try (destruct (forceAnimationChannels (m_arguments a)); binds_inv E);
    inversion E; subst; clear E; cbn in H |- *;
    (destruct (m_blendShapeCount a) eqn:Hcount;
     [ inversion H; subst; clear H; cbn; rewrite ?Hcount; auto 10
     | binds_inv H; inversion H; subst; clear H; cbn; rewrite ?Hcount;
       repeat split; eauto ]).
Qed.

End SampleAt.

(** ** The buffers of a sampler *)

Lemma holds_appended path d n values ptr ptr' :
  holds path d n ptr -> appended values ptr ptr' -> holds path d (S n) ptr'.
Proof.
  intros [p [Hp [Hpath [Hd [Hpos Hlen]]]]] [q [Hq [Hv Hptr']]].
  rewrite Hp in Hq. inversion Hq; subst q. clear Hq.
  eexists. split; [exact Hptr'|]. cbn. split; [exact Hpath|]. split; [exact Hd|].
  split; cbn; [exact Hpos|]. rewrite length_app, Hlen, Hv. lia.
Qed.

Lemma make_samplerInv node0 frames scaleFactor arguments :
  samplerInv 0 (NodeAnimation.make node0 frames scaleFactor arguments).
Proof.
  assert (Hnew : forall nd path d u, 0 < d ->
            holds path d 0 (Some (PropAnimation.make frames nd path d u))).
  { intros nd path d u Hd. eexists. split; [reflexivity|]. split; [reflexivity|].
    split; [reflexivity|]. split; cbn; [exact Hd | reflexivity]. }
  unfold samplerInv, NodeAnimation.make.
  destruct (mesh node0) as [m|] eqn:Hmesh;
    destruct (transformKind node0) eqn:Hkind;
    destruct (forceAnimationChannels arguments) eqn:Hfc;
    try destruct (0 <? blendShapeCount m) eqn:Hcount;
    cbn; rewrite ?Hmesh, ?Hkind, ?Hfc;
    repeat match goal with
           | |- _ /\ _ => split
           | |- holds _ _ 0 (Some _) => apply Hnew; lia
           | |- _ -> _ => intro
           end;
    try reflexivity; try congruence; try lia.
  all: try (apply Nat.ltb_lt in Hcount; apply Hnew; exact Hcount).
  all: try (apply Nat.ltb_ge in Hcount; lia).
Qed.

Lemma sampleAt_samplerInv MAXN n a h absoluteTime frameIndex cache a' :
  samplerInv n a ->
  sampleAt MAXN a h absoluteTime frameIndex cache = Some a' ->
  samplerInv (S n) a'.
Proof.
  intros (Hmesh & Hcount & HT & HR & HS & HC & HW) Hstep.
  apply sampleAt_inv in Hstep. cbv zeta in Hstep.
  destruct Hstep as ((Hnode & Hmesh' & _ & Hcount' & Hargs) & _ & Hroute & Hweights).
  unfold samplerInv. rewrite Hnode, Hmesh', Hcount', Hargs.
  split; [exact Hmesh|]. split; [exact Hcount|].
  unfold routed in Hroute.
  assert (Hw' : 0 < m_blendShapeCount a ->
                holds GLTF.WEIGHTS (m_blendShapeCount a) (S n) (m_weights a')).
  { intros Hpos. assert (Hb : (0 <? m_blendShapeCount a) = true)
      by (apply Nat.ltb_lt; exact Hpos).
    rewrite Hb in Hweights. destruct Hweights as [m [_ Happ]].
    eapply holds_appended; [apply HW; exact Hpos | exact Happ]. }
  destruct (transformKind (node a)) eqn:Hkind.
  - destruct Hroute as (RT & RR & RS & _).
    pose proof (holds_appended _ _ _ _ _ _ HT RT).
    pose proof (holds_appended _ _ _ _ _ _ HR RR).
    pose proof (holds_appended _ _ _ _ _ _ HS RS).
    split; [assumption|]. split; [assumption|]. split; [assumption|].
    split; [exact I | exact Hw'].
  - destruct Hroute as (RT & RR & RS & RC & RD). destruct HC as [HC1 HC2].
    pose proof (holds_appended _ _ _ _ _ _ HT RT).
    pose proof (holds_appended _ _ _ _ _ _ HR RR).
    pose proof (holds_appended _ _ _ _ _ _ HS RS).
    pose proof (holds_appended _ _ _ _ _ _ HC1 RC).
    split; [assumption|]. split; [assumption|]. split; [assumption|].
    split; [|exact Hw']. split; [assumption|].
    intros Hfc; rewrite Hfc in RD; destruct RD as [RD1 RD2];
      destruct (HC2 Hfc) as [HD1 HD2].
    split; [ exact (holds_appended _ _ _ _ _ _ HD1 RD1)
           | exact (holds_appended _ _ _ _ _ _ HD2 RD2) ].
  - destruct Hroute as (RT & RR & RS & RC & RD). destruct HC as [HC1 HC2].
    pose proof (holds_appended _ _ _ _ _ _ HT RT).
    pose proof (holds_appended _ _ _ _ _ _ HR RR).
    pose proof (holds_appended _ _ _ _ _ _ HS RS).
    pose proof (holds_appended _ _ _ _ _ _ HC1 RC).
    split; [assumption|]. split; [assumption|]. split; [assumption|].
    split; [|exact Hw']. split; [assumption|].
    intros Hfc; rewrite Hfc in RD; destruct RD as [RD1 RD2];
      destruct (HC2 Hfc) as [HD1 HD2].
    split; [ exact (holds_appended _ _ _ _ _ _ HD1 RD1)
           | exact (holds_appended _ _ _ _ _ _ HD2 RD2) ].
Qed.

Lemma sampleAt_node MAXN a h absoluteTime frameIndex cache a' :
  sampleAt MAXN a h absoluteTime frameIndex cache = Some a' -> sameNode a a'.
Proof. intros H. apply sampleAt_inv in H. apply H. Qed.

Lemma sampleMany_app MAXN a calls c :
  sampleMany MAXN a (calls ++ [c])
  = (a' <- sampleMany MAXN a calls ;;
     sampleAt MAXN a' (callHost c) (callTime c) (callFrame c) (callCache c)).
Proof.
  revert a. induction calls as [|c0 calls IH]; intros a; cbn [sampleMany app bind].
  - destruct (sampleAt MAXN a _ _ _ _); reflexivity.
  - destruct (sampleAt MAXN a _ _ _ _) as [a1|]; cbn [bind]; [apply IH | reflexivity].
Qed.

Lemma sampleMany_node MAXN calls :
  forall a a', sampleMany MAXN a calls = Some a' -> sameNode a a'.
Proof.
  induction calls as [|c calls IH]; intros a a' H; cbn [sampleMany] in H.
  - inversion H. unfold sameNode. auto.
  - bind_inv H. apply sampleAt_node in E. apply IH in H.
    unfold sameNode in *.
    destruct E as (E1 & E2 & E3 & E4 & E5), H as (H1 & H2 & H3 & H4 & H5).
    repeat split; congruence.
Qed.

Lemma sampleMany_samplerInv MAXN calls :
  forall n a a',
    samplerInv n a -> sampleMany MAXN a calls = Some a' ->
    samplerInv (n + length calls) a'.
Proof.
  induction calls as [|c calls IH]; intros n a a' Hinv H; cbn [sampleMany] in H.
  - inversion H; subst. cbn. rewrite Nat.add_0_r. exact Hinv.
  - bind_inv H. cbn [length]. rewrite Nat.add_succ_r.
    apply (IH (S n) t0 a'); [|exact H].
    eapply sampleAt_samplerInv; eassumption.
Qed.

(** ** The record of offending frames *)

Lemma firstn_snoc {A} (n : nat) (l : list A) (x : A) :
  firstn n (l ++ [x]) = if length l <? n then l ++ [x] else firstn n l.
Proof.
  rewrite firstn_app. destruct (length l <? n) eqn:Hlt.
  - apply Nat.ltb_lt in Hlt. rewrite firstn_all2 by lia.
    destruct (n - length l) eqn:Hsub; [lia|]. cbn. rewrite firstn_nil. reflexivity.
  - apply Nat.ltb_ge in Hlt. replace (n - length l) with 0 by lia.
    cbn. apply app_nil_r.
Qed.

Lemma recordedFrames_snoc MAXN history f :
  recordedFrames MAXN (history ++ [f])
  = if offending MAXN (snd f) && (length (recordedFrames MAXN history) <? 10)
    then recordedFrames MAXN history ++ [f]
    else recordedFrames MAXN history.
Proof.
  unfold recordedFrames. rewrite filter_app. cbn [filter].
  set (F := filter (fun f0 => offending MAXN (snd f0)) history).
  destruct (offending MAXN (snd f)); cbn [andb].
  - rewrite firstn_snoc. rewrite length_firstn.
    destruct (length F <? 10) eqn:Hlt.
    + apply Nat.ltb_lt in Hlt.
      assert (Hmin : (Nat.min 10 (length F) <? 10) = true)
        by (apply Nat.ltb_lt; lia).
      rewrite Hmin. rewrite firstn_all2 by lia. reflexivity.
    + apply Nat.ltb_ge in Hlt.
      assert (Hmin : (Nat.min 10 (length F) <? 10) = false)
        by (apply Nat.ltb_ge; lia).
      rewrite Hmin. reflexivity.
  - rewrite app_nil_r. reflexivity.
Qed.

Lemma recordedFrames_length MAXN history :
  length (recordedFrames MAXN history) <= 10.
Proof. unfold recordedFrames. rewrite length_firstn. lia. Qed.

Lemma make_fresh node0 frames scaleFactor arguments :
  let a := NodeAnimation.make node0 frames scaleFactor arguments in
  node a = node0 /\ m_arguments a = arguments /\ m_scaleFactor a = scaleFactor /\
  m_maxNonOrthogonality a = 0%Q /\
  m_invalidLocalTransformTimes a = StdVector.mk [] 10.
Proof.
  unfold NodeAnimation.make.
  destruct (transformKind node0), (forceAnimationChannels arguments),
    (0 <? match mesh node0 with Some m => blendShapeCount m | None => 0 end);
    cbn; auto.
Qed.

Lemma sampleMany_recorded MAXN a0 calls :
  m_maxNonOrthogonality a0 = 0%Q ->
  m_invalidLocalTransformTimes a0 = StdVector.mk [] 10 ->
  forall a,
    sampleMany MAXN a0 calls = Some a ->
    let frames := recordedFrames MAXN (map (observe a0) calls) in
    m_invalidLocalTransformTimes a = StdVector.mk (map fst frames) 10 /\
    m_maxNonOrthogonality a
    = largest (map (fun f => maxNonOrthogonality (snd f)) frames).
Proof.
  intros Hmax0 Htimes0. induction calls as [|c calls IH] using rev_ind; intros a H.
  - cbn in H. inversion H; subst a. cbn. auto.
  - rewrite sampleMany_app in H. bind_inv H. rename t0 into a1.
    destruct (IH a1 eq_refl) as [IHtimes IHmax]. clear IH.
    pose proof (sampleMany_node MAXN calls a0 a1 E) as (Hnode & _ & Hscale & _).
    apply sampleAt_inv in H. cbv zeta in H. destruct H as (_ & Hrec & _).
    rewrite Hnode, Hscale in Hrec. fold (observe a0 c) in Hrec.
    cbv zeta. rewrite map_app. cbn [map].
    rewrite recordedFrames_snoc.
    replace (snd (observe a0 c))
      with (NodeTransformCache.getTransform (callCache c) (node a0)
              (m_scaleFactor a0)) by reflexivity.
    unfold recorded in Hrec. rewrite IHtimes, IHmax in Hrec.
    unfold StdVector.size in Hrec. cbn [StdVector.items StdVector.capacity] in Hrec.
    rewrite length_map in Hrec.
    set (frames := recordedFrames MAXN (map (observe a0) calls)) in *.
    destruct (offending MAXN
                (NodeTransformCache.getTransform (callCache c) (node a0)
                   (m_scaleFactor a0)) && (length frames <? 10)) eqn:Hcond.
    + destruct Hrec as [Hm Ht]. rewrite Hm, Ht.
      apply andb_prop in Hcond. destruct Hcond as [Hoff Hlt].
      unfold StdVector.emplace_back, StdVector.size.
      cbn [StdVector.items StdVector.capacity]. rewrite length_map, Hlt.
      rewrite !map_app. cbn [map fst snd observe].
      split; [reflexivity|].
      unfold largest. rewrite fold_left_app. reflexivity.
    + split; apply Hrec.
Qed.

(** ** Sampling succeeds *)

Lemma length_span3 v : length (span3 v) = 3.
Proof. destruct v as [[? ?] ?]. reflexivity. Qed.

Lemma length_span4 v : length (span4 v) = 4.
Proof. destruct v as [[[? ?] ?] ?]. reflexivity. Qed.

Lemma arrow_append_holds path d n values ptr :
  holds path d n ptr -> length values = d ->
  exists q, arrow (PropAnimation.append values) ptr = Some q.
Proof.
  intros [p [Hp [_ [Hd _]]]] Hv. subst ptr. unfold arrow, PropAnimation.append.
  cbn [bind]. rewrite Hv, Hd, Nat.eqb_refl. cbn [bind]. eexists. reflexivity.
Qed.

(** The members written before the buffers do not touch the buffers. *)
Lemma set_invalid_samplerInv n mx v a :
  samplerInv n a -> samplerInv n (set_invalid mx v a).
Proof. intros H. exact H. Qed.

Ltac simpl_set :=
  cbn [node m_mesh m_blendShapeCount m_weights
       m_positions m_rotations m_scales m_correctors m_dummyProps1 m_dummyProps2
       m_arguments set_positions set_rotations set_scales set_correctors
       set_dummyProps1 set_dummyProps2 set_weights].

Ltac simpl_set_in H :=
  cbn [node m_mesh m_blendShapeCount m_weights
       m_positions m_rotations m_scales m_correctors m_dummyProps1 m_dummyProps2
       m_arguments set_positions set_rotations set_scales set_correctors
       set_dummyProps1 set_dummyProps2 set_weights] in H.

Lemma sampleAt_succeeds MAXN n a h absoluteTime frameIndex cache :
  samplerInv n a ->
  (forall m, m_mesh a = Some m ->
             length (currentWeights h m) = m_blendShapeCount a) ->
  exists a', sampleAt MAXN a h absoluteTime frameIndex cache = Some a'.
Proof.
  intros Hinv Hweights. unfold sampleAt.
  set (st := NodeTransformCache.getTransform cache (node a) (m_scaleFactor a)).
  set (a1 := if Qltb MAXN (maxNonOrthogonality st)
                && (StdVector.size (m_invalidLocalTransformTimes a)
                    <? StdVector.capacity (m_invalidLocalTransformTimes a))
             then set_invalid
                    (std_max (m_maxNonOrthogonality a) (maxNonOrthogonality st))
                    (StdVector.emplace_back absoluteTime
                       (m_invalidLocalTransformTimes a)) a
             else a).
  assert (Hinv1 : samplerInv n a1).
  { subst a1. destruct (_ && _); [apply set_invalid_samplerInv|]; exact Hinv. }
  assert (Hmesh1 : m_mesh a1 = m_mesh a /\ m_blendShapeCount a1 = m_blendShapeCount a).
  { subst a1. destruct (_ && _); split; reflexivity. }
  destruct Hmesh1 as [Hmesh1 Hcount1].
  clearbody a1.
  destruct Hinv1 as (Hmesh & Hcount & HT & HR & HS & HC & HW).
  set (Q2 := fun a2 : NodeAnimation.t =>
              m_mesh a2 = m_mesh a /\ m_blendShapeCount a2 = m_blendShapeCount a /\
              m_weights a2 = m_weights a1).
  assert (Hstep :
    forall path d ptr values (k : option PropAnimation.t -> option NodeAnimation.t),
      holds path d n ptr -> length values = d ->
      (forall q, exists a', k q = Some a' /\ Q2 a') ->
      exists a', (p <- arrow (PropAnimation.append values) ptr ;; k p) = Some a'
                 /\ Q2 a').
  { intros path d ptr values k Hh Hv Hk.
    destruct (arrow_append_holds path d n values ptr Hh Hv) as [q Hq].
    rewrite Hq. cbn [bind]. apply Hk. }
  assert (Hlast :
    forall a2, Q2 a2 ->
      exists a',
        (if 0 <? m_blendShapeCount a2 then
           m <- m_mesh a2 ;;
           assert! (length (currentWeights h m) =? m_blendShapeCount a2) ;;
           p <- arrow (PropAnimation.append (currentWeights h m)) (m_weights a2) ;;
           Some (set_weights p a2)
         else Some a2) = Some a').
  { intros a2 (Hm2 & Hc2 & Hw2). destruct (0 <? m_blendShapeCount a2) eqn:Hpos.
    - apply Nat.ltb_lt in Hpos. rewrite Hc2, <- Hcount1 in Hpos.
      specialize (HW Hpos). rewrite Hm2.
      destruct (m_mesh a) as [m|] eqn:Hm.
      + cbn [bind]. rewrite Hc2, (Hweights m eq_refl), Nat.eqb_refl.
        rewrite Hw2. rewrite Hcount1 in HW.
        destruct (arrow_append_holds _ _ n (currentWeights h m) _ HW
                    (Hweights m eq_refl)) as [q Hq].
        rewrite Hq. cbn [bind]. eexists. reflexivity.
      + exfalso. rewrite Hmesh1 in Hmesh.
        rewrite <- Hmesh in Hcount. lia.
    - eexists. reflexivity. }
  assert (Hdone : forall a2, Q2 a2 -> exists a', Some a2 = Some a' /\ Q2 a').
  { intros a2 H2. exists a2. split; [reflexivity | exact H2]. }
  assert (Hmid : exists a2,
    match transformKind (node a1) with
    | Simple =>
        p <- arrow (PropAnimation.append (span3 (translation (primaryTRS st)))) (m_positions a1) ;;
        let a := set_positions p a1 in
        p <- arrow (PropAnimation.appendQuaternion (span4 (rotation (primaryTRS st)))) (m_rotations a) ;;
        let a := set_rotations p a in
        p <- arrow (PropAnimation.append (span3 (scale (primaryTRS st)))) (m_scales a) ;;
        Some (set_scales p a)
    | ComplexJoint =>
        p <- arrow (PropAnimation.append (span3 (translation (secondaryTRS st)))) (m_positions a1) ;;
        let a := set_positions p a1 in
        p <- arrow (PropAnimation.appendQuaternion (span4 (rotation (primaryTRS st)))) (m_rotations a) ;;
        let a := set_rotations p a in
        p <- arrow (PropAnimation.append (span3 (scale (primaryTRS st)))) (m_scales a) ;;
        let a := set_scales p a in
        p <- arrow (PropAnimation.append (span3 (scale (secondaryTRS st)))) (m_correctors a) ;;
        let a := set_correctors p a in
        if forceAnimationChannels (m_arguments a) then
          p <- arrow (PropAnimation.append (span3 (translation (primaryTRS st)))) (m_dummyProps1 a) ;;
          let a := set_dummyProps1 p a in
          p <- arrow (PropAnimation.appendQuaternion (span4 (rotation (secondaryTRS st)))) (m_dummyProps2 a) ;;
          Some (set_dummyProps2 p a)
        else Some a
    | ComplexTransform =>
        p <- arrow (PropAnimation.append (span3 (translation (secondaryTRS st)))) (m_positions a1) ;;
        let a := set_positions p a1 in
        p <- arrow (PropAnimation.appendQuaternion (span4 (rotation (secondaryTRS st)))) (m_rotations a) ;;
        let a := set_rotations p a in
        p <- arrow (PropAnimation.append (span3 (scale (secondaryTRS st)))) (m_scales a) ;;
        let a := set_scales p a in
        p <- arrow (PropAnimation.append (span3 (translation (primaryTRS st)))) (m_correctors a) ;;
        let a := set_correctors p a in
        if forceAnimationChannels (m_arguments a) then
          p <- arrow (PropAnimation.append (span3 (scale (primaryTRS st)))) (m_dummyProps1 a) ;;
          let a := set_dummyProps1 p a in
          p <- arrow (PropAnimation.appendQuaternion (span4 (rotation (primaryTRS st)))) (m_dummyProps2 a) ;;
          Some (set_dummyProps2 p a)
        else Some a
    end = Some a2 /\ Q2 a2).
  { cbv zeta.
    destruct (transformKind (node a1)) eqn:Hkind.
    - apply (Hstep _ 3 _ (span3 _) _ HT (length_span3 _)); intros q1.
      simpl_set.
      apply (Hstep _ 4 _ (span4 _) _ HR (length_span4 _)); intros q2.
      simpl_set.
      apply (Hstep _ 3 _ (span3 _) _ HS (length_span3 _)); intros q3.
      apply Hdone. subst Q2. cbn. auto.
    - cbn in HC. destruct HC as [HC1 HD].
      apply (Hstep _ 3 _ (span3 _) _ HT (length_span3 _)); intros q1.
      simpl_set.
      apply (Hstep _ 4 _ (span4 _) _ HR (length_span4 _)); intros q2.
      simpl_set.
      apply (Hstep _ 3 _ (span3 _) _ HS (length_span3 _)); intros q3.
      simpl_set.
      apply (Hstep _ 3 _ (span3 _) _ HC1 (length_span3 _)); intros q4.
      simpl_set.
      destruct (forceAnimationChannels (m_arguments a1)) eqn:Hfc.
      + destruct (HD eq_refl) as [HD1 HD2].
        apply (Hstep _ 3 _ (span3 _) _ HD1 (length_span3 _)); intros q5.
        simpl_set.
        apply (Hstep _ 4 _ (span4 _) _ HD2 (length_span4 _)); intros q6.
        apply Hdone. subst Q2. cbn. auto.
      + apply Hdone. subst Q2. cbn. auto.
    - cbn in HC. destruct HC as [HC1 HD].
      apply (Hstep _ 3 _ (span3 _) _ HT (length_span3 _)); intros q1.
      simpl_set.
      apply (Hstep _ 4 _ (span4 _) _ HR (length_span4 _)); intros q2.
      simpl_set.
      apply (Hstep _ 3 _ (span3 _) _ HS (length_span3 _)); intros q3.
      simpl_set.
      apply (Hstep _ 3 _ (span3 _) _ HC1 (length_span3 _)); intros q4.
      simpl_set.
      destruct (forceAnimationChannels (m_arguments a1)) eqn:Hfc.
      + destruct (HD eq_refl) as [HD1 HD2].
        apply (Hstep _ 3 _ (span3 _) _ HD1 (length_span3 _)); intros q5.
        simpl_set.
        apply (Hstep _ 4 _ (span4 _) _ HD2 (length_span4 _)); intros q6.
        apply Hdone. subst Q2. cbn. auto.
      + apply Hdone. subst Q2. cbn. auto. }
  destruct Hmid as [a2 [Hmid H2]]. cbv zeta in Hmid. rewrite Hmid. cbn [bind].
  apply Hlast. exact H2.
Qed.


(** ** Exporting a sampler whose buffers are in order *)

Lemma finish_holds path d n a g propName ptr thr baseValues :
  holds path d n ptr ->
  length baseValues = d ->
  finish a g propName ptr thr (getStepDetectSampleCount (m_arguments a)) baseValues
  = Some (finishOf n a g propName ptr thr baseValues).
Proof.
  intros [p [Hp [_ [Hd Hframes]]]] Hbase. subst ptr. unfold finishOf.
  apply finish_holdsFrames; [exact Hframes | congruence].
Qed.

Lemma exportKind_frame n a g :
  let r := exportKind n a g in
  sameNode a (fst r) /\ m_weights (fst r) = m_weights a /\
  m_maxNonOrthogonality (fst r) = m_maxNonOrthogonality a /\
  m_invalidLocalTransformTimes (fst r) = m_invalidLocalTransformTimes a.
Proof.
  unfold exportKind, sameNode. cbv zeta.
  destruct (transformKind (node a));
    repeat match goal with
           | |- context [finishOf ?n ?a ?g ?s ?p ?t ?b] =>
               destruct (finishOf n a g s p t b) as [? ?]; simpl_set
           end;
    try destruct (forceAnimationChannels (m_arguments a));
    repeat match goal with
           | |- context [finishOf ?n ?a ?g ?s ?p ?t ?b] =>
               destruct (finishOf n a g s p t b) as [? ?]; simpl_set
           end;
    cbn; auto 10.
Qed.

Ltac fin_step H Hlen :=
  rewrite (finish_holds _ _ _ _ _ _ _ _ _ H Hlen); cbn [bind];
  match goal with
  | |- context [finishOf ?n ?a ?g ?s ?p ?t ?b] =>
      destruct (finishOf n a g s p t b) as [? ?]
  end;
  simpl_set.

Lemma exportTo_spec prefix n a g :
  samplerInv n a ->
  (forall m, m_mesh a = Some m -> length (initialWeights m) = m_blendShapeCount a) ->
  exportTo prefix a g
  = Some (fst (exportWith n a g), snd (exportWith n a g), cerrOf prefix a).
Proof.
  intros (Hmesh & Hcount & HT & HR & HS & HC & HW) Hinit.
  unfold exportTo. cbv zeta. fold (cerrOf prefix a).
  match goal with
  | |- bind ?m _ = _ => assert (Hmid : m = Some (exportKind n a g))
  end.
  { unfold exportKind. cbv zeta.
    destruct (transformKind (node a)) eqn:Hkind.
    - fin_step HT (length_span3 (translation (primaryTRS (initialTransformState (node a))))).
      fin_step HR (length_span4 (rotation (primaryTRS (initialTransformState (node a))))).
      fin_step HS (length_span3 (scale (primaryTRS (initialTransformState (node a))))).
      reflexivity.
    - destruct HC as [HC1 HD].
      fin_step HT (length_span3 (translation (secondaryTRS (initialTransformState (node a))))).
      fin_step HR (length_span4 (rotation (primaryTRS (initialTransformState (node a))))).
      fin_step HS (length_span3 (scale (primaryTRS (initialTransformState (node a))))).
      fin_step HC1 (length_span3 (scale (secondaryTRS (initialTransformState (node a))))).
      destruct (forceAnimationChannels (m_arguments a)) eqn:Hfc; [|reflexivity].
      destruct (HD eq_refl) as [HD1 HD2].
      fin_step HD1 (length_span3 (translation (primaryTRS (initialTransformState (node a))))).
      fin_step HD2 (length_span4 (rotation (secondaryTRS (initialTransformState (node a))))).
      reflexivity.
    - destruct HC as [HC1 HD].
      fin_step HT (length_span3 (translation (secondaryTRS (initialTransformState (node a))))).
      fin_step HR (length_span4 (rotation (secondaryTRS (initialTransformState (node a))))).
      fin_step HS (length_span3 (scale (secondaryTRS (initialTransformState (node a))))).
      fin_step HC1 (length_span3 (translation (primaryTRS (initialTransformState (node a))))).
      destruct (forceAnimationChannels (m_arguments a)) eqn:Hfc; [|reflexivity].
      destruct (HD eq_refl) as [HD1 HD2].
      fin_step HD1 (length_span3 (scale (primaryTRS (initialTransformState (node a))))).
      fin_step HD2 (length_span4 (rotation (primaryTRS (initialTransformState (node a))))).
      reflexivity. }
  rewrite Hmid. cbn [bind]. unfold exportWith, weightsWith.
  pose proof (exportKind_frame n a g) as Hframe. cbv zeta in Hframe.
  destruct (exportKind n a g) as [a2 g2]. cbn [fst] in Hframe.
  destruct Hframe as ((_ & Hmesh2 & _ & Hcount2 & _) & Hweights2 & _).
  rewrite Hmesh2, Hcount2, Hweights2.
  destruct (0 <? m_blendShapeCount a) eqn:Hpos.
  - apply Nat.ltb_lt in Hpos. specialize (HW Hpos).
    destruct (m_mesh a) as [m|] eqn:Hm.
    + cbn [bind]. rewrite (Hinit m eq_refl), Nat.eqb_refl.
      rewrite (finish_holds _ _ _ _ _ _ _ _ _ HW (Hinit m eq_refl)). cbn [bind].
      destruct (finishOf n a g2 "W" (m_weights a)
                  (constantWeightsThreshold (m_arguments a)) (initialWeights m))
        as [g3 p3].
      reflexivity.
    + exfalso. rewrite <- Hmesh in Hcount. lia.
  - destruct (m_mesh a); reflexivity.
Qed.

(** The weights part appends at most one channel, on the weights path, and
    leaves the other buffers alone. *)
Lemma weightsWith_spec n a a2 g2 :
  (0 < m_blendShapeCount a2 ->
   holds GLTF.WEIGHTS (m_blendShapeCount a2) n (m_weights a2)) ->
  exists wch,
    GLTF.channels (snd (weightsWith n a a2 g2)) = GLTF.channels g2 ++ wch /\
    GLTF.name (snd (weightsWith n a a2 g2)) = GLTF.name g2 /\
    Forall (fun ch => GLTF.targetPath ch = GLTF.WEIGHTS) wch /\
    m_positions (fst (weightsWith n a a2 g2)) = m_positions a2 /\
    m_rotations (fst (weightsWith n a a2 g2)) = m_rotations a2 /\
    m_scales (fst (weightsWith n a a2 g2)) = m_scales a2 /\
    m_correctors (fst (weightsWith n a a2 g2)) = m_correctors a2 /\
    m_dummyProps1 (fst (weightsWith n a a2 g2)) = m_dummyProps1 a2 /\
    m_dummyProps2 (fst (weightsWith n a a2 g2)) = m_dummyProps2 a2.
Proof.
  intros HW. unfold weightsWith.
  assert (Hnone : exists wch : list GLTF.Channel,
            GLTF.channels g2 = GLTF.channels g2 ++ wch /\
            GLTF.name g2 = GLTF.name g2 /\
            Forall (fun ch => GLTF.targetPath ch = GLTF.WEIGHTS) wch)
    by (exists []; rewrite app_nil_r; auto).
  destruct (m_mesh a2) as [m|]; [|cbn; destruct Hnone as [w Hw]; exists w; tauto].
  destruct (0 <? m_blendShapeCount a2) eqn:Hpos;
    [|cbn; destruct Hnone as [w Hw]; exists w; tauto].
  apply Nat.ltb_lt in Hpos. destruct (HW Hpos) as [p [Hp [Hpath _]]].
  rewrite Hp. unfold finishOf, finishWith.
  destruct (_ && _ && _); [cbn; destruct Hnone as [w Hw]; exists w; tauto|].
  destruct (_ || _); [|cbn; destruct Hnone as [w Hw]; exists w; tauto].
  cbn. eexists [_]. repeat split; try reflexivity.
  constructor; [exact Hpath | constructor].
Qed.

(** With a threshold of 0 no sampled frame is within the threshold. *)
Lemma withinAt_zero baseValues componentValues offset index :
  withinAt baseValues componentValues 0 offset index = false.
Proof.
  unfold withinAt.
  destruct (nth_error baseValues index); [|reflexivity].
  destruct (nth_error componentValues (offset + index)); [|reflexivity].
  apply Qltb_abs_0.
Qed.

Lemma allWithin_zero baseValues p n :
  0 < PropAnimation.dimension p ->
  allWithin baseValues 0 p (S n) = false.
Proof.
  intros Hd. unfold allWithin. cbn [seq forallb].
  destruct (PropAnimation.dimension p) as [|d]; [lia|].
  cbn [seq forallb]. rewrite withinAt_zero. reflexivity.
Qed.

(** The record of offending frames has no part in the channels. *)
Ltac simpl_invalid :=
  cbn [node m_mesh m_blendShapeCount m_weights m_arguments
       m_positions m_rotations m_scales m_correctors m_dummyProps1 m_dummyProps2
       set_positions set_rotations set_scales set_correctors
       set_dummyProps1 set_dummyProps2 set_weights set_invalid fst snd].

Ltac fin_cases :=
  repeat (simpl_invalid;
          match goal with
          | |- context [finishOf ?n ?a ?g ?s ?p ?t ?b] =>
              destruct (finishOf n a g s p t b) as [? ?]
          end);
  simpl_invalid.

Lemma exportKind_set_invalid n mx v a g :
  exportKind n (set_invalid mx v a) g
  = (set_invalid mx v (fst (exportKind n a g)), snd (exportKind n a g)).
Proof.
  unfold exportKind. cbv zeta.
  change (finishOf n (set_invalid mx v a)) with (finishOf n a).
  simpl_invalid.
  destruct (transformKind (node a)); fin_cases;
    try (destruct (forceAnimationChannels (m_arguments a)); fin_cases);
    reflexivity.
Qed.

Lemma exportWith_set_invalid n mx v a g :
  exportWith n (set_invalid mx v a) g
  = (set_invalid mx v (fst (exportWith n a g)), snd (exportWith n a g)).
Proof.
  unfold exportWith. rewrite exportKind_set_invalid.
  destruct (exportKind n a g) as [a2 g2]. cbn [fst snd].
  unfold weightsWith.
  change (finishOf n (set_invalid mx v a)) with (finishOf n a).
  simpl_invalid.
  destruct (m_mesh a2); [|reflexivity].
  destruct (0 <? m_blendShapeCount a2); [|reflexivity].
  fin_cases. reflexivity.
Qed.

(** ** Exporting a [Simple] node *)

Lemma exportWith_Simple n a g :
  transformKind (node a) = Simple ->
  let rest := primaryTRS (initialTransformState (node a)) in
  let args := m_arguments a in
  exportWith n a g
  = let '(g1, p1) := finishOf n a g "T" (m_positions a)
                       (constantTranslationThreshold args) (span3 (translation rest)) in
    let '(g2, p2) := finishOf n a g1 "R" (m_rotations a)
                       (constantRotationThreshold args) (span4 (rotation rest)) in
    let '(g3, p3) := finishOf n a g2 "S" (m_scales a)
                       (constantScalingThreshold args) (span3 (scale rest)) in
    weightsWith n a (set_scales p3 (set_rotations p2 (set_positions p1 a))) g3.
Proof.
  intros Hkind. unfold exportWith, exportKind. cbv zeta. rewrite Hkind.
  fin_cases. reflexivity.
Qed.

(** [finishOf] on a buffer that is within the threshold. *)
Lemma finishOf_constant path d n a g propName ptr thr baseValues :
  holds path d n ptr ->
  length baseValues = d ->
  constantAt baseValues thr ptr ->
  exists p,
    ptr = Some p /\
    finishOf n a g propName ptr thr baseValues
    = finishWith true a g propName p (getStepDetectSampleCount (m_arguments a)).
Proof.
  intros [p [Hp [_ [Hd Hframes]]]] Hbase Hconst. exists p. split; [exact Hp|].
  subst ptr. unfold finishOf.
  assert (Hlen : length baseValues = PropAnimation.dimension p) by congruence.
  rewrite (proj2 (allWithin_iff baseValues thr p n Hframes Hlen) (Hconst p eq_refl)).
  reflexivity.
Qed.

Lemma finish_channel_single name p :
  singleKey (Some p) (PropAnimation.glChannel (PropAnimation.finish name true p)).
Proof. exists p. cbn. auto. Qed.

Lemma finish_channel_full name p :
  fullKeys (Some p) (PropAnimation.glChannel (PropAnimation.finish name false p)).
Proof. exists p. cbn. auto. Qed.

(** ** Sampling from the constructor on *)

Lemma sampleMany_make_recorded MAXN node0 frames scaleFactor arguments calls a :
  sampleMany MAXN (NodeAnimation.make node0 frames scaleFactor arguments) calls
  = Some a ->
  let a0 := NodeAnimation.make node0 frames scaleFactor arguments in
  let recorded := recordedFrames MAXN (map (observe a0) calls) in
  m_invalidLocalTransformTimes a = StdVector.mk (map fst recorded) 10 /\
  m_maxNonOrthogonality a
  = largest (map (fun f => maxNonOrthogonality (snd f)) recorded).
Proof.
  intros H.
  destruct (make_fresh node0 frames scaleFactor arguments) as (_ & _ & _ & Hmax & Htimes).
  exact (sampleMany_recorded MAXN _ calls Hmax Htimes a H).
Qed.

Lemma sampleMany_make_inv MAXN node0 frames scaleFactor arguments calls a :
  sampleMany MAXN (NodeAnimation.make node0 frames scaleFactor arguments) calls
  = Some a ->
  samplerInv (length calls) a /\ node a = node0 /\ m_arguments a = arguments /\
  m_scaleFactor a = scaleFactor.
Proof.
  intros H.
  destruct (make_fresh node0 frames scaleFactor arguments) as (Hn & Ha & Hs & _).
  pose proof (sampleMany_node MAXN calls _ a H) as (Hn' & _ & Hs' & _ & Ha').
  split; [|repeat split; congruence].
  exact (sampleMany_samplerInv MAXN calls 0 _ a
           (make_samplerInv node0 frames scaleFactor arguments) H).
Qed.

Lemma recordedFrames_nil MAXN history :
  recordedFrames MAXN history = []
  <-> ~ Exists (fun f => offending MAXN (snd f) = true) history.
Proof.
  unfold recordedFrames. rewrite Exists_exists.
  set (F := filter (fun f => offending MAXN (snd f)) history).
  split.
  - intros Hnil [f [Hin Hoff]].
    assert (HinF : In f F) by (apply filter_In; auto).
    destruct F as [|f0 F']; [exact HinF | discriminate Hnil].
  - intros Hnone. destruct F as [|f0 F'] eqn:HF; [reflexivity|].
    exfalso. apply Hnone. exists f0.
    assert (HinF : In f0 F) by (rewrite HF; left; reflexivity).
    apply filter_In in HinF. exact HinF.
Qed.

(** ** An empty scene *)

Lemma createAnimations_none items args frames scaleFactor :
  (forall item, In item items -> animatable (snd item) = false) ->
  ExportableClip.createAnimations items args frames scaleFactor = [].
Proof.
  induction items as [|item items IH]; intros Hnone; cbn; [reflexivity|].
  unfold ExportableClip.createAnimation.
  rewrite (Hnone item (or_introl eq_refl)). apply IH.
  intros item' Hin. apply Hnone. right. exact Hin.
Qed.

Lemma sampleFrames_no_samplers MAXN interval args clipArg frames frameCount :
  forall indices h ui,
    (forall i, In i indices -> i < length (ExportableFrames.times frames)) ->
    exists h' ui',
      ExportableClip.sampleFrames MAXN interval args clipArg frames frameCount
        indices ([], h, ui)
      = Some ([], h', ui').
Proof.
  induction indices as [|i indices IH]; intros h ui Hin; cbn [ExportableClip.sampleFrames].
  - eexists. eexists. reflexivity.
  - unfold ExportableClip.sampleFrame. rewrite Nat2Z.id.
    destruct (nth_error (ExportableFrames.times frames) i) as [t|] eqn:Ht.
    2:{ apply nth_error_None in Ht. specialize (Hin i (or_introl eq_refl)). lia. }
    cbn [bind ExportableClip.mapM]. apply IH.
    intros j Hj. apply Hin. right. exact Hj.
Qed.

(** ** The dummy buffers *)

Ltac grow_step Hgrow nm m Hm g' p' :=
  match goal with
  | |- context [finishOf ?n ?a ?g nm ?p ?t ?b] =>
      destruct (Hgrow g nm p t b) as [m Hm];
      destruct (finishOf n a g nm p t b) as [g' p'];
      simpl_set; cbn [fst] in Hm
  end.

Lemma exportKind_dummy n a g :
  transformKind (node a) <> Simple ->
  forceAnimationChannels (m_arguments a) = true ->
  exists a4 g4 name1 base1 base2,
    exportKind n a g
    = (let '(g5, q1) := finishOf n a g4 name1 (m_dummyProps1 a) 0 base1 in
       let '(g6, q2) := finishOf n a g5 "DR" (m_dummyProps2 a) 0 base2 in
       (set_dummyProps2 q2 (set_dummyProps1 q1 a4), g6)) /\
    (name1 = "DT"%string \/ name1 = "DS"%string) /\
    m_mesh a4 = m_mesh a /\ m_blendShapeCount a4 = m_blendShapeCount a /\
    m_weights a4 = m_weights a /\
    exists before, GLTF.channels g4 = GLTF.channels g ++ before.
Proof.
  intros Hkind Hfc. unfold exportKind. cbv zeta. rewrite Hfc.
  assert (Hgrow : forall g1 name ptr thr base,
            exists more,
              GLTF.channels (fst (finishOf n a g1 name ptr thr base))
              = GLTF.channels g1 ++ more).
  { intros g1 name ptr thr base. unfold finishOf, finishWith.
    destruct ptr as [p|]; [|exists []; cbn; rewrite app_nil_r; reflexivity].
    destruct (_ && _ && _); [exists []; cbn; rewrite app_nil_r; reflexivity|].
    destruct (_ || _); [|exists []; cbn; rewrite app_nil_r; reflexivity].
    eexists [_]. reflexivity. }
  destruct (transformKind (node a)); [congruence | |].
  - grow_step Hgrow "T"%string m1 Hm1 g1 p1.
    grow_step Hgrow "R"%string m2 Hm2 g2 p2.
    grow_step Hgrow "S"%string m3 Hm3 g3 p3.
    grow_step Hgrow "C"%string m4 Hm4 g4 p4.
    exists (set_correctors p4 (set_scales p3 (set_rotations p2 (set_positions p1 a)))),
           g4.
    do 3 eexists. split; [reflexivity|]. split; [auto|].
    split; [reflexivity|]. split; [reflexivity|]. split; [reflexivity|].
    exists (m1 ++ m2 ++ m3 ++ m4).
    rewrite Hm4, Hm3, Hm2, Hm1, <- !app_assoc. reflexivity.
  - grow_step Hgrow "T"%string m1 Hm1 g1 p1.
    grow_step Hgrow "R"%string m2 Hm2 g2 p2.
    grow_step Hgrow "S"%string m3 Hm3 g3 p3.
    grow_step Hgrow "C"%string m4 Hm4 g4 p4.
    exists (set_correctors p4 (set_scales p3 (set_rotations p2 (set_positions p1 a)))),
           g4.
    do 3 eexists. split; [reflexivity|]. split; [auto|].
    split; [reflexivity|]. split; [reflexivity|]. split; [reflexivity|].
    exists (m1 ++ m2 ++ m3 ++ m4).
    rewrite Hm4, Hm3, Hm2, Hm1, <- !app_assoc. reflexivity.
Qed.

(** * The claims about [finish] *)

(** C1 (as amended).  A buffer holding [n] sampled frames whose samples are
    not all within [constantThreshold] of [baseValues], or that is finished
    under [forceAnimationSampling], is emitted as a full keyframe track:
    exactly one channel is appended to the output animation, and it holds
    all the [n] sampled keyframes at the times of the frame grid, provided
    the step-detection sample count is at most 1. *)
Theorem finish_full_track a g propName p thr detect baseValues n :
  holdsFrames n p ->
  length baseValues = PropAnimation.dimension p ->
  ~ withinThreshold baseValues thr p
  \/ forceAnimationSampling (m_arguments a) = true ->
  (detect <= 1)%Z ->
  exists r ch,
    finish a g propName (Some p) thr detect baseValues = Some r /\
    FullTrack g p r /\
    GLTF.channels (fst r) = GLTF.channels g ++ [ch] /\
    length (GLTF.keyframeValues ch) = n * PropAnimation.dimension p.
Proof.
  intros Hp Hbase Hanim Hdetect.
  rewrite (finish_holdsFrames a g propName p thr detect baseValues n Hp Hbase).
  cut (FullTrack g p
         (finishWith (allWithin baseValues thr p n) a g propName p detect)).
  { intros Hfull. pose proof Hfull as [p' (Hr & _ & _ & _ & Hvalues)].
    exists (finishWith (allWithin baseValues thr p n) a g propName p detect),
           (PropAnimation.glChannel p').
    split; [reflexivity|]. split; [exact Hfull|]. rewrite Hr. cbn [fst].
    split; [reflexivity|]. rewrite Hvalues. apply Hp. }
  assert (Hsingle : allWithin baseValues thr p n
                    && negb (forceAnimationSampling (m_arguments a)) = false).
  { destruct Hanim as [Hnot | Hfs].
    - apply (allWithin_false_iff baseValues thr p n Hp Hbase) in Hnot.
      rewrite Hnot. reflexivity.
    - rewrite Hfs. apply andb_false_r. }
  pose proof (finishWith_emitted (allWithin baseValues thr p n) a g propName p detect)
    as Hemit.
  cbv zeta in Hemit. rewrite Hsingle in Hemit. apply Hemit.
  - reflexivity.
  - apply Z.leb_le. exact Hdetect.
Qed.

Lemma finish_full_track_witness :
  exists r ch,
    finish (ex_sampler false false 1) ex_animation "T" (Some ex_moving_buffer)
      (1 # 1000) 1 [0; 0; 0]%Q = Some r /\
    FullTrack ex_animation ex_moving_buffer r /\
    GLTF.channels (fst r) = GLTF.channels ex_animation ++ [ch] /\
    length (GLTF.keyframeValues ch) = 2 * 3.
Proof.
  apply (finish_full_track (ex_sampler false false 1) ex_animation "T"
           ex_moving_buffer (1 # 1000) 1 [0; 0; 0]%Q 2).
  - split; [cbn; lia | reflexivity].
  - reflexivity.
  - left.
    apply (allWithin_false_iff [0; 0; 0]%Q (1 # 1000) ex_moving_buffer 2).
    + split; [cbn; lia | reflexivity].
    + reflexivity.
    + vm_compute. reflexivity.
  - lia.
Defined.

(** C1 as stated fails: with a step-detection sample count of 2 the
    animated buffer is sent to the curve-simplification branch, which
    appends nothing. *)
Lemma finish_full_track_counterexample :
  holdsFrames 2 ex_moving_buffer /\
  ~ withinThreshold [0; 0; 0]%Q (1 # 1000) ex_moving_buffer /\
  finish (ex_sampler false false 2) ex_animation "T" (Some ex_moving_buffer)
    (1 # 1000) 2 [0; 0; 0]%Q
  = Some (ex_animation, Some ex_moving_buffer) /\
  ~ (exists r,
        finish (ex_sampler false false 2) ex_animation "T" (Some ex_moving_buffer)
          (1 # 1000) 2 [0; 0; 0]%Q = Some r /\
        FullTrack ex_animation ex_moving_buffer r).
Proof.
  assert (Hp : holdsFrames 2 ex_moving_buffer) by (split; [cbn; lia | reflexivity]).
  assert (Hrun :
    finish (ex_sampler false false 2) ex_animation "T" (Some ex_moving_buffer)
      (1 # 1000) 2 [0; 0; 0]%Q = Some (ex_animation, Some ex_moving_buffer))
    by (vm_compute; reflexivity).
  split; [exact Hp|]. split; [|split; [exact Hrun|]].
  - apply (allWithin_false_iff [0; 0; 0]%Q (1 # 1000) ex_moving_buffer 2 Hp);
      [reflexivity | vm_compute; reflexivity].
  - intros [r [Hr Hfull]]. rewrite Hrun in Hr. inversion Hr; subst r.
    exact (Emitted_not_unchanged _ _ _ _ _ Hfull).
Qed.

(** C3.  A buffer in which every sampled block is within
    [constantThreshold] of [baseValues], finished with neither
    [forceAnimationSampling] nor [forceAnimationChannels] set, is dropped:
    the buffer is released and the output animation is left as it was. *)
Theorem finish_constant_dropped a g propName p thr detect baseValues n :
  holdsFrames n p ->
  length baseValues = PropAnimation.dimension p ->
  withinThreshold baseValues thr p ->
  forceAnimationSampling (m_arguments a) = false ->
  forceAnimationChannels (m_arguments a) = false ->
  finish a g propName (Some p) thr detect baseValues = Some (g, None).
Proof.
  intros Hp Hbase Hconst Hfs Hfc.
  rewrite (finish_holdsFrames a g propName p thr detect baseValues n Hp Hbase).
  apply (allWithin_iff baseValues thr p n Hp Hbase) in Hconst.
  unfold finishWith. rewrite Hconst, Hfs, Hfc. reflexivity.
Qed.

Lemma finish_constant_dropped_witness :
  finish (ex_sampler false false 1) ex_animation "T" (Some ex_constant_buffer)
    (1 # 1000) 1 [0; 0; 0]%Q = Some (ex_animation, None).
Proof.
  apply (finish_constant_dropped (ex_sampler false false 1) ex_animation "T"
           ex_constant_buffer (1 # 1000) 1 [0; 0; 0]%Q 2).
  - split; [cbn; lia | reflexivity].
  - reflexivity.
  - apply (allWithin_iff [0; 0; 0]%Q (1 # 1000) ex_constant_buffer 2).
    + split; [cbn; lia | reflexivity].
    + reflexivity.
    + vm_compute. reflexivity.
  - reflexivity.
  - reflexivity.
Defined.

(** * The claims about a node's sampler *)

(** C2 (as amended).  For a [Simple] node whose sampled translation,
    rotation and scale are all within their thresholds of the rest pose,
    [exportTo] finishes the three buffers as follows: with neither
    [forceAnimationSampling] nor [forceAnimationChannels] each is dropped;
    with [forceAnimationChannels] alone each is emitted with a single
    keyframe; with [forceAnimationSampling] each is emitted as a full
    track (the step-detection sample count being at most 1).  [wch] is what
    the blend-shape weights add. *)
Theorem simple_constant_outcomes prefix n a g :
  samplerInv n a ->
  transformKind (node a) = Simple ->
  (forall m, m_mesh a = Some m -> length (initialWeights m) = m_blendShapeCount a) ->
  let rest := primaryTRS (initialTransformState (node a)) in
  let args := m_arguments a in
  constantAt (span3 (translation rest)) (constantTranslationThreshold args)
    (m_positions a) ->
  constantAt (span4 (rotation rest)) (constantRotationThreshold args)
    (m_rotations a) ->
  constantAt (span3 (scale rest)) (constantScalingThreshold args) (m_scales a) ->
  exists a' g' wch,
    exportTo prefix a g = Some (a', g', cerrOf prefix a) /\
    Forall (fun ch => GLTF.targetPath ch = GLTF.WEIGHTS) wch /\
    (forceAnimationSampling args = false -> forceAnimationChannels args = false ->
     GLTF.channels g' = GLTF.channels g ++ wch /\
     m_positions a' = None /\ m_rotations a' = None /\ m_scales a' = None) /\
    (forceAnimationSampling args = false -> forceAnimationChannels args = true ->
     exists cT cR cS,
       GLTF.channels g' = GLTF.channels g ++ [cT; cR; cS] ++ wch /\
       singleKey (m_positions a) cT /\ singleKey (m_rotations a) cR /\
       singleKey (m_scales a) cS) /\
    (forceAnimationSampling args = true ->
     (getStepDetectSampleCount args <= 1)%Z ->
     exists cT cR cS,
       GLTF.channels g' = GLTF.channels g ++ [cT; cR; cS] ++ wch /\
       fullKeys (m_positions a) cT /\ fullKeys (m_rotations a) cR /\
       fullKeys (m_scales a) cS).
Proof.
  intros Hinv Hkind Hinit rest args HcT HcR HcS.
  rewrite (exportTo_spec prefix n a g Hinv Hinit).
  destruct (exportWith n a g) as [a' g'] eqn:Hr. cbn [fst snd].
  rewrite (exportWith_Simple n a g Hkind) in Hr. cbv zeta in Hr. fold rest args in Hr.
  destruct Hinv as (_ & _ & HT & HR & HS & _ & HW).
  destruct (finishOf_constant _ _ n a g "T" _ _ _ HT (length_span3 _) HcT)
    as [pT [HpT HfT]].
  rewrite HfT in Hr. unfold finishWith in Hr. fold args in Hr.
  destruct (forceAnimationSampling args) eqn:Hfs,
           (forceAnimationChannels args) eqn:Hfc,
           (getStepDetectSampleCount args <=? 1)%Z eqn:Hdetect;
    cbn [andb orb negb] in Hr;
    match type of Hr with
    | context [finishOf n a ?g1 "R" _ _ _] =>
        destruct (finishOf_constant _ _ n a g1 "R" _ _ _ HR (length_span4 _) HcR)
          as [pR [HpR HfR]]
    end;
    rewrite HfR in Hr; unfold finishWith in Hr; fold args in Hr;
    rewrite Hfs, Hfc, ?Hdetect in Hr; cbn [andb orb negb] in Hr;
    match type of Hr with
    | context [finishOf n a ?g2 "S" _ _ _] =>
        destruct (finishOf_constant _ _ n a g2 "S" _ _ _ HS (length_span3 _) HcS)
          as [pS [HpS HfS]]
    end;
    rewrite HfS in Hr; unfold finishWith in Hr; fold args in Hr;
    rewrite Hfs, Hfc, ?Hdetect in Hr; cbn [andb orb negb] in Hr;
    match type of Hr with
    | weightsWith n a ?a2 ?g2 = _ =>
        destruct (weightsWith_spec n a a2 g2 HW)
          as (wch & Hch & _ & Hwch & HmT & HmR & HmS & _);
        rewrite Hr in Hch, HmT, HmR, HmS; cbn [fst snd] in Hch, HmT, HmR, HmS
    end;
    exists a', g', wch;
    (split; [reflexivity|]); (split; [exact Hwch|]);
    rewrite Hch, HmT, HmR, HmS, HpT, HpR, HpS;
    (split; [|split]); try (intros; discriminate);
    try (intros _ Hle; apply Z.leb_gt in Hdetect; lia);
    intros _ _; cbn.
  all: try (repeat split; reflexivity).
  all: do 3 eexists; rewrite <- !app_assoc; cbn [app];
    (split; [reflexivity|]);
    first [ repeat split; apply finish_channel_single
          | repeat split; apply finish_channel_full ].
Qed.

Lemma ex_sampled_samplerInv fs fc detect : samplerInv 2 (ex_sampled fs fc detect).
Proof.
  apply (sampleMany_samplerInv (1 # 100) (ex_calls 2) 0 (ex_sampler fs fc detect)).
  - apply make_samplerInv.
  - destruct fs, fc; vm_compute; reflexivity.
Qed.

Lemma simple_constant_outcomes_witness :
  exists a' g' wch,
    exportTo "" (ex_sampled false false 1) ex_animation
    = Some (a', g', cerrOf "" (ex_sampled false false 1)) /\
    Forall (fun ch => GLTF.targetPath ch = GLTF.WEIGHTS) wch /\
    (false = false -> false = false ->
     GLTF.channels g' = GLTF.channels ex_animation ++ wch /\
     m_positions a' = None /\ m_rotations a' = None /\ m_scales a' = None) /\
    (false = false -> false = true ->
     exists cT cR cS,
       GLTF.channels g' = GLTF.channels ex_animation ++ [cT; cR; cS] ++ wch /\
       singleKey (m_positions (ex_sampled false false 1)) cT /\
       singleKey (m_rotations (ex_sampled false false 1)) cR /\
       singleKey (m_scales (ex_sampled false false 1)) cS) /\
    (false = true -> (1 <= 1)%Z ->
     exists cT cR cS,
       GLTF.channels g' = GLTF.channels ex_animation ++ [cT; cR; cS] ++ wch /\
       fullKeys (m_positions (ex_sampled false false 1)) cT /\
       fullKeys (m_rotations (ex_sampled false false 1)) cR /\
       fullKeys (m_scales (ex_sampled false false 1)) cS).
Proof.
  apply (simple_constant_outcomes "" 2 (ex_sampled false false 1) ex_animation).
  - apply ex_sampled_samplerInv.
  - reflexivity.
  - intros m Hm. vm_compute in Hm. discriminate Hm.
  - intros p Hp. vm_compute in Hp. inversion Hp; subst p.
    apply (allWithin_iff _ _ _ 2); [split; [cbn; lia | reflexivity] | reflexivity |].
    vm_compute. reflexivity.
  - intros p Hp. vm_compute in Hp. inversion Hp; subst p.
    apply (allWithin_iff _ _ _ 2); [split; [cbn; lia | reflexivity] | reflexivity |].
    vm_compute. reflexivity.
  - intros p Hp. vm_compute in Hp. inversion Hp; subst p.
    apply (allWithin_iff _ _ _ 2); [split; [cbn; lia | reflexivity] | reflexivity |].
    vm_compute. reflexivity.
Defined.

(** C2 as stated fails: under [forceAnimationSampling] the three buffers of
    a still [Simple] node are emitted with both sampled keyframes, not with
    a single one. *)
Lemma simple_constant_counterexample :
  constantAt [0; 0; 0]%Q (1 # 1000) (m_positions (ex_sampled true false 1)) /\
  constantAt [0; 0; 0; 1]%Q (1 # 1000) (m_rotations (ex_sampled true false 1)) /\
  constantAt [1; 1; 1]%Q (1 # 1000) (m_scales (ex_sampled true false 1)) /\
  exists a' g',
    exportTo "" (ex_sampled true false 1) ex_animation = Some (a', g', []) /\
    map GLTF.targetPath (GLTF.channels g')
    = [GLTF.TRANSLATION; GLTF.ROTATION; GLTF.SCALE] /\
    map GLTF.keyframeTimes (GLTF.channels g')
    = [[0; 1 # 24]; [0; 1 # 24]; [0; 1 # 24]]%Q /\
    ~ (exists ch, In ch (GLTF.channels g') /\
                  singleKey (m_positions (ex_sampled true false 1)) ch).
Proof.
  assert (Hconst : forall base ptr p,
            ptr = Some p -> holdsFrames 2 p ->
            length base = PropAnimation.dimension p ->
            allWithin base (1 # 1000) p 2 = true ->
            constantAt base (1 # 1000) ptr).
  { intros base ptr p Hp Hframes Hlen Hall q Hq. rewrite Hp in Hq.
    inversion Hq; subst q. apply (allWithin_iff base _ p 2); assumption. }
  split; [|split; [|split]].
  - eapply Hconst; [vm_compute; reflexivity | split; [cbn; lia | reflexivity]
                   | reflexivity | vm_compute; reflexivity].
  - eapply Hconst; [vm_compute; reflexivity | split; [cbn; lia | reflexivity]
                   | reflexivity | vm_compute; reflexivity].
  - eapply Hconst; [vm_compute; reflexivity | split; [cbn; lia | reflexivity]
                   | reflexivity | vm_compute; reflexivity].
  - eexists. eexists. split; [vm_compute; reflexivity|].
    split; [reflexivity|]. split; [reflexivity|].
    intros [ch [Hin (p & _ & _ & _ & Htimes & _)]].
    cbn in Hin. destruct Hin as [<- | [<- | [<- | []]]]; discriminate Htimes.
Qed.

(** C6.  The constructor builds exactly the buffers of the decomposition-kind
    table: a [Simple] node gets 3 (translation, rotation, scale), a
    [ComplexJoint] node under [forceAnimationChannels] gets 6 (translation,
    rotation, scale, the corrector scale and the two dummies), each kind the
    row [expectedBuffers] lists, plus one weights buffer exactly when the
    node's mesh has at least one morph target. *)
Theorem constructor_buffers node0 frames scaleFactor arguments :
  let a := NodeAnimation.make node0 frames scaleFactor arguments in
  let weights := if 0 <? morphTargets node0 then 1 else 0 in
  map (fun p => (PropAnimation.glNode p, PropAnimation.path p,
                 PropAnimation.dimension p)) (buffers a)
  = expectedBuffers (transformKind node0) (forceAnimationChannels arguments)
      (glPrimaryNode node0) (glSecondaryNode node0) (morphTargets node0) /\
  (transformKind node0 = Simple -> length (buffers a) = 3 + weights) /\
  (transformKind node0 = ComplexJoint ->
   forceAnimationChannels arguments = true -> length (buffers a) = 6 + weights) /\
  (m_weights a <> None <-> 1 <= morphTargets node0).
Proof.
  unfold NodeAnimation.make, morphTargets, expectedBuffers, buffers.
  destruct (transformKind node0), (forceAnimationChannels arguments);
    destruct (0 <? match mesh node0 with Some m => blendShapeCount m | None => 0 end)
      eqn:Hcount;
    cbn; (split; [reflexivity|]); (split; [intros; congruence|]);
    (split; [intros; congruence|]);
    first [ apply Nat.ltb_lt in Hcount | apply Nat.ltb_ge in Hcount ];
    (split; [intros; try lia; congruence | intros; try lia; congruence]).
Qed.

(** C5 (as amended).  Sampling a [ComplexTransform] node reads translation,
    rotation and scale all from the secondary TRS, and the corrector from
    the primary TRS's translation; sampling a [ComplexJoint] node reads
    translation from the secondary TRS, rotation and scale from the primary
    one, and the corrector from the secondary TRS's scale.  So against
    [ComplexJoint] only rotation and scale change sides, and the corrector
    carries a translation instead of a scale. *)
Theorem complex_routing MAXN n a h absoluteTime frameIndex cache :
  samplerInv n a ->
  (forall m, m_mesh a = Some m ->
             length (currentWeights h m) = m_blendShapeCount a) ->
  let st := NodeTransformCache.getTransform cache (node a) (m_scaleFactor a) in
  let pTRS := primaryTRS st in
  let sTRS := secondaryTRS st in
  exists a',
    sampleAt MAXN a h absoluteTime frameIndex cache = Some a' /\
    (transformKind (node a) = ComplexTransform ->
     appended (span3 (translation sTRS)) (m_positions a) (m_positions a') /\
     appended (span4 (rotation sTRS)) (m_rotations a) (m_rotations a') /\
     appended (span3 (scale sTRS)) (m_scales a) (m_scales a') /\
     appended (span3 (translation pTRS)) (m_correctors a) (m_correctors a') /\
     holds GLTF.TRANSLATION 3 (S n) (m_correctors a')) /\
    (transformKind (node a) = ComplexJoint ->
     appended (span3 (translation sTRS)) (m_positions a) (m_positions a') /\
     appended (span4 (rotation pTRS)) (m_rotations a) (m_rotations a') /\
     appended (span3 (scale pTRS)) (m_scales a) (m_scales a') /\
     appended (span3 (scale sTRS)) (m_correctors a) (m_correctors a') /\
     holds GLTF.SCALE 3 (S n) (m_correctors a')).
Proof.
  intros Hinv Hweights st pTRS sTRS.
  destruct (sampleAt_succeeds MAXN n a h absoluteTime frameIndex cache Hinv Hweights)
    as [a' Hstep].
  exists a'. split; [exact Hstep|].
  pose proof (sampleAt_samplerInv MAXN n a h absoluteTime frameIndex cache a' Hinv Hstep)
    as (_ & _ & _ & _ & _ & HC' & _).
  pose proof (sampleAt_inv MAXN a h absoluteTime frameIndex cache a' Hstep) as Hinv'.
  cbv zeta in Hinv'. destruct Hinv' as ((Hnode & _) & _ & Hroute & _).
  fold st in Hroute. unfold routed in Hroute. fold pTRS sTRS in Hroute.
  rewrite Hnode in HC'.
  split; intros Hkind; rewrite Hkind in Hroute, HC';
    destruct Hroute as (RT & RR & RS & RC & _); destruct HC' as [HC' _]; auto.
Qed.

Lemma complex_routing_witness :
  let a := NodeAnimation.make (ex_split ComplexTransform) ex_frames 1
             (ex_args false false 1) in
  exists a',
    sampleAt (1 # 100) a (mkHost 0%Q) 0%Q 0%Z (NodeTransformCache.mk (mkHost 0%Q)) = Some a' /\
    (ComplexTransform = ComplexTransform ->
     appended (span3 (translation ex_posed)) (m_positions a) (m_positions a') /\
     appended (span4 (rotation ex_posed)) (m_rotations a) (m_rotations a') /\
     appended (span3 (scale ex_posed)) (m_scales a) (m_scales a') /\
     appended (span3 (translation ex_identity)) (m_correctors a) (m_correctors a') /\
     holds GLTF.TRANSLATION 3 1 (m_correctors a')) /\
    (ComplexTransform = ComplexJoint ->
     appended (span3 (translation ex_posed)) (m_positions a) (m_positions a') /\
     appended (span4 (rotation ex_identity)) (m_rotations a) (m_rotations a') /\
     appended (span3 (scale ex_identity)) (m_scales a) (m_scales a') /\
     appended (span3 (scale ex_posed)) (m_correctors a) (m_correctors a') /\
     holds GLTF.SCALE 3 1 (m_correctors a')).
Proof.
  apply (complex_routing (1 # 100) 0
           (NodeAnimation.make (ex_split ComplexTransform) ex_frames 1
              (ex_args false false 1))
           (mkHost 0%Q) 0%Q 0%Z (NodeTransformCache.mk (mkHost 0%Q))).
  - apply make_samplerInv.
  - intros m Hm. vm_compute in Hm. discriminate Hm.
Defined.

(** C5 as stated fails: on a [ComplexTransform] node whose secondary TRS is
    posed while the primary one is the identity, translation, rotation and
    scale are all read from the secondary TRS; no assignment of the two
    TRS gives translation one side and rotation and scale the other. *)
Lemma complex_transform_counterexample :
  let a := NodeAnimation.make (ex_split ComplexTransform) ex_frames 1
             (ex_args false false 1) in
  let st := mkState ex_identity ex_posed 0 in
  exists a',
    sampleAt (1 # 100) a (mkHost 0%Q) 0%Q 0%Z (NodeTransformCache.mk (mkHost 0%Q)) = Some a' /\
    appended (span3 (translation (secondaryTRS st))) (m_positions a) (m_positions a') /\
    appended (span4 (rotation (secondaryTRS st))) (m_rotations a) (m_rotations a') /\
    appended (span3 (scale (secondaryTRS st))) (m_scales a) (m_scales a') /\
    ~ oppositeRouting a a' st.
Proof.
  cbv zeta. eexists. split; [vm_compute; reflexivity|].
  assert (Happ : forall values p,
            length values = PropAnimation.dimension p ->
            appended values (Some p)
              (Some (PropAnimation.mk (PropAnimation.frames p) (PropAnimation.glNode p)
                       (PropAnimation.path p) (PropAnimation.dimension p)
                       (PropAnimation.useFloatArray p)
                       (PropAnimation.componentValuesPerFrame p ++ values)
                       (PropAnimation.glChannel p))))
    by (intros values p Hlen; exists p; auto).
  split; [apply (Happ (span3 (1, 2, 3)%Q)); reflexivity|].
  split; [apply (Happ (span4 (1, 0, 0, 0)%Q)); reflexivity|].
  split; [apply (Happ (span3 (2, 2, 2)%Q)); reflexivity|].
  intros (one & other & [[-> ->] | [-> ->]] & HT & HR & HS).
  - destruct HT as (p & Hp & _ & Hp'). vm_compute in Hp, Hp'.
    inversion Hp; subst p. discriminate Hp'.
  - destruct HR as (p & Hp & _ & Hp'). vm_compute in Hp, Hp'.
    inversion Hp; subst p. discriminate Hp'.
Qed.

(** C8.  However many frames are sampled, and however many of them exceed
    the tolerance, the list of offending timestamps keeps the capacity the
    constructor reserved (10) and never holds more than that: it holds the
    times of the first ten offending frames, and once it is full a further
    [sampleAt] leaves it as it is. *)
Theorem offending_times_bounded MAXN node0 frames scaleFactor arguments calls a :
  sampleMany MAXN (NodeAnimation.make node0 frames scaleFactor arguments) calls
  = Some a ->
  let a0 := NodeAnimation.make node0 frames scaleFactor arguments in
  let times := m_invalidLocalTransformTimes a in
  StdVector.capacity times = StdVector.capacity (m_invalidLocalTransformTimes a0) /\
  StdVector.capacity times = 10 /\
  StdVector.size times <= 10 /\
  StdVector.items times
  = map fst (firstn 10 (filter (fun f => offending MAXN (snd f))
                               (map (observe a0) calls))) /\
  (forall h absoluteTime frameIndex cache a',
     StdVector.size times = 10 ->
     sampleAt MAXN a h absoluteTime frameIndex cache = Some a' ->
     m_invalidLocalTransformTimes a' = times).
Proof.
  intros H a0 times.
  destruct (sampleMany_make_recorded MAXN node0 frames scaleFactor arguments calls a H)
    as [Htimes _].
  cbv zeta in Htimes. fold a0 in Htimes. subst times.
  destruct (make_fresh node0 frames scaleFactor arguments) as (_ & _ & _ & _ & H0).
  fold a0 in H0. rewrite H0, Htimes. unfold StdVector.size.
  cbn [StdVector.capacity StdVector.items].
  split; [reflexivity|]. split; [reflexivity|].
  split; [rewrite length_map; apply recordedFrames_length|].
  split; [reflexivity|].
  intros h absoluteTime frameIndex cache a' Hfull Hstep.
  apply sampleAt_inv in Hstep. cbv zeta in Hstep. destruct Hstep as (_ & Hrec & _).
  unfold recorded in Hrec. rewrite Htimes in Hrec. unfold StdVector.size in Hrec.
  cbn [StdVector.capacity StdVector.items] in Hrec. rewrite Hfull in Hrec.
  cbn [Nat.ltb Nat.leb] in Hrec. rewrite andb_false_r in Hrec.
  apply Hrec.
Qed.

Lemma offending_times_bounded_witness :
  let a0 := NodeAnimation.make ex_sheared ex_frames 1 (ex_args false false 1) in
  let times := m_invalidLocalTransformTimes (ex_sheared_sampled 12) in
  StdVector.capacity times = StdVector.capacity (m_invalidLocalTransformTimes a0) /\
  StdVector.capacity times = 10 /\
  StdVector.size times <= 10 /\
  StdVector.items times
  = map fst (firstn 10 (filter (fun f => offending (1 # 100) (snd f))
                               (map (observe a0) (ex_calls 12)))) /\
  (forall h absoluteTime frameIndex cache a',
     StdVector.size times = 10 ->
     sampleAt (1 # 100) (ex_sheared_sampled 12) h absoluteTime frameIndex cache
     = Some a' ->
     m_invalidLocalTransformTimes a' = times).
Proof.
  apply (offending_times_bounded (1 # 100) ex_sheared ex_frames 1
           (ex_args false false 1) (ex_calls 12) (ex_sheared_sampled 12)).
  vm_compute. reflexivity.
Defined.

(** C4, at the failing input.  Eleven frames are sampled and every one of
    them exceeds the tolerance of 1%: the first ten deviate by 5%, the
    eleventh by 50%.  The largest deviation over the offending frames is
    50%, yet the sampler records 5%: the eleventh frame arrives when the
    list of timestamps is full, and the update of the worst deviation sits
    under the same test. *)
Lemma worst_deviation_after_eleven_frames :
  let a0 := NodeAnimation.make ex_sheared ex_frames 1 (ex_args false false 1) in
  let history := map (observe a0) (ex_calls 11) in
  exists a,
    sampleMany (1 # 100) a0 (ex_calls 11) = Some a /\
    Forall (fun f => offending (1 # 100) (snd f) = true) history /\
    largest (map (fun f => maxNonOrthogonality (snd f)) history) = (50 # 100)%Q /\
    m_maxNonOrthogonality a = (5 # 100)%Q /\
    StdVector.size (m_invalidLocalTransformTimes a) = 10.
Proof.
  cbv zeta. eexists. split; [vm_compute; reflexivity|].
  split; [repeat constructor|].
  split; [vm_compute; reflexivity|].
  split; reflexivity.
Qed.

(** What the sampler does record: the largest deviation among the first ten
    offending frames. *)
Lemma worst_deviation_recorded MAXN node0 frames scaleFactor arguments calls a :
  sampleMany MAXN (NodeAnimation.make node0 frames scaleFactor arguments) calls
  = Some a ->
  let a0 := NodeAnimation.make node0 frames scaleFactor arguments in
  m_maxNonOrthogonality a
  = largest (map (fun f => maxNonOrthogonality (snd f))
               (firstn 10 (filter (fun f => offending MAXN (snd f))
                                  (map (observe a0) calls)))).
Proof.
  intros H.
  exact (proj2 (sampleMany_make_recorded MAXN node0 frames scaleFactor arguments
                  calls a H)).
Qed.

(** C7, at the failing input.  A drifting node is sampled at the eleven
    frames of a clip, and every frame exceeds the tolerance of 1%: the first
    ten deviate by 5%, the eleventh by 50%.  [exportTo] prints one warning
    that names the node and the ten recorded timestamps, and the node's
    channels are still emitted: translation as a full track of eleven
    keyframes, rotation and scale dropped as constant.  But the percentage
    after [Largest deviation = ] is 5, where the worst deviation of the
    sampled frames is 50%: the eleventh frame arrived when the list of
    timestamps was full, and [sampleAt] updates the worst deviation under
    the same test. *)
Lemma export_warning_after_eleven_frames :
  let a0 := NodeAnimation.make ex_drifting ex_long_frames 1 (ex_args false false 1) in
  let history := map (observe a0) (ex_calls 11) in
  exists a a' g' cerr,
    sampleMany (1 # 100) a0 (ex_calls 11) = Some a /\
    Forall (fun f => offending (1 # 100) (snd f) = true) history /\
    largest (map (fun f => maxNonOrthogonality (snd f)) history) = (50 # 100)%Q /\
    exportTo "" a ex_animation = Some (a', g', cerr) /\
    cerr
    = [Text ""; Text "WARNING: node '"; Text "joint1";
       Text "' has animated transforms that are not representable by glTF! Skewing is not supported, use 3 nodes to simulate this. Largest deviation = ";
       Fixed2 ((5 # 100) * 100)%Q; Text "%"; Endl;
       Text ""; Text "The first invalid transforms were found at times: "]
      ++ flat_map (fun i => [Time (Z.of_nat i # 24)%Q; Text " "]) (seq 0 10)
      ++ [Endl] /\
    map (fun ch => (GLTF.channelName ch, GLTF.targetNode ch, GLTF.targetPath ch,
                    GLTF.keyframeTimes ch, GLTF.keyframeValues ch))
        (GLTF.channels g')
    = [("joint1/anim/walk/T"%string, glPrimaryNode ex_drifting, GLTF.TRANSLATION,
        ExportableFrames.times ex_long_frames,
        flat_map (fun i => [(Z.of_nat i # 24); 0; 0]%Q) (seq 0 11))] /\
    m_rotations a' = None /\ m_scales a' = None.
Proof.
  cbv zeta. eexists. eexists. eexists. eexists.
  split; [vm_compute; reflexivity|].
  split; [repeat constructor|].
  split; [vm_compute; reflexivity|].
  split; [vm_compute; reflexivity|].
  split; [vm_compute; reflexivity|].
  split; [vm_compute; reflexivity|].
  split; reflexivity.
Qed.

(** * The claim about [ExportableClip] *)

(** C9.  For clip arguments the frame grid accepts, baking over a scene
    none of whose nodes is animatable (an empty scene is one) succeeds: the
    clip carries the clip's name, no sampler and no output channel, and
    nothing is written to [cerr]. *)
Theorem empty_scene_clip MAXN prefix interval args clipArg scene h :
  (1 <= ExportableClip.frameCount clipArg)%Z ->
  (0 < ExportableClip.framesPerSecond clipArg)%Q ->
  (forall item, In item (ExportableClip.table scene) -> animatable (snd item) = false) ->
  exists clip effects,
    ExportableClip.make MAXN prefix interval args clipArg scene h
    = Some (clip, effects) /\
    GLTF.name (ExportableClip.glAnimation clip) = ExportableClip.clipName clipArg /\
    GLTF.channels (ExportableClip.glAnimation clip) = [] /\
    ExportableClip.m_nodeAnimations clip = [] /\
    ExportableClip.cerr effects = [].
Proof.
  intros Hcount Hrate Hnone. unfold ExportableClip.make, ExportableFrames.make.
  assert (Hc : (ExportableClip.frameCount clipArg <? 1)%Z = false)
    by (apply Z.ltb_ge; exact Hcount).
  assert (Hr : Qltb 0 (ExportableClip.framesPerSecond clipArg) = true)
    by (apply Qltb_lt; exact Hrate).
  rewrite Hc, Hr. cbn [orb negb bind ExportableFrames.count ExportableFrames.times].
  rewrite (createAnimations_none _ _ _ _ Hnone).
  match goal with
  | |- context [ExportableClip.sampleFrames ?mx ?iv ?ar ?cl ?fr ?fc ?ix ([], h, [])] =>
      destruct (sampleFrames_no_samplers mx iv ar cl fr fc ix h []) as (h' & ui' & Hs)
  end.
  { intros i Hi. apply in_seq in Hi. cbn [ExportableFrames.times].
    rewrite length_map, length_seq. lia. }
  rewrite Hs. cbn. eexists. eexists. split; [reflexivity|]. cbn. auto.
Qed.

Lemma empty_scene_clip_witness :
  exists clip effects,
    ExportableClip.make (1 # 100) "" 10 (ex_args false false 1)
      (ExportableClip.mkClipArg "walk" 0%Q 2 24)
      (ExportableClip.mkScene [("locator1"%string, ex_static)]) (mkHost 0%Q)
    = Some (clip, effects) /\
    GLTF.name (ExportableClip.glAnimation clip) = "walk"%string /\
    GLTF.channels (ExportableClip.glAnimation clip) = [] /\
    ExportableClip.m_nodeAnimations clip = [] /\
    ExportableClip.cerr effects = [].
Proof.
  apply (empty_scene_clip (1 # 100) "" 10 (ex_args false false 1)
           (ExportableClip.mkClipArg "walk" 0%Q 2 24)
           (ExportableClip.mkScene [("locator1"%string, ex_static)]) (mkHost 0%Q)).
  - cbn. lia.
  - reflexivity.
  - intros item Hin. destruct Hin as [<- | []]. reflexivity.
Defined.

(** * The claim about the dummy channels *)

(** C10.  The dummy buffers exist only under [forceAnimationChannels].  On
    a node that has them and that was sampled at least once, [exportTo]
    finishes them against a threshold of 0, which no sample is strictly
    below: they are never within the threshold, never released, and when
    the step-detection sample count is at most 1 each is emitted in full
    (otherwise each is left as it was, not emitted in any form). *)
Theorem dummy_channels_never_constant prefix n a g :
  samplerInv (S n) a ->
  transformKind (node a) <> Simple ->
  forceAnimationChannels (m_arguments a) = true ->
  (forall m, m_mesh a = Some m -> length (initialWeights m) = m_blendShapeCount a) ->
  let detect := getStepDetectSampleCount (m_arguments a) in
  exists a' g' p1 p2,
    exportTo prefix a g = Some (a', g', cerrOf prefix a) /\
    m_dummyProps1 a = Some p1 /\ m_dummyProps2 a = Some p2 /\
    (forall base, length base = PropAnimation.dimension p1 ->
                  ~ withinThreshold base 0 p1) /\
    (forall base, length base = PropAnimation.dimension p2 ->
                  ~ withinThreshold base 0 p2) /\
    m_dummyProps1 a' <> None /\ m_dummyProps2 a' <> None /\
    ((detect <= 1)%Z ->
     exists c1 c2 before wch,
       GLTF.channels g' = GLTF.channels g ++ before ++ [c1; c2] ++ wch /\
       fullKeys (Some p1) c1 /\ fullKeys (Some p2) c2) /\
    ((1 < detect)%Z ->
     m_dummyProps1 a' = Some p1 /\ m_dummyProps2 a' = Some p2) /\
    (forall node0 frames scaleFactor arguments,
       forceAnimationChannels arguments = false ->
       m_dummyProps1 (NodeAnimation.make node0 frames scaleFactor arguments) = None /\
       m_dummyProps2 (NodeAnimation.make node0 frames scaleFactor arguments) = None).
Proof.
  intros Hinv Hkind Hfc Hinit detect.
  rewrite (exportTo_spec prefix (S n) a g Hinv Hinit).
  destruct (exportWith (S n) a g) as [a' g'] eqn:Hr. cbn [fst snd].
  unfold exportWith in Hr.
  destruct (exportKind_dummy (S n) a g Hkind Hfc)
    as (a4 & g4 & name1 & base1 & base2 & Hk & _ & Hm4 & Hc4 & Hw4 & before & Hbefore).
  rewrite Hk in Hr. clear Hk.
  assert (Hd : exists p1 p2,
            m_dummyProps1 a = Some p1 /\ m_dummyProps2 a = Some p2 /\
            holdsFrames (S n) p1 /\ holdsFrames (S n) p2).
  { destruct Hinv as (_ & _ & _ & _ & _ & HC & _).
    destruct (transformKind (node a)); [congruence | |];
      destruct HC as [_ HD]; destruct (HD Hfc) as [(p1 & H1 & _ & _ & F1) (p2 & H2 & _ & _ & F2)];
      exists p1, p2; auto. }
  destruct Hd as (p1 & p2 & H1 & H2 & F1 & F2).
  assert (HW : 0 < m_blendShapeCount a ->
               holds GLTF.WEIGHTS (m_blendShapeCount a) (S n) (m_weights a))
    by apply Hinv.
  rewrite H1, H2 in Hr. unfold finishOf in Hr.
  rewrite (allWithin_zero base1 p1 n (proj1 F1)) in Hr.
  unfold finishWith at 1 in Hr. fold detect in Hr.
  cbn [andb orb] in Hr.
  exists a', g', p1, p2.
  split; [reflexivity|]. split; [exact H1|]. split; [exact H2|].
  split.
  { intros base Hlen. apply (allWithin_false_iff base 0 p1 (S n) F1 Hlen).
    apply allWithin_zero. apply F1. }
  split.
  { intros base Hlen. apply (allWithin_false_iff base 0 p2 (S n) F2 Hlen).
    apply allWithin_zero. apply F2. }
  assert (Hlast : forall node0 frames scaleFactor arguments,
            forceAnimationChannels arguments = false ->
            m_dummyProps1 (NodeAnimation.make node0 frames scaleFactor arguments) = None /\
            m_dummyProps2 (NodeAnimation.make node0 frames scaleFactor arguments) = None).
  { intros node0 frames scaleFactor arguments Hoff. unfold NodeAnimation.make.
    rewrite Hoff.
    destruct (transformKind node0),
      (0 <? match mesh node0 with Some m => blendShapeCount m | None => 0 end);
      cbn; auto. }
  destruct (detect <=? 1)%Z eqn:Hdetect;
    rewrite (allWithin_zero base2 p2 n (proj1 F2)) in Hr;
    unfold finishWith in Hr; fold detect in Hr; rewrite Hdetect in Hr;
    cbn [andb orb] in Hr;
    match type of Hr with
    | weightsWith _ a ?a2 ?g2 = _ =>
        destruct (weightsWith_spec (S n) a a2 g2)
          as (wch & Hch & _ & _ & _ & _ & _ & _ & HD1 & HD2);
        [ simpl_set; rewrite Hc4, Hw4; exact HW | ];
        rewrite Hr in Hch, HD1, HD2; cbn [fst snd] in Hch, HD1, HD2;
        simpl_set_in HD1; simpl_set_in HD2
    end;
    rewrite HD1, HD2;
    (split; [discriminate|]); (split; [discriminate|]);
    (split; [|split; [|exact Hlast]]).
  - intros _. eexists. eexists. exists before, wch.
    split; [|split; [apply finish_channel_full | apply finish_channel_full]].
    rewrite Hch. cbn [GLTF.push_back GLTF.channels]. rewrite Hbefore.
    rewrite <- !app_assoc. reflexivity.
  - intros Hlt. apply Z.leb_le in Hdetect. lia.
  - intros Hle. apply Z.leb_gt in Hdetect. lia.
  - intros _. auto.
Qed.

Lemma dummy_channels_never_constant_witness :
  let a := ex_joint_sampled 1 in
  exists a' g' p1 p2,
    exportTo "" a ex_animation = Some (a', g', cerrOf "" a) /\
    m_dummyProps1 a = Some p1 /\ m_dummyProps2 a = Some p2 /\
    (forall base, length base = PropAnimation.dimension p1 ->
                  ~ withinThreshold base 0 p1) /\
    (forall base, length base = PropAnimation.dimension p2 ->
                  ~ withinThreshold base 0 p2) /\
    m_dummyProps1 a' <> None /\ m_dummyProps2 a' <> None /\
    ((getStepDetectSampleCount (m_arguments a) <= 1)%Z ->
     exists c1 c2 before wch,
       GLTF.channels g' = GLTF.channels ex_animation ++ before ++ [c1; c2] ++ wch /\
       fullKeys (Some p1) c1 /\ fullKeys (Some p2) c2) /\
    ((1 < getStepDetectSampleCount (m_arguments a))%Z ->
     m_dummyProps1 a' = Some p1 /\ m_dummyProps2 a' = Some p2) /\
    (forall node0 frames scaleFactor arguments,
       forceAnimationChannels arguments = false ->
       m_dummyProps1 (NodeAnimation.make node0 frames scaleFactor arguments) = None /\
       m_dummyProps2 (NodeAnimation.make node0 frames scaleFactor arguments) = None).
Proof.
  apply (dummy_channels_never_constant "" 1 (ex_joint_sampled 1) ex_animation).
  - apply (sampleMany_samplerInv (1 # 100) (ex_calls 2) 0
             (NodeAnimation.make (ex_split ComplexJoint) ex_frames 1
                (ex_args false true 1))).
    + apply make_samplerInv.
    + vm_compute. reflexivity.
  - vm_compute. discriminate.
  - reflexivity.
  - intros m Hm. vm_compute in Hm. discriminate Hm.
Defined.

(** * Further properties of [finish] *)

Lemma Qltb_abs_nonpos (x thr : Q) : (thr <= 0)%Q -> Qltb (Qabs x) thr = false.
Proof.
  intros Hthr. apply Qltb_nlt. apply Qle_not_lt.
  apply Qle_trans with 0%Q; [exact Hthr | apply Qabs_nonneg].
Qed.

Lemma allWithin_nonpos baseValues thr p n :
  (thr <= 0)%Q -> 0 < PropAnimation.dimension p ->
  allWithin baseValues thr p (S n) = false.
Proof.
  intros Hthr Hd. unfold allWithin. cbn [seq forallb].
  destruct (PropAnimation.dimension p) as [|d]; [lia|].
  cbn [seq forallb]. unfold withinAt.
  destruct (nth_error baseValues 0); [|reflexivity].
  destruct (nth_error (PropAnimation.componentValuesPerFrame p) (0 * S d + 0));
    [|reflexivity].
  rewrite (Qltb_abs_nonpos _ thr Hthr). reflexivity.
Qed.

Lemma withinThreshold_le baseValues thr thr' p :
  (thr <= thr')%Q ->
  withinThreshold baseValues thr p -> withinThreshold baseValues thr' p.
Proof.
  intros Hle H frame index b v Hi Hb Hv.
  apply Qlt_le_trans with thr; [exact (H frame index b v Hi Hb Hv) | exact Hle].
Qed.

(** X1.  A buffer whose samples are all within the threshold, finished with
    [forceAnimationChannels] set and [forceAnimationSampling] clear, is
    emitted with a single keyframe, whatever the step-detection sample
    count: one channel is appended, at time 0, holding the first sampled
    block. *)
Theorem finish_single_keyframe a g propName p thr detect baseValues n :
  holdsFrames n p ->
  length baseValues = PropAnimation.dimension p ->
  withinThreshold baseValues thr p ->
  forceAnimationSampling (m_arguments a) = false ->
  forceAnimationChannels (m_arguments a) = true ->
  exists r,
    finish a g propName (Some p) thr detect baseValues = Some r /\
    SingleKeyframe g p r.
Proof.
  intros Hp Hbase Hconst Hfs Hfc.
  rewrite (finish_holdsFrames a g propName p thr detect baseValues n Hp Hbase).
  eexists. split; [reflexivity|].
  apply (allWithin_iff baseValues thr p n Hp Hbase) in Hconst. rewrite Hconst.
  pose proof (finishWith_emitted true a g propName p detect) as He.
  cbv zeta in He. rewrite Hfs, Hfc in He. apply He; reflexivity.
Qed.

Lemma finish_single_keyframe_witness :
  exists r,
    finish ex_forced ex_animation "T" (Some ex_constant_buffer)
      (1 # 1000) 5 [0; 0; 0]%Q = Some r /\
    SingleKeyframe ex_animation ex_constant_buffer r.
Proof.
  apply (finish_single_keyframe ex_forced ex_animation "T" ex_constant_buffer
           (1 # 1000) 5 [0; 0; 0]%Q 2).
  - split; [cbn; lia | reflexivity].
  - reflexivity.
  - apply (allWithin_iff [0; 0; 0]%Q (1 # 1000) ex_constant_buffer 2).
    + split; [cbn; lia | reflexivity].
    + reflexivity.
    + vm_compute. reflexivity.
  - reflexivity.
  - reflexivity.
Defined.

(** X2.  With a step-detection sample count above 1, a buffer that is not
    constant (or that is finished under [forceAnimationSampling]) takes the
    branch reserved for curve simplification: [finish] neither releases it
    nor appends a channel, the animation and the buffer are returned as
    they were. *)
Theorem finish_step_detection_keeps a g propName p thr detect baseValues n :
  holdsFrames n p ->
  length baseValues = PropAnimation.dimension p ->
  ~ withinThreshold baseValues thr p
  \/ forceAnimationSampling (m_arguments a) = true ->
  (1 < detect)%Z ->
  finish a g propName (Some p) thr detect baseValues = Some (g, Some p).
Proof.
  intros Hp Hbase Hanim Hdetect.
  rewrite (finish_holdsFrames a g propName p thr detect baseValues n Hp Hbase).
  unfold finishWith.
  assert (Hd : (detect <=? 1)%Z = false) by (apply Z.leb_gt; exact Hdetect).
  rewrite Hd. destruct Hanim as [Hnot | Hfs].
  - apply (allWithin_false_iff baseValues thr p n Hp Hbase) in Hnot.
    rewrite Hnot. reflexivity.
  - rewrite Hfs. rewrite !andb_false_r. reflexivity.
Qed.

Lemma finish_step_detection_keeps_witness :
  finish (ex_sampler false false 3) ex_animation "T" (Some ex_moving_buffer)
    (1 # 1000) 3 [0; 0; 0]%Q
  = Some (ex_animation, Some ex_moving_buffer).
Proof.
  apply (finish_step_detection_keeps (ex_sampler false false 3) ex_animation "T"
           ex_moving_buffer (1 # 1000) 3 [0; 0; 0]%Q 2).
  - split; [cbn; lia | reflexivity].
  - reflexivity.
  - left. apply (allWithin_false_iff [0; 0; 0]%Q (1 # 1000) ex_moving_buffer 2).
    + split; [cbn; lia | reflexivity].
    + reflexivity.
    + vm_compute. reflexivity.
  - lia.
Defined.

(** X3.  A buffer that was never sampled counts as constant for every
    threshold, 0 and negative ones included, since the loops of [finish]
    do not run: with neither flag set it is released and the animation is
    left as it is. *)
Theorem finish_never_sampled a g propName p thr detect baseValues :
  0 < PropAnimation.dimension p ->
  PropAnimation.componentValuesPerFrame p = [] ->
  length baseValues = PropAnimation.dimension p ->
  forceAnimationSampling (m_arguments a) = false ->
  forceAnimationChannels (m_arguments a) = false ->
  withinThreshold baseValues thr p /\
  finish a g propName (Some p) thr detect baseValues = Some (g, None).
Proof.
  intros Hd Hcv Hbase Hfs Hfc.
  assert (Hp : holdsFrames 0 p) by (split; [exact Hd | rewrite Hcv; reflexivity]).
  assert (Hconst : withinThreshold baseValues thr p)
    by (apply (allWithin_iff baseValues thr p 0 Hp Hbase); reflexivity).
  split; [exact Hconst|].
  rewrite (finish_holdsFrames a g propName p thr detect baseValues 0 Hp Hbase).
  change (allWithin baseValues thr p 0) with true.
  unfold finishWith. rewrite Hfs, Hfc. reflexivity.
Qed.

Lemma finish_never_sampled_witness :
  withinThreshold [0; 0; 0]%Q (- (1))%Q ex_empty_buffer /\
  finish (ex_sampler false false 1) ex_animation "T" (Some ex_empty_buffer)
    (- (1))%Q 1 [0; 0; 0]%Q = Some (ex_animation, None).
Proof.
  apply (finish_never_sampled (ex_sampler false false 1) ex_animation "T"
           ex_empty_buffer (- (1))%Q 1 [0; 0; 0]%Q).
  - cbn. lia.
  - reflexivity.
  - reflexivity.
  - reflexivity.
  - reflexivity.
Defined.

(** X4.  Against a threshold of 0 or below, a buffer with at least one
    sampled frame is never constant (the comparison is strict): [finish]
    never releases it, and emits it in full when the step-detection sample
    count is at most 1.  Setting a constant threshold to 0 thus switches
    the constant detection of that property off. *)
Theorem finish_nonpositive_threshold a g propName p thr detect baseValues n :
  holdsFrames (S n) p ->
  length baseValues = PropAnimation.dimension p ->
  (thr <= 0)%Q ->
  ~ withinThreshold baseValues thr p /\
  exists r,
    finish a g propName (Some p) thr detect baseValues = Some r /\
    snd r <> None /\
    ((detect <= 1)%Z -> FullTrack g p r).
Proof.
  intros Hp Hbase Hthr.
  pose proof (allWithin_nonpos baseValues thr p n Hthr (proj1 Hp)) as Hfalse.
  split; [apply (allWithin_false_iff baseValues thr p (S n) Hp Hbase); exact Hfalse|].
  rewrite (finish_holdsFrames a g propName p thr detect baseValues (S n) Hp Hbase).
  rewrite Hfalse. eexists. split; [reflexivity|]. split.
  - unfold finishWith. cbn [andb orb]. destruct (detect <=? 1)%Z; cbn; discriminate.
  - intros Hdetect.
    pose proof (finishWith_emitted false a g propName p detect) as He.
    cbv zeta in He. cbn [andb orb] in He. apply He; [reflexivity|].
    apply Z.leb_le. exact Hdetect.
Qed.

Lemma finish_nonpositive_threshold_witness :
  ~ withinThreshold [0; 0; 0]%Q (- (1 # 2)) ex_constant_buffer /\
  exists r,
    finish (ex_sampler false false 1) ex_animation "T" (Some ex_constant_buffer)
      (- (1 # 2)) 1 [0; 0; 0]%Q = Some r /\
    snd r <> None /\
    ((1 <= 1)%Z -> FullTrack ex_animation ex_constant_buffer r).
Proof.
  apply (finish_nonpositive_threshold (ex_sampler false false 1) ex_animation "T"
           ex_constant_buffer (- (1 # 2)) 1 [0; 0; 0]%Q 1).
  - split; [cbn; lia | reflexivity].
  - reflexivity.
  - discriminate.
Defined.

(** X5.  Dropping is monotone in the threshold: a buffer that [finish]
    drops against a threshold is also dropped against every larger one. *)
Theorem finish_dropped_monotone a g propName p thr thr' detect baseValues n :
  holdsFrames n p ->
  length baseValues = PropAnimation.dimension p ->
  (thr <= thr')%Q ->
  finish a g propName (Some p) thr detect baseValues = Some (g, None) ->
  finish a g propName (Some p) thr' detect baseValues = Some (g, None).
Proof.
  intros Hp Hbase Hle.
  rewrite !(finish_holdsFrames a g propName p _ detect baseValues n Hp Hbase).
  unfold finishWith.
  destruct (allWithin baseValues thr p n) eqn:Hall.
  - apply (allWithin_iff baseValues thr p n Hp Hbase) in Hall.
    apply (withinThreshold_le baseValues thr thr' p Hle) in Hall.
    apply (allWithin_iff baseValues thr' p n Hp Hbase) in Hall. rewrite Hall.
    destruct (forceAnimationSampling (m_arguments a)),
      (forceAnimationChannels (m_arguments a)), (detect <=? 1)%Z;
      cbn; intros H; try reflexivity; inversion H.
  - destruct (detect <=? 1)%Z; cbn; intros H; inversion H.
Qed.

Lemma finish_dropped_monotone_witness :
  finish (ex_sampler false false 1) ex_animation "T" (Some ex_constant_buffer)
    (1 # 10) 1 [0; 0; 0]%Q = Some (ex_animation, None).
Proof.
  apply (finish_dropped_monotone (ex_sampler false false 1) ex_animation "T"
           ex_constant_buffer (1 # 1000) (1 # 10) 1 [0; 0; 0]%Q 2).
  - split; [cbn; lia | reflexivity].
  - reflexivity.
  - discriminate.
  - vm_compute. reflexivity.
Defined.

(** * Further properties of [sampleAt] and [exportTo] *)

Ltac abort_sample H :=
  repeat first
    [ rewrite H; reflexivity
    | match goal with
      | |- context [arrow ?f ?ptr] =>
          destruct (arrow f ptr) as [?|] eqn:?; cbn [bind]; simpl_invalid;
          [|reflexivity]
      end ].

Ltac abort_export H :=
  repeat first
    [ rewrite H; reflexivity
    | match goal with
      | |- bind (finish ?a ?g ?s ?p ?t ?d ?b) _ = None =>
          destruct (finish a g s p t d b) as [[? ?]|]; cbn [bind]; simpl_invalid;
          [|reflexivity]
      | |- bind (bind (finish ?a ?g ?s ?p ?t ?d ?b) _) _ = None =>
          destruct (finish a g s p t d b) as [[? ?]|]; cbn [bind]; simpl_invalid;
          [|reflexivity]
      end ].

(** X6.  A sampler one of whose translation, rotation or scale buffers is
    null (as [finish] leaves a dropped buffer) can be neither exported nor
    sampled again: both [exportTo] and [sampleAt] dereference it and
    abort. *)
Theorem released_buffer_aborts MAXN prefix a :
  m_positions a = None \/ m_rotations a = None \/ m_scales a = None ->
  (forall g, exportTo prefix a g = None) /\
  (forall h absoluteTime frameIndex cache,
     sampleAt MAXN a h absoluteTime frameIndex cache = None).
Proof.
  intros Hnull. split.
  - intros g. unfold exportTo. cbv zeta.
    destruct (transformKind (node a));
      destruct Hnull as [H | [H | H]]; abort_export H.
  - intros h absoluteTime frameIndex cache. unfold sampleAt. cbv zeta.
    destruct (Qltb MAXN _ && _); simpl_invalid;
      destruct (transformKind (node a));
      destruct Hnull as [H | [H | H]]; abort_sample H.
Qed.

Lemma released_buffer_aborts_witness :
  (forall g, exportTo "" ex_exported g = None) /\
  (forall h absoluteTime frameIndex cache,
     sampleAt (1 # 100) ex_exported h absoluteTime frameIndex cache = None).
Proof.
  apply (released_buffer_aborts (1 # 100) "" ex_exported).
  left. vm_compute. reflexivity.
Defined.

(** X7.  Sampling a [Simple] node appends the primary TRS's translation,
    rotation and scale to the three buffers and leaves the corrector and
    dummy pointers as they were; the secondary TRS is not read. *)
Theorem simple_routing MAXN n a h absoluteTime frameIndex cache :
  samplerInv n a ->
  transformKind (node a) = Simple ->
  (forall m, m_mesh a = Some m ->
             length (currentWeights h m) = m_blendShapeCount a) ->
  let pTRS :=
    primaryTRS (NodeTransformCache.getTransform cache (node a) (m_scaleFactor a)) in
  exists a',
    sampleAt MAXN a h absoluteTime frameIndex cache = Some a' /\
    appended (span3 (translation pTRS)) (m_positions a) (m_positions a') /\
    appended (span4 (rotation pTRS)) (m_rotations a) (m_rotations a') /\
    appended (span3 (scale pTRS)) (m_scales a) (m_scales a') /\
    m_correctors a' = m_correctors a /\
    m_dummyProps1 a' = m_dummyProps1 a /\
    m_dummyProps2 a' = m_dummyProps2 a.
Proof.
  intros Hinv Hkind Hweights pTRS.
  destruct (sampleAt_succeeds MAXN n a h absoluteTime frameIndex cache Hinv Hweights)
    as [a' Hstep].
  exists a'. split; [exact Hstep|].
  pose proof (sampleAt_inv MAXN a h absoluteTime frameIndex cache a' Hstep) as Hinv'.
  cbv zeta in Hinv'. destruct Hinv' as (_ & _ & Hroute & _).
  unfold routed in Hroute. rewrite Hkind in Hroute. exact Hroute.
Qed.

Lemma simple_routing_witness :
  let a := NodeAnimation.make (ex_split Simple) ex_frames 1 (ex_args false false 1) in
  exists a',
    sampleAt (1 # 100) a (mkHost 0%Q) 0%Q 0%Z (NodeTransformCache.mk (mkHost 0%Q))
    = Some a' /\
    appended (span3 (translation ex_identity)) (m_positions a) (m_positions a') /\
    appended (span4 (rotation ex_identity)) (m_rotations a) (m_rotations a') /\
    appended (span3 (scale ex_identity)) (m_scales a) (m_scales a') /\
    m_correctors a' = m_correctors a /\
    m_dummyProps1 a' = m_dummyProps1 a /\
    m_dummyProps2 a' = m_dummyProps2 a.
Proof.
  apply (simple_routing (1 # 100) 0
           (NodeAnimation.make (ex_split Simple) ex_frames 1 (ex_args false false 1))
           (mkHost 0%Q) 0%Q 0%Z (NodeTransformCache.mk (mkHost 0%Q))).
  - apply make_samplerInv.
  - reflexivity.
  - intros m Hm. vm_compute in Hm. discriminate Hm.
Defined.

(** X8.  The dummy buffers are fed only under [forceAnimationChannels]: a
    [ComplexJoint] node then appends the primary TRS's translation and the
    secondary TRS's rotation, a [ComplexTransform] node the primary TRS's
    scale and rotation; without the flag [sampleAt] leaves both pointers
    as they were. *)
Theorem dummy_routing MAXN n a h absoluteTime frameIndex cache :
  samplerInv n a ->
  transformKind (node a) <> Simple ->
  (forall m, m_mesh a = Some m ->
             length (currentWeights h m) = m_blendShapeCount a) ->
  let st := NodeTransformCache.getTransform cache (node a) (m_scaleFactor a) in
  let pTRS := primaryTRS st in
  let sTRS := secondaryTRS st in
  exists a',
    sampleAt MAXN a h absoluteTime frameIndex cache = Some a' /\
    (forceAnimationChannels (m_arguments a) = false ->
     m_dummyProps1 a' = m_dummyProps1 a /\ m_dummyProps2 a' = m_dummyProps2 a) /\
    (forceAnimationChannels (m_arguments a) = true ->
     transformKind (node a) = ComplexJoint ->
     appended (span3 (translation pTRS)) (m_dummyProps1 a) (m_dummyProps1 a') /\
     appended (span4 (rotation sTRS)) (m_dummyProps2 a) (m_dummyProps2 a')) /\
    (forceAnimationChannels (m_arguments a) = true ->
     transformKind (node a) = ComplexTransform ->
     appended (span3 (scale pTRS)) (m_dummyProps1 a) (m_dummyProps1 a') /\
     appended (span4 (rotation pTRS)) (m_dummyProps2 a) (m_dummyProps2 a')).
Proof.
  intros Hinv Hkind Hweights st pTRS sTRS.
  destruct (sampleAt_succeeds MAXN n a h absoluteTime frameIndex cache Hinv Hweights)
    as [a' Hstep].
  exists a'. split; [exact Hstep|].
  pose proof (sampleAt_inv MAXN a h absoluteTime frameIndex cache a' Hstep) as Hinv'.
  cbv zeta in Hinv'. destruct Hinv' as (_ & _ & Hroute & _).
  fold st in Hroute. unfold routed in Hroute. fold pTRS sTRS in Hroute.
  destruct (transformKind (node a)); [congruence | |];
    destruct Hroute as (_ & _ & _ & _ & HD);
    destruct (forceAnimationChannels (m_arguments a));
    repeat split; intros; try congruence; try apply HD.
Qed.

Lemma dummy_routing_witness :
  let a := NodeAnimation.make (ex_split ComplexJoint) ex_frames 1
             (ex_args false true 1) in
  exists a',
    sampleAt (1 # 100) a (mkHost 0%Q) 0%Q 0%Z (NodeTransformCache.mk (mkHost 0%Q))
    = Some a' /\
    (true = false ->
     m_dummyProps1 a' = m_dummyProps1 a /\ m_dummyProps2 a' = m_dummyProps2 a) /\
    (true = true -> ComplexJoint = ComplexJoint ->
     appended (span3 (translation ex_identity)) (m_dummyProps1 a) (m_dummyProps1 a') /\
     appended (span4 (rotation ex_posed)) (m_dummyProps2 a) (m_dummyProps2 a')) /\
    (true = true -> ComplexJoint = ComplexTransform ->
     appended (span3 (scale ex_identity)) (m_dummyProps1 a) (m_dummyProps1 a') /\
     appended (span4 (rotation ex_identity)) (m_dummyProps2 a) (m_dummyProps2 a')).
Proof.
  apply (dummy_routing (1 # 100) 0
           (NodeAnimation.make (ex_split ComplexJoint) ex_frames 1
              (ex_args false true 1))
           (mkHost 0%Q) 0%Q 0%Z (NodeTransformCache.mk (mkHost 0%Q))).
  - apply make_samplerInv.
  - vm_compute. discriminate.
  - intros m Hm. vm_compute in Hm. discriminate Hm.
Defined.

(** X9.  On a node whose mesh has blend shapes, [sampleAt] appends the
    weights the mesh reports at the scene's cursor to the weights buffer,
    and it aborts exactly when the mesh reports a number of weights other
    than its blend-shape count. *)
Theorem weights_sampling MAXN n a h absoluteTime frameIndex cache m :
  samplerInv n a ->
  m_mesh a = Some m ->
  0 < m_blendShapeCount a ->
  (sampleAt MAXN a h absoluteTime frameIndex cache = None
   <-> length (currentWeights h m) <> m_blendShapeCount a) /\
  (forall a',
     sampleAt MAXN a h absoluteTime frameIndex cache = Some a' ->
     appended (currentWeights h m) (m_weights a) (m_weights a')).
Proof.
  intros Hinv Hm Hpos.
  assert (Hsome : forall a',
            sampleAt MAXN a h absoluteTime frameIndex cache = Some a' ->
            appended (currentWeights h m) (m_weights a) (m_weights a')).
  { intros a' Hstep. apply sampleAt_inv in Hstep. cbv zeta in Hstep.
    destruct Hstep as (_ & _ & _ & Hw).
    assert (Hb : (0 <? m_blendShapeCount a) = true) by (apply Nat.ltb_lt; exact Hpos).
    rewrite Hb in Hw. destruct Hw as (m' & Hm' & Happ).
    rewrite Hm in Hm'. inversion Hm'; subst m'. exact Happ. }
  split; [|exact Hsome]. split.
  - intros Hnone Hlen.
    destruct (sampleAt_succeeds MAXN n a h absoluteTime frameIndex cache Hinv)
      as [a' Hstep].
    + intros m' Hm'. rewrite Hm in Hm'. inversion Hm'; subst m'. exact Hlen.
    + congruence.
  - intros Hlen.
    destruct (sampleAt MAXN a h absoluteTime frameIndex cache) as [a'|] eqn:Hstep;
      [|reflexivity].
    exfalso. apply Hlen.
    destruct (Hsome a' eq_refl) as (p & Hp & Hv & _).
    destruct Hinv as (_ & _ & _ & _ & _ & _ & HW).
    destruct (HW Hpos) as (q & Hq & _ & Hd & _).
    rewrite Hp in Hq. inversion Hq; subst q. congruence.
Qed.

Lemma weights_sampling_witness :
  let a := NodeAnimation.make ex_morphing ex_frames 1 (ex_args false false 1) in
  (sampleAt (1 # 100) a (mkHost 2%Q) 2%Q 0%Z (NodeTransformCache.mk (mkHost 2%Q)) = None
   <-> length (currentWeights (mkHost 2%Q) ex_mesh) <> m_blendShapeCount a) /\
  (forall a',
     sampleAt (1 # 100) a (mkHost 2%Q) 2%Q 0%Z (NodeTransformCache.mk (mkHost 2%Q))
     = Some a' ->
     appended (currentWeights (mkHost 2%Q) ex_mesh) (m_weights a) (m_weights a')).
Proof.
  apply (weights_sampling (1 # 100) 0
           (NodeAnimation.make ex_morphing ex_frames 1 (ex_args false false 1))
           (mkHost 2%Q) 2%Q 0%Z (NodeTransformCache.mk (mkHost 2%Q)) ex_mesh).
  - apply make_samplerInv.
  - reflexivity.
  - cbn. lia.
Defined.

(** * The buffers during sampling *)

Lemma slot_appended frames n nd pa d values ptr ptr' :
  slot frames n (Some (nd, pa, d)) ptr ->
  appended values ptr ptr' ->
  slot frames (S n) (Some (nd, pa, d)) ptr'.
Proof.
  intros Hs (p & Hp & Hv & Hp'). subst ptr ptr'. cbn in Hs |- *.
  destruct Hs as (H1 & H2 & H3 & H4 & H5). repeat split; try assumption.
  rewrite length_app, H5, Hv, H3. lia.
Qed.

Lemma slot_none frames n m ptr ptr' :
  slot frames n None ptr -> ptr' = ptr -> slot frames m None ptr'.
Proof. intros Hs ->. destruct ptr; exact Hs. Qed.

Lemma slot_inv frames n expected ptr :
  slot frames n expected ptr ->
  match expected with
  | None => ptr = None
  | Some (nd, pa, d) =>
      exists p, ptr = Some p /\
                PropAnimation.glNode p = nd /\ PropAnimation.path p = pa /\
                PropAnimation.dimension p = d /\ PropAnimation.frames p = frames /\
                length (PropAnimation.componentValuesPerFrame p) = n * d
  end.
Proof.
  unfold slot. destruct expected as [[[nd pa] d]|], ptr as [p|]; try tauto.
  intros H. exists p. tauto.
Qed.

Lemma make_slotsInv node0 frames scaleFactor arguments :
  slotsInv frames 0 (NodeAnimation.make node0 frames scaleFactor arguments).
Proof.
  unfold slotsInv, NodeAnimation.make, expectedCorrectors, expectedDummy1,
    expectedDummy2.
  destruct (match mesh node0 with Some m => blendShapeCount m | None => 0 end)
    as [|c];
    destruct (transformKind node0) eqn:Hkind,
      (forceAnimationChannels arguments) eqn:Hfc;
    cbn; rewrite ?Hkind, ?Hfc; cbn; repeat split; auto.
Qed.

Lemma sampleAt_slotsInv MAXN frames n a h absoluteTime frameIndex cache a' :
  slotsInv frames n a ->
  sampleAt MAXN a h absoluteTime frameIndex cache = Some a' ->
  slotsInv frames (S n) a'.
Proof.
  intros (ST & SR & SS & SC & SD1 & SD2 & SW) Hstep.
  apply sampleAt_inv in Hstep. cbv zeta in Hstep.
  destruct Hstep as ((Hnode & _ & _ & Hcount & Hargs) & _ & Hroute & Hweights).
  unfold slotsInv. rewrite Hnode, Hcount, Hargs. cbv zeta.
  unfold routed in Hroute.
  assert (SW' : slot frames (S n)
                  (if 0 <? m_blendShapeCount a
                   then Some (glPrimaryNode (node a), GLTF.WEIGHTS, m_blendShapeCount a)
                   else None) (m_weights a')).
  { destruct (0 <? m_blendShapeCount a).
    - destruct Hweights as (m & _ & Happ). exact (slot_appended _ _ _ _ _ _ _ _ SW Happ).
    - exact (slot_none _ _ _ _ _ SW Hweights). }
  unfold expectedCorrectors, expectedDummy1, expectedDummy2 in *.
  destruct (transformKind (node a)).
  - destruct Hroute as (RT & RR & RS & RC & RD1 & RD2).
    repeat split;
      first [ exact (slot_appended _ _ _ _ _ _ _ _ ST RT)
            | exact (slot_appended _ _ _ _ _ _ _ _ SR RR)
            | exact (slot_appended _ _ _ _ _ _ _ _ SS RS)
            | exact (slot_none _ _ _ _ _ SC RC)
            | exact (slot_none _ _ _ _ _ SD1 RD1)
            | exact (slot_none _ _ _ _ _ SD2 RD2)
            | exact SW' ].
  - destruct Hroute as (RT & RR & RS & RC & RD).
    destruct (forceAnimationChannels (m_arguments a)); destruct RD as [RD1 RD2];
      repeat split;
      first [ exact (slot_appended _ _ _ _ _ _ _ _ ST RT)
            | exact (slot_appended _ _ _ _ _ _ _ _ SR RR)
            | exact (slot_appended _ _ _ _ _ _ _ _ SS RS)
            | exact (slot_appended _ _ _ _ _ _ _ _ SC RC)
            | exact (slot_appended _ _ _ _ _ _ _ _ SD1 RD1)
            | exact (slot_appended _ _ _ _ _ _ _ _ SD2 RD2)
            | exact (slot_none _ _ _ _ _ SD1 RD1)
            | exact (slot_none _ _ _ _ _ SD2 RD2)
            | exact SW' ].
  - destruct Hroute as (RT & RR & RS & RC & RD).
    destruct (forceAnimationChannels (m_arguments a)); destruct RD as [RD1 RD2];
      repeat split;
      first [ exact (slot_appended _ _ _ _ _ _ _ _ ST RT)
            | exact (slot_appended _ _ _ _ _ _ _ _ SR RR)
            | exact (slot_appended _ _ _ _ _ _ _ _ SS RS)
            | exact (slot_appended _ _ _ _ _ _ _ _ SC RC)
            | exact (slot_appended _ _ _ _ _ _ _ _ SD1 RD1)
            | exact (slot_appended _ _ _ _ _ _ _ _ SD2 RD2)
            | exact (slot_none _ _ _ _ _ SD1 RD1)
            | exact (slot_none _ _ _ _ _ SD2 RD2)
            | exact SW' ].
Qed.

Lemma sampleMany_slotsInv MAXN frames calls :
  forall n a a',
    slotsInv frames n a -> sampleMany MAXN a calls = Some a' ->
    slotsInv frames (n + length calls) a'.
Proof.
  induction calls as [|c calls IH]; intros n a a' Hinv H; cbn [sampleMany] in H.
  - inversion H; subst. cbn. rewrite Nat.add_0_r. exact Hinv.
  - bind_inv H. cbn [length]. rewrite Nat.add_succ_r.
    apply (IH (S n) t0 a'); [|exact H].
    eapply sampleAt_slotsInv; eassumption.
Qed.

(** X10.  Sampling never changes which buffers a sampler owns: after any
    sequence of [sampleAt] calls they are still the buffers of the node's
    row in the decomposition-kind table, each over the clip's frame grid,
    and after [n] calls each holds exactly [n] blocks of its dimension. *)
Theorem sampled_buffers MAXN node0 frames scaleFactor arguments calls a :
  sampleMany MAXN (NodeAnimation.make node0 frames scaleFactor arguments) calls
  = Some a ->
  map (fun p => (PropAnimation.glNode p, PropAnimation.path p,
                 PropAnimation.dimension p)) (buffers a)
  = expectedBuffers (transformKind node0) (forceAnimationChannels arguments)
      (glPrimaryNode node0) (glSecondaryNode node0) (morphTargets node0) /\
  Forall (fun p =>
            PropAnimation.frames p = frames /\
            length (PropAnimation.componentValuesPerFrame p)
            = length calls * PropAnimation.dimension p)
         (buffers a).
Proof.
  intros H.
  destruct (sampleMany_make_inv MAXN node0 frames scaleFactor arguments calls a H)
    as ((_ & Hcount & _) & Hnode & Hargs & _).
  pose proof (sampleMany_slotsInv MAXN frames calls 0 _ a
                (make_slotsInv node0 frames scaleFactor arguments) H) as Hslots.
  cbn [Nat.add] in Hslots. unfold slotsInv in Hslots. cbv zeta in Hslots.
  rewrite Hnode in Hcount. fold (morphTargets node0) in Hcount.
  rewrite Hnode, Hargs, Hcount in Hslots.
  unfold buffers, expectedBuffers.
  unfold expectedCorrectors, expectedDummy1, expectedDummy2 in Hslots.
  destruct Hslots as (ST & SR & SS & SC & SD1 & SD2 & SW).
  destruct (transformKind node0), (forceAnimationChannels arguments),
    (0 <? morphTargets node0);
    apply slot_inv in ST, SR, SS, SC, SD1, SD2, SW;
    repeat match goal with
           | H : exists _, _ |- _ => destruct H as (? & -> & ? & ? & ? & ? & ?)
           | H : _ = None |- _ => rewrite H; clear H
           end;
    cbn; (split; [congruence | repeat constructor; congruence]).
Qed.

Lemma sampled_buffers_witness :
  map (fun p => (PropAnimation.glNode p, PropAnimation.path p,
                 PropAnimation.dimension p)) (buffers (ex_joint_sampled 1))
  = expectedBuffers ComplexJoint true 0 1 0 /\
  Forall (fun p =>
            PropAnimation.frames p = ex_frames /\
            length (PropAnimation.componentValuesPerFrame p)
            = 2 * PropAnimation.dimension p)
         (buffers (ex_joint_sampled 1)).
Proof.
  apply (sampled_buffers (1 # 100) (ex_split ComplexJoint) ex_frames 1
           (ex_args false true 1) (ex_calls 2) (ex_joint_sampled 1)).
  vm_compute. reflexivity.
Defined.

(** X11.  When at most ten sampled frames exceed the tolerance, the worst
    deviation the sampler records is the largest deviation over all the
    offending frames (0 when there is none), and the timestamps it records
    are those of all of them, in sampling order. *)
Theorem worst_deviation_within_capacity MAXN node0 frames scaleFactor arguments
    calls a :
  sampleMany MAXN (NodeAnimation.make node0 frames scaleFactor arguments) calls
  = Some a ->
  let a0 := NodeAnimation.make node0 frames scaleFactor arguments in
  let offenders :=
    filter (fun f => offending MAXN (snd f)) (map (observe a0) calls) in
  length offenders <= 10 ->
  m_maxNonOrthogonality a
  = largest (map (fun f => maxNonOrthogonality (snd f)) offenders) /\
  StdVector.items (m_invalidLocalTransformTimes a) = map fst offenders.
Proof.
  intros H a0 offenders Hlen.
  destruct (sampleMany_make_recorded MAXN node0 frames scaleFactor arguments calls a H)
    as [Htimes Hmax].
  cbv zeta in Htimes, Hmax. unfold recordedFrames in Htimes, Hmax.
  fold a0 in Htimes, Hmax. fold offenders in Htimes, Hmax.
  rewrite firstn_all2 in Htimes, Hmax by exact Hlen.
  rewrite Htimes, Hmax. split; reflexivity.
Qed.

Lemma worst_deviation_within_capacity_witness :
  let a0 := NodeAnimation.make ex_sheared ex_frames 1 (ex_args false false 1) in
  let offenders :=
    filter (fun f => offending (1 # 100) (snd f)) (map (observe a0) (ex_calls 3)) in
  m_maxNonOrthogonality (ex_sheared_sampled 3)
  = largest (map (fun f => maxNonOrthogonality (snd f)) offenders) /\
  StdVector.items (m_invalidLocalTransformTimes (ex_sheared_sampled 3))
  = map fst offenders.
Proof.
  apply (worst_deviation_within_capacity (1 # 100) ex_sheared ex_frames 1
           (ex_args false false 1) (ex_calls 3) (ex_sheared_sampled 3)).
  - vm_compute. reflexivity.
  - vm_compute. lia.
Defined.

(** * What [exportTo] does to the output animation *)

Lemma finish_grows a g propName ptr thr detect baseValues g' ptr' :
  finish a g propName ptr thr detect baseValues = Some (g', ptr') ->
  GLTF.name g' = GLTF.name g /\
  exists more,
    GLTF.channels g' = GLTF.channels g ++ more /\
    length more <= length (match ptr with Some p => [p] | None => [] end).
Proof.
  assert (Hsame : forall q : option PropAnimation.t,
            Some (g, q) = Some (g', ptr') ->
            GLTF.name g' = GLTF.name g /\
            exists more : list GLTF.Channel,
              GLTF.channels g' = GLTF.channels g ++ more /\ length more <= 1).
  { intros q H. inversion H; subst. split; [reflexivity|].
    exists []. rewrite app_nil_r. split; [reflexivity | cbn; lia]. }
  unfold finish. destruct ptr as [p|]; cbn [bind]; [|discriminate].
  destruct (0 <? PropAnimation.dimension p); [|apply Hsame].
  destruct (PropAnimation.dimension p =? length baseValues); [|discriminate].
  destruct (scanFrames _ _ _ _ _ _ _) as [isConstant|]; cbn [bind]; [|discriminate].
  destruct (isConstant && _ && _); [apply Hsame|].
  destruct (_ || _); [|apply Hsame].
  intros H. inversion H; subst. split; [reflexivity|].
  eexists [_]. split; [reflexivity | cbn; lia].
Qed.

Ltac finish_inv H g1 p1 m1 :=
  match type of H with
  | bind (finish ?a ?g ?s ?p ?t ?d ?b) _ = Some _ =>
      let E := fresh "E" in
      let Hn := fresh "Hn" in
      let Hm := fresh "Hm" in
      let Hl := fresh "Hl" in
      destruct (finish a g s p t d b) as [[g1 p1]|] eqn:E; cbn [bind] in H;
      [|discriminate H];
      apply finish_grows in E; destruct E as (Hn & m1 & Hm & Hl);
      simpl_set_in H
  end.

Ltac grown_by l :=
  split; [congruence|]; split; [|auto];
  exists l; split;
  [ repeat match goal with
           | Hm : GLTF.channels ?g = _ ++ _ |- context [GLTF.channels ?g] =>
               rewrite Hm; clear Hm
           end;
    rewrite <- ?app_assoc; reflexivity
  | rewrite ?length_app; lia ].

Lemma exportTo_inv prefix a g a' g' cerr :
  exportTo prefix a g = Some (a', g', cerr) ->
  GLTF.name g' = GLTF.name g /\
  (exists new,
     GLTF.channels g' = GLTF.channels g ++ new /\
     length new <= length (buffers a)) /\
  node a' = node a /\ m_arguments a' = m_arguments a /\
  cerr = cerrOf prefix a.
Proof.
  unfold exportTo, buffers. cbv zeta. fold (cerrOf prefix a).
  cbn [flat_map]. rewrite !length_app.
  intros H.
  match type of H with
  | bind ?m _ = Some _ => destruct m as [[a2 g2]|] eqn:Hk; cbn [bind] in H;
                          [|discriminate H]
  end.
  assert (Hmid :
    GLTF.name g2 = GLTF.name g /\
    (exists new,
       GLTF.channels g2 = GLTF.channels g ++ new /\
       length new
       <= length (match m_positions a with Some p => [p] | None => [] end)
          + (length (match m_rotations a with Some p => [p] | None => [] end)
             + (length (match m_scales a with Some p => [p] | None => [] end)
                + (length (match m_correctors a with Some p => [p] | None => [] end)
                   + (length (match m_dummyProps1 a with Some p => [p] | None => [] end)
                      + length (match m_dummyProps2 a with Some p => [p] | None => [] end)))))) /\
    node a2 = node a /\ m_arguments a2 = m_arguments a /\
    m_mesh a2 = m_mesh a /\ m_blendShapeCount a2 = m_blendShapeCount a /\
    m_weights a2 = m_weights a).
  { destruct (transformKind (node a)).
    - finish_inv Hk g1 p1 m1. finish_inv Hk g3 p3 m3. finish_inv Hk g4 p4 m4.
      inversion Hk; subst a2 g2. cbn. grown_by (m1 ++ m3 ++ m4).
    - finish_inv Hk g1 p1 m1. finish_inv Hk g3 p3 m3. finish_inv Hk g4 p4 m4.
      finish_inv Hk g5 p5 m5.
      destruct (forceAnimationChannels (m_arguments a)).
      + finish_inv Hk g6 p6 m6. finish_inv Hk g7 p7 m7.
        inversion Hk; subst a2 g2. cbn. grown_by (m1 ++ m3 ++ m4 ++ m5 ++ m6 ++ m7).
      + inversion Hk; subst a2 g2. cbn. grown_by (m1 ++ m3 ++ m4 ++ m5).
    - finish_inv Hk g1 p1 m1. finish_inv Hk g3 p3 m3. finish_inv Hk g4 p4 m4.
      finish_inv Hk g5 p5 m5.
      destruct (forceAnimationChannels (m_arguments a)).
      + finish_inv Hk g6 p6 m6. finish_inv Hk g7 p7 m7.
        inversion Hk; subst a2 g2. cbn. grown_by (m1 ++ m3 ++ m4 ++ m5 ++ m6 ++ m7).
      + inversion Hk; subst a2 g2. cbn. grown_by (m1 ++ m3 ++ m4 ++ m5). }
  destruct Hmid as (Hname & (new & Hnew & Hlen) & Hnode & Hargs & Hmesh & Hcount & Hw).
  destruct (0 <? m_blendShapeCount a2).
  - destruct (m_mesh a2) as [m|]; cbn [bind] in H; [|discriminate H].
    destruct (length (initialWeights m) =? m_blendShapeCount a2); [|discriminate H].
    rewrite Hw in H.
    match type of H with
    | bind (finish ?a ?g ?s ?p ?t ?d ?b) _ = Some _ =>
        destruct (finish a g s p t d b) as [[g8 p8]|] eqn:E8; cbn [bind] in H;
        [|discriminate H];
        apply finish_grows in E8; destruct E8 as (Hname8 & more & Hmore & Hlen8)
    end.
    inversion H; subst a' g' cerr. cbn.
    split; [congruence|]. split; [|auto].
    exists (new ++ more). split; [rewrite app_assoc; congruence|].
    rewrite length_app. cbn [length] in *. lia.
  - inversion H; subst a' g' cerr.
    split; [exact Hname|]. split; [|auto].
    exists new. split; [exact Hnew|]. cbn [length] in *. lia.
Qed.

(** X12.  [exportTo] only ever appends to the output animation: its name
    and the channels it already holds are kept, in order, and at most one
    channel is added for each buffer the sampler owns. *)
Theorem export_appends_only prefix a g a' g' cerr :
  exportTo prefix a g = Some (a', g', cerr) ->
  GLTF.name g' = GLTF.name g /\
  exists new,
    GLTF.channels g' = GLTF.channels g ++ new /\
    length new <= length (buffers a).
Proof.
  intros H. destruct (exportTo_inv prefix a g a' g' cerr H) as (Hn & Hnew & _).
  split; assumption.
Qed.

Lemma export_appends_only_witness :
  GLTF.name (snd (fst ex_export)) = GLTF.name ex_animation /\
  exists new,
    GLTF.channels (snd (fst ex_export)) = GLTF.channels ex_animation ++ new /\
    length new <= length (buffers (ex_sampled true false 1)).
Proof.
  apply (export_appends_only "" (ex_sampled true false 1) ex_animation
           (fst (fst ex_export)) (snd (fst ex_export)) (snd ex_export)).
  vm_compute. reflexivity.
Defined.

(** * The loops of [ExportableClip] *)

Lemma mapM_Forall2 {A B} (f : A -> option B) l l' :
  ExportableClip.mapM f l = Some l' -> Forall2 (fun x y => f x = Some y) l l'.
Proof.
  revert l'. induction l as [|x l IH]; intros l' H; cbn in H.
  - inversion H. constructor.
  - destruct (f x) as [y|] eqn:Hy; cbn [bind] in H; [|discriminate H].
    destruct (ExportableClip.mapM f l) as [l1|]; cbn [bind] in H; [|discriminate H].
    inversion H; subst. constructor; [exact Hy | apply IH; reflexivity].
Qed.

Lemma Forall2_sampleMany_cons MAXN c calls l l1 l' :
  Forall2 (fun a a1 => sampleAt MAXN a (callHost c) (callTime c) (callFrame c)
                         (callCache c) = Some a1) l l1 ->
  Forall2 (fun a1 a' => sampleMany MAXN a1 calls = Some a') l1 l' ->
  Forall2 (fun a a' => sampleMany MAXN a (c :: calls) = Some a') l l'.
Proof.
  intros H1. revert l'. induction H1 as [|a a1 l l1 Ha _ IH]; intros l' H2.
  - inversion H2. constructor.
  - inversion H2 as [|? a' ? l'' Ha' Hrest]; subst. constructor.
    + cbn [sampleMany]. rewrite Ha. cbn [bind]. exact Ha'.
    + apply IH. exact Hrest.
Qed.

Lemma Forall2_sampleMany_nil MAXN l :
  Forall2 (fun a a' : NodeAnimation.t => sampleMany MAXN a [] = Some a') l l.
Proof. induction l; constructor; [reflexivity | assumption]. Qed.

Lemma last_cons {A} (x d : A) l : last (x :: l) d = last l x.
Proof.
  revert x d. induction l as [|y l IH]; intros x d; [reflexivity|].
  change (last (x :: y :: l) d) with (last (y :: l) d).
  rewrite (IH y d). symmetry. apply IH.
Qed.

Lemma sampleFrames_inv MAXN interval args clipArg frames frameCount :
  forall indices l h ui l' h' ui',
    ExportableClip.sampleFrames MAXN interval args clipArg frames frameCount
      indices (l, h, ui) = Some (l', h', ui') ->
    length (frameCalls clipArg frames indices) = length indices /\
    Forall2 (fun a a' => sampleMany MAXN a (frameCalls clipArg frames indices)
                         = Some a') l l' /\
    ui' = ui ++ progressOf interval clipArg frameCount indices /\
    h' = last (map callHost (frameCalls clipArg frames indices)) h.
Proof.
  induction indices as [|i indices IH]; intros l h ui l' h' ui' H;
    cbn [ExportableClip.sampleFrames] in H.
  - inversion H; subst. cbn. rewrite app_nil_r.
    split; [reflexivity|]. split; [apply (Forall2_sampleMany_nil MAXN) | auto].
  - unfold ExportableClip.sampleFrame at 1 in H. rewrite Nat2Z.id in H.
    unfold frameCalls, progressOf. cbn [flat_map].
    fold (frameCalls clipArg frames indices).
    fold (progressOf interval clipArg frameCount indices).
    destruct (nth_error (ExportableFrames.times frames) i) as [t|];
      cbn [bind] in H; [|discriminate H].
    unfold setCurrentTime in H.
    destruct (ExportableClip.mapM _ l) as [l1|] eqn:Hmap; cbn [bind] in H;
      [|discriminate H].
    apply mapM_Forall2 in Hmap.
    apply IH in H. destruct H as (Hlen & Hall & Hui & Hh).
    cbn [app length map]. split; [rewrite Hlen; reflexivity|].
    split; [|split].
    + eapply Forall2_sampleMany_cons; [|exact Hall]. exact Hmap.
    + rewrite Hui. destruct (_ =? _)%Z; [rewrite <- app_assoc|]; reflexivity.
    + rewrite last_cons. exact Hh.
Qed.

Lemma exportAll_inv prefix :
  forall l g log l' g' log',
    ExportableClip.exportAll prefix l g log = Some (l', g', log') ->
    Forall2 (fun a a' => exists g1 g2,
                 exportTo prefix a g1 = Some (a', g2, cerrOf prefix a)) l l' /\
    GLTF.name g' = GLTF.name g /\
    (exists new,
       GLTF.channels g' = GLTF.channels g ++ new /\
       length new <= length (flat_map buffers l)) /\
    log' = log ++ flat_map (cerrOf prefix) l /\
    map node l' = map node l.
Proof.
  induction l as [|a l IH]; intros g log l' g' log' H;
    cbn [ExportableClip.exportAll] in H.
  - inversion H; subst. cbn. rewrite app_nil_r.
    split; [constructor|]. split; [reflexivity|].
    split; [exists []; rewrite app_nil_r; auto | auto].
  - destruct (exportTo prefix a g) as [[[a1 g1] out]|] eqn:Ha; cbn [bind] in H;
      [|discriminate H].
    destruct (ExportableClip.exportAll prefix l g1 (log ++ out))
      as [[[l1 g2] log2]|] eqn:Hl; cbn [bind] in H; [|discriminate H].
    inversion H; subst l' g' log'. clear H.
    destruct (exportTo_inv prefix a g a1 g1 out Ha)
      as (Hn & (new & Hnew & Hlen) & Hnode & _ & Hout).
    destruct (IH g1 (log ++ out) l1 g2 log2 Hl)
      as (Hall & Hn' & (new' & Hnew' & Hlen') & Hlog & Hnodes).
    subst out. split; [|split; [|split; [|split]]].
    + constructor; [exists g, g1; exact Ha | exact Hall].
    + congruence.
    + exists (new ++ new'). rewrite Hnew', Hnew, <- app_assoc.
      split; [reflexivity|]. cbn [flat_map]. rewrite !length_app. lia.
    + rewrite Hlog. cbn [flat_map]. rewrite app_assoc. reflexivity.
    + cbn [map]. congruence.
Qed.

Lemma createAnimations_filter items args frames scaleFactor :
  ExportableClip.createAnimations items args frames scaleFactor
  = map (fun item => NodeAnimation.make (snd item) frames scaleFactor args)
        (filter (fun item => animatable (snd item)) items).
Proof.
  induction items as [|item items IH]; cbn; [reflexivity|].
  unfold ExportableClip.createAnimation.
  destruct (animatable (snd item)); cbn; rewrite IH; reflexivity.
Qed.

Lemma Forall2_sampleMany_node MAXN calls l l' :
  Forall2 (fun a a' => sampleMany MAXN a calls = Some a') l l' ->
  map node l' = map node l.
Proof.
  induction 1 as [|a a' l l' Ha _ IH]; [reflexivity|].
  cbn [map]. rewrite IH.
  destruct (sampleMany_node MAXN calls a a' Ha) as (Hn & _). rewrite Hn. reflexivity.
Qed.

Lemma make_inv MAXN prefix interval args clipArg scene h clip effects :
  ExportableClip.make MAXN prefix interval args clipArg scene h
  = Some (clip, effects) ->
  let frames := ExportableClip.m_frames clip in
  let n := Z.to_nat (ExportableFrames.count frames) in
  exists sampled,
    ExportableClip.sampleFrames MAXN interval args clipArg frames
      (ExportableFrames.count frames) (seq 0 n)
      (ExportableClip.createAnimations (ExportableClip.table scene) args frames
         (getBakeScaleFactor args), h, [])
    = Some (sampled, ExportableClip.host effects, ExportableClip.progress effects) /\
    ExportableClip.exportAll prefix sampled
      (GLTF.mkAnimation (ExportableClip.clipName clipArg) []) []
    = Some (ExportableClip.m_nodeAnimations clip, ExportableClip.glAnimation clip,
            ExportableClip.cerr effects).
Proof.
  unfold ExportableClip.make. intros H.
  destruct (ExportableFrames.make _ _ _) as [frames|]; cbn [bind] in H;
    [|discriminate H].
  destruct (ExportableClip.sampleFrames _ _ _ _ _ _ _ _) as [[[sampled h'] ui]|] eqn:Hs;
    cbn [bind] in H; [|discriminate H].
  destruct (ExportableClip.exportAll _ _ _ _) as [[[l g] log]|] eqn:He;
    cbn [bind] in H; [|discriminate H].
  inversion H; subst clip effects. cbn. exists sampled. split; assumption.
Qed.

Lemma buffers_at_most_seven a : length (buffers a) <= 7.
Proof.
  unfold buffers. cbn [flat_map]. rewrite !length_app.
  destruct (m_positions a), (m_rotations a), (m_scales a), (m_correctors a),
    (m_dummyProps1 a), (m_dummyProps2 a), (m_weights a); cbn; lia.
Qed.

Lemma flat_map_buffers_bound l : length (flat_map buffers l) <= 7 * length l.
Proof.
  induction l as [|a l IH]; cbn [flat_map length]; [lia|].
  rewrite length_app. pose proof (buffers_at_most_seven a). lia.
Qed.

(** X13.  The clip owns one sampler for each node of the scene whose
    [createAnimation] returned a sampler, in the order of the scene's
    table; neither sampling nor exporting adds, drops, reorders or
    retargets one. *)
Theorem clip_samplers MAXN prefix interval args clipArg scene h clip effects :
  ExportableClip.make MAXN prefix interval args clipArg scene h
  = Some (clip, effects) ->
  map node (ExportableClip.m_nodeAnimations clip)
  = map snd
      (filter (fun item =>
                 match ExportableClip.createAnimation (snd item) args
                         (ExportableClip.m_frames clip) (getBakeScaleFactor args)
                 with Some _ => true | None => false end)
              (ExportableClip.table scene)).
Proof.
  intros H. destruct (make_inv _ _ _ _ _ _ _ _ _ H) as (sampled & Hs & He).
  cbv zeta in Hs.
  apply sampleFrames_inv in Hs. destruct Hs as (_ & Hall & _).
  apply exportAll_inv in He. destruct He as (_ & _ & _ & _ & Hnodes).
  rewrite Hnodes. rewrite (Forall2_sampleMany_node _ _ _ _ Hall).
  rewrite createAnimations_filter.
  rewrite (filter_ext
             (fun item =>
                match ExportableClip.createAnimation (snd item) args
                        (ExportableClip.m_frames clip) (getBakeScaleFactor args)
                with Some _ => true | None => false end)
             (fun item => animatable (snd item))).
  2:{ intros item. unfold ExportableClip.createAnimation.
      destruct (animatable (snd item)); reflexivity. }
  rewrite map_map. apply map_ext. intros item.
  apply (make_fresh (snd item)).
Qed.

Lemma clip_samplers_witness :
  map node (ExportableClip.m_nodeAnimations (fst ex_baked))
  = map snd
      (filter (fun item =>
                 match ExportableClip.createAnimation (snd item) (ex_args false false 1)
                         (ExportableClip.m_frames (fst ex_baked))
                         (getBakeScaleFactor (ex_args false false 1))
                 with Some _ => true | None => false end)
              (ExportableClip.table ex_scene)).
Proof.
  apply (clip_samplers (1 # 100) "" 2 (ex_args false false 1) ex_clip_arg ex_scene
           (mkHost 0%Q) (fst ex_baked) (snd ex_baked)).
  vm_compute. reflexivity.
Defined.

(** X14.  The frame loop and the export loop compose per node: every frame
    of the grid gets one call, in frame order, at the clip's start time
    plus the frame's relative time; each sampler the clip ends with is the
    sampler its node was given, driven through exactly these calls and then
    exported; and what is written to [cerr] is the warnings of the sampled
    samplers, node by node. *)
Theorem clip_sampling MAXN prefix interval args clipArg scene h clip effects :
  ExportableClip.make MAXN prefix interval args clipArg scene h
  = Some (clip, effects) ->
  let frames := ExportableClip.m_frames clip in
  let n := Z.to_nat (ExportableFrames.count frames) in
  let calls := frameCalls clipArg frames (seq 0 n) in
  length calls = n /\
  exists sampled,
    Forall2 (fun a0 a => sampleMany MAXN a0 calls = Some a)
      (ExportableClip.createAnimations (ExportableClip.table scene) args frames
         (getBakeScaleFactor args))
      sampled /\
    Forall2 (fun a a' => exists g g',
                 exportTo prefix a g = Some (a', g', cerrOf prefix a))
      sampled (ExportableClip.m_nodeAnimations clip) /\
    ExportableClip.cerr effects = flat_map (cerrOf prefix) sampled.
Proof.
  intros H frames n calls.
  destruct (make_inv _ _ _ _ _ _ _ _ _ H) as (sampled & Hs & He).
  cbv zeta in Hs. fold frames in Hs. fold n in Hs.
  apply sampleFrames_inv in Hs. destruct Hs as (Hlen & Hall & _).
  apply exportAll_inv in He. destruct He as (Hexp & _ & _ & Hlog & _).
  fold calls in Hlen, Hall. rewrite length_seq in Hlen.
  split; [exact Hlen|]. exists sampled. auto.
Qed.

Lemma clip_sampling_witness :
  let frames := ExportableClip.m_frames (fst ex_baked) in
  let n := Z.to_nat (ExportableFrames.count frames) in
  let calls := frameCalls ex_clip_arg frames (seq 0 n) in
  length calls = n /\
  exists sampled,
    Forall2 (fun a0 a => sampleMany (1 # 100) a0 calls = Some a)
      (ExportableClip.createAnimations (ExportableClip.table ex_scene)
         (ex_args false false 1) frames (getBakeScaleFactor (ex_args false false 1)))
      sampled /\
    Forall2 (fun a a' => exists g g',
                 exportTo "" a g = Some (a', g', cerrOf "" a))
      sampled (ExportableClip.m_nodeAnimations (fst ex_baked)) /\
    ExportableClip.cerr (snd ex_baked) = flat_map (cerrOf "") sampled.
Proof.
  apply (clip_sampling (1 # 100) "" 2 (ex_args false false 1) ex_clip_arg ex_scene
           (mkHost 0%Q) (fst ex_baked) (snd ex_baked)).
  vm_compute. reflexivity.
Defined.

(** X15.  Progress is reported for the frames whose index leaves the
    remainder [checkProgressFrameInterval - 1], in frame order, and for no
    other frame; each message carries the clip's name and a percentage
    that is at least 0 and below 100.  The interval is not 0 and the
    products [relativeFrameIndex * 100] fit an [int], outside of which the
    source's arithmetic is undefined. *)
Theorem clip_progress MAXN prefix interval args clipArg scene h clip effects :
  ExportableClip.make MAXN prefix interval args clipArg scene h
  = Some (clip, effects) ->
  let frameCount := ExportableFrames.count (ExportableClip.m_frames clip) in
  interval <> 0%Z ->
  ((frameCount - 1) * 100 <= 2147483647)%Z ->
  ExportableClip.progress effects
  = map (fun i => (ExportableClip.clipName clipArg,
                   Z.quot (Z.of_nat i * 100) frameCount))
        (filter (fun i => (Z.rem (Z.of_nat i) interval =? interval - 1)%Z)
                (seq 0 (Z.to_nat frameCount))) /\
  Forall (fun message =>
            fst message = ExportableClip.clipName clipArg /\
            (0 <= snd message < 100)%Z)
         (ExportableClip.progress effects).
Proof.
  intros H frameCount _ _.
  destruct (make_inv _ _ _ _ _ _ _ _ _ H) as (sampled & Hs & _).
  cbv zeta in Hs. fold frameCount in Hs.
  apply sampleFrames_inv in Hs. destruct Hs as (_ & _ & Hui & _).
  cbn [app] in Hui.
  assert (Hmap : forall indices,
            progressOf interval clipArg frameCount indices
            = map (fun i => (ExportableClip.clipName clipArg,
                             Z.quot (Z.of_nat i * 100) frameCount))
                  (filter (fun i => (Z.rem (Z.of_nat i) interval =? interval - 1)%Z)
                          indices)).
  { induction indices as [|i indices IH]; [reflexivity|].
    unfold progressOf. cbn [flat_map filter].
    fold (progressOf interval clipArg frameCount indices).
    destruct (_ =? _)%Z; cbn [app map]; rewrite IH; reflexivity. }
  rewrite Hui, Hmap. split; [reflexivity|].
  apply Forall_forall. intros message Hin.
  apply in_map_iff in Hin. destruct Hin as (i & <- & Hi).
  apply filter_In in Hi. destruct Hi as [Hi _]. apply in_seq in Hi.
  cbn [fst snd]. split; [reflexivity|].
  assert (Hpos : (0 < frameCount)%Z) by lia.
  split.
  - apply Z.quot_pos; lia.
  - apply Z.quot_lt_upper_bound; lia.
Qed.

Lemma clip_progress_witness :
  let frameCount := ExportableFrames.count (ExportableClip.m_frames (fst ex_baked)) in
  ExportableClip.progress (snd ex_baked)
  = map (fun i => (ExportableClip.clipName ex_clip_arg,
                   Z.quot (Z.of_nat i * 100) frameCount))
        (filter (fun i => (Z.rem (Z.of_nat i) 2 =? 2 - 1)%Z)
                (seq 0 (Z.to_nat frameCount))) /\
  Forall (fun message =>
            fst message = ExportableClip.clipName ex_clip_arg /\
            (0 <= snd message < 100)%Z)
         (ExportableClip.progress (snd ex_baked)).
Proof.
  apply (clip_progress (1 # 100) "" 2 (ex_args false false 1) ex_clip_arg ex_scene
           (mkHost 0%Q) (fst ex_baked) (snd ex_baked)).
  - vm_compute. reflexivity.
  - discriminate.
  - vm_compute. discriminate.
Defined.

(** X16.  Baking leaves the scene's time cursor where the last frame put
    it, at the clip's start time plus the last relative time of the grid:
    the constructor does not restore the cursor it was given. *)
Theorem clip_cursor MAXN prefix interval args clipArg scene h clip effects t :
  ExportableClip.make MAXN prefix interval args clipArg scene h
  = Some (clip, effects) ->
  let frames := ExportableClip.m_frames clip in
  let n := Z.to_nat (ExportableFrames.count frames) in
  0 < n ->
  nth_error (ExportableFrames.times frames) (n - 1) = Some t ->
  currentTime (ExportableClip.host effects)
  = (ExportableClip.startTime clipArg + t)%Q.
Proof.
  intros H frames n Hpos Ht.
  destruct (make_inv _ _ _ _ _ _ _ _ _ H) as (sampled & Hs & _).
  cbv zeta in Hs. fold frames in Hs. fold n in Hs.
  apply sampleFrames_inv in Hs. destruct Hs as (_ & _ & _ & Hh).
  rewrite Hh.
  replace n with (S (n - 1)) by lia. rewrite seq_S. cbn [Nat.add].
  unfold frameCalls. rewrite flat_map_app. cbn [flat_map]. rewrite Ht.
  rewrite app_nil_r, map_app. cbn [map]. rewrite last_last. reflexivity.
Qed.

Lemma clip_cursor_witness :
  currentTime (ExportableClip.host (snd ex_baked))
  = (ExportableClip.startTime ex_clip_arg
     + the (nth_error (ExportableFrames.times (ExportableClip.m_frames (fst ex_baked))) 4)
           0)%Q.
Proof.
  apply (clip_cursor (1 # 100) "" 2 (ex_args false false 1) ex_clip_arg ex_scene
           (mkHost 0%Q) (fst ex_baked) (snd ex_baked)).
  - vm_compute. reflexivity.
  - vm_compute. lia.
  - vm_compute. reflexivity.
Defined.

(** X17.  Whatever the scene, the clip's animation carries the clip's name,
    and it holds at most seven channels for each sampler of the clip. *)
Theorem clip_animation MAXN prefix interval args clipArg scene h clip effects :
  ExportableClip.make MAXN prefix interval args clipArg scene h
  = Some (clip, effects) ->
  GLTF.name (ExportableClip.glAnimation clip) = ExportableClip.clipName clipArg /\
  length (GLTF.channels (ExportableClip.glAnimation clip))
  <= 7 * length (ExportableClip.m_nodeAnimations clip).
Proof.
  intros H. destruct (make_inv _ _ _ _ _ _ _ _ _ H) as (sampled & _ & He).
  apply exportAll_inv in He.
  destruct He as (Hall & Hname & (new & Hnew & Hlen) & _).
  split; [exact Hname|].
  rewrite Hnew. cbn [GLTF.channels app].
  rewrite <- (Forall2_length Hall).
  pose proof (flat_map_buffers_bound sampled). lia.
Qed.

Lemma clip_animation_witness :
  GLTF.name (ExportableClip.glAnimation (fst ex_baked))
  = ExportableClip.clipName ex_clip_arg /\
  length (GLTF.channels (ExportableClip.glAnimation (fst ex_baked)))
  <= 7 * length (ExportableClip.m_nodeAnimations (fst ex_baked)).
Proof.
  apply (clip_animation (1 # 100) "" 2 (ex_args false false 1) ex_clip_arg ex_scene
           (mkHost 0%Q) (fst ex_baked) (snd ex_baked)).
  vm_compute. reflexivity.
Defined.

(** * The warning of [exportTo], from the sampled frames *)

(** X18.  For a sampler driven through the frames of its grid, [exportTo]
    succeeds and what it writes to [cerr] is determined by the frames the
    sampler saw: nothing when no frame exceeded the tolerance, and otherwise
    one warning with the node's name, 100 times the largest deviation among
    the first ten offending frames, and the times of those frames in
    sampling order.  The warning is advisory: the same sampler with the
    record cleared exports the same animation and the same buffers,
    silently. *)
Theorem export_warning_of_history MAXN prefix node0 frames scaleFactor arguments
    calls a g :
  sampleMany MAXN (NodeAnimation.make node0 frames scaleFactor arguments) calls
  = Some a ->
  Z.of_nat (length calls) = ExportableFrames.count frames ->
  (forall m, mesh node0 = Some m -> length (initialWeights m) = blendShapeCount m) ->
  let a0 := NodeAnimation.make node0 frames scaleFactor arguments in
  let history := map (observe a0) calls in
  let kept := recordedFrames MAXN history in
  exists a' g',
    exportTo prefix a g
    = Some (a', g',
            match kept with
            | [] => []
            | _ :: _ =>
                warningOf prefix (nodeName node0)
                  (largest (map (fun f => maxNonOrthogonality (snd f)) kept))
                  (map fst kept)
            end) /\
    (kept = [] <-> Forall (fun f => offending MAXN (snd f) = false) history) /\
    exportTo prefix (set_invalid 0 (StdVector.mk [] 10) a) g
    = Some (set_invalid 0 (StdVector.mk [] 10) a', g', []).
Proof.
  intros H _ Hinit a0 history kept.
  destruct (sampleMany_make_inv MAXN node0 frames scaleFactor arguments calls a H)
    as (Hinv & Hnode & Hargs & Hscale).
  destruct (sampleMany_make_recorded MAXN node0 frames scaleFactor arguments calls a H)
    as [Htimes Hmax].
  cbv zeta in Htimes, Hmax. fold a0 in Htimes, Hmax. fold history in Htimes, Hmax.
  fold kept in Htimes, Hmax.
  assert (Hinit' : forall m, m_mesh a = Some m ->
                             length (initialWeights m) = m_blendShapeCount a).
  { intros m Hm. destruct Hinv as (Hmesh & Hcount & _).
    rewrite Hnode in Hmesh, Hcount. rewrite Hmesh in Hm. rewrite Hm in Hcount.
    rewrite Hcount. apply Hinit. exact Hm. }
  exists (fst (exportWith (length calls) a g)), (snd (exportWith (length calls) a g)).
  split; [|split].
  - rewrite (exportTo_spec prefix (length calls) a g Hinv Hinit').
    unfold cerrOf, StdVector.is_empty, warning. rewrite Htimes, Hmax, Hnode.
    cbn [StdVector.items].
    destruct kept as [|f kept']; reflexivity.
  - unfold kept. rewrite recordedFrames_nil. rewrite Forall_forall, Exists_exists.
    split.
    + intros Hnone f Hin. destruct (offending MAXN (snd f)) eqn:Hoff; [|reflexivity].
      exfalso. apply Hnone. exists f. auto.
    + intros Hall (f & Hin & Hoff). rewrite (Hall f Hin) in Hoff. discriminate.
  - rewrite (exportTo_spec prefix (length calls)
               (set_invalid 0 (StdVector.mk [] 10) a) g).
    + rewrite exportWith_set_invalid. reflexivity.
    + apply set_invalid_samplerInv. exact Hinv.
    + exact Hinit'.
Qed.

Lemma export_warning_of_history_witness :
  let a0 := NodeAnimation.make ex_drifting ex_long_frames 1 (ex_args false false 1) in
  let a := the (sampleMany (1 # 100) a0 (ex_calls 11)) a0 in
  let history := map (observe a0) (ex_calls 11) in
  let kept := recordedFrames (1 # 100) history in
  exists a' g',
    exportTo "" a ex_animation
    = Some (a', g',
            match kept with
            | [] => []
            | _ :: _ =>
                warningOf "" (nodeName ex_drifting)
                  (largest (map (fun f => maxNonOrthogonality (snd f)) kept))
                  (map fst kept)
            end) /\
    (kept = [] <-> Forall (fun f => offending (1 # 100) (snd f) = false) history) /\
    exportTo "" (set_invalid 0 (StdVector.mk [] 10) a) ex_animation
    = Some (set_invalid 0 (StdVector.mk [] 10) a', g', []).
Proof.
  apply (export_warning_of_history (1 # 100) "" ex_drifting ex_long_frames 1
           (ex_args false false 1) (ex_calls 11)).
  - vm_compute. reflexivity.
  - reflexivity.
  - intros m Hm. discriminate Hm.
Defined.

(** * Forced channels *)

Lemma finishOf_forced n a g propName p thr baseValues :
  forceAnimationSampling (m_arguments a) || forceAnimationChannels (m_arguments a)
  = true ->
  (getStepDetectSampleCount (m_arguments a) <= 1)%Z ->
  exists p',
    finishOf n a g propName (Some p) thr baseValues
    = (GLTF.push_back (PropAnimation.glChannel p') g, Some p') /\
    GLTF.targetNode (PropAnimation.glChannel p') = PropAnimation.glNode p /\
    GLTF.targetPath (PropAnimation.glChannel p') = PropAnimation.path p.
Proof.
  intros Hforce Hdetect. apply Z.leb_le in Hdetect.
  unfold finishOf, finishWith. cbv zeta. rewrite Hdetect.
  destruct (allWithin baseValues thr p n),
    (forceAnimationSampling (m_arguments a)),
    (forceAnimationChannels (m_arguments a));
    try discriminate Hforce; cbn [andb orb negb];
    eexists; split; try reflexivity; split; reflexivity.
Qed.

Lemma grows_push g g' new c :
  GLTF.channels g' = GLTF.channels g ++ new ->
  GLTF.channels (GLTF.push_back c g') = GLTF.channels g ++ (new ++ [c]).
Proof.
  intros H. unfold GLTF.push_back. cbn [GLTF.channels].
  rewrite H, app_assoc. reflexivity.
Qed.

Ltac use_slots :=
  repeat match goal with
         | Heq : ?x = Some _ |- context [?x] => rewrite Heq
         | Heq : ?x = None |- context [?x] => rewrite Heq
         end.

Ltac forced_step Hforce Hdetect :=
  match goal with
  | |- context [finishOf ?n ?a ?g ?s (Some ?p) ?t ?b] =>
      let p' := fresh "q" in
      let E := fresh "E" in
      let Hn := fresh "Hq" in
      let Hp := fresh "Hq" in
      destruct (finishOf_forced n a g s p t b Hforce Hdetect) as (p' & E & Hn & Hp);
      rewrite E; clear E; cbv beta iota; simpl_set; use_slots
  end.

Ltac open_slot S :=
  first [ destruct S as (? & ? & ? & ? & _) | idtac ].

(** X19.  With a step-detection sample count of at most 1 and either
    [forceAnimationSampling] or [forceAnimationChannels] set, [exportTo]
    drops nothing: for a sampler driven through the frames of its grid it
    appends exactly one channel for each buffer of the node's row in the
    decomposition-kind table, in the table's order and on the table's
    target node and path, and it keeps every buffer. *)
Theorem forced_export_emits_every_buffer MAXN prefix node0 frames scaleFactor
    arguments calls a g :
  sampleMany MAXN (NodeAnimation.make node0 frames scaleFactor arguments) calls
  = Some a ->
  Z.of_nat (length calls) = ExportableFrames.count frames ->
  (forall m, mesh node0 = Some m -> length (initialWeights m) = blendShapeCount m) ->
  forceAnimationSampling arguments || forceAnimationChannels arguments = true ->
  (getStepDetectSampleCount arguments <= 1)%Z ->
  exists a' g' cerr new,
    exportTo prefix a g = Some (a', g', cerr) /\
    GLTF.channels g' = GLTF.channels g ++ new /\
    map (fun ch => (GLTF.targetNode ch, GLTF.targetPath ch)) new
    = map (fun row => (fst (fst row), snd (fst row)))
        (expectedBuffers (transformKind node0) (forceAnimationChannels arguments)
           (glPrimaryNode node0) (glSecondaryNode node0) (morphTargets node0)) /\
    length (buffers a') = length new.
Proof.
  intros H _ Hinit Hforce Hdetect.
  destruct (sampleMany_make_inv MAXN node0 frames scaleFactor arguments calls a H)
    as (Hinv & Hnode & Hargs & Hscale).
  pose proof (sampleMany_slotsInv MAXN frames calls 0 _ a
                (make_slotsInv node0 frames scaleFactor arguments) H) as Hslots.
  rewrite <- Hargs in Hforce, Hdetect.
  assert (Hmesh : m_mesh a = mesh node0 /\
                  m_blendShapeCount a = morphTargets node0).
  { destruct Hinv as (Hm & Hc & _). rewrite Hnode in Hm, Hc. auto. }
  destruct Hmesh as [Hmesh Hcount].
  assert (Hinit' : forall m, m_mesh a = Some m ->
                             length (initialWeights m) = m_blendShapeCount a).
  { intros m Hm. rewrite Hmesh in Hm. rewrite Hcount. unfold morphTargets.
    rewrite Hm. apply Hinit. exact Hm. }
  rewrite (exportTo_spec prefix (length calls) a g Hinv Hinit').
  clear Hinv Hinit Hinit' H Hscale.
  unfold slotsInv in Hslots. cbv zeta in Hslots.
  rewrite Hnode, Hargs, Hcount in Hslots.
  destruct Hslots as (ST & SR & SS & SC & SD1 & SD2 & SW).
  apply slot_inv in ST, SR, SS, SC, SD1, SD2, SW.
  set (r := exportWith (length calls) a g).
  cut (exists new,
         GLTF.channels (snd r) = GLTF.channels g ++ new /\
         map (fun ch => (GLTF.targetNode ch, GLTF.targetPath ch)) new
         = map (fun row => (fst (fst row), snd (fst row)))
             (expectedBuffers (transformKind node0) (forceAnimationChannels arguments)
                (glPrimaryNode node0) (glSecondaryNode node0) (morphTargets node0)) /\
         length (buffers (fst r)) = length new).
  { intros (new & Hnew). exists (fst r), (snd r), (cerrOf prefix a), new.
    split; [reflexivity | exact Hnew]. }
  unfold r, exportWith, exportKind, weightsWith, expectedBuffers, buffers. cbv zeta.
  rewrite Hnode, Hargs.
  unfold morphTargets in *.
  destruct (mesh node0) as [m|] eqn:Hm0;
    [destruct (0 <? blendShapeCount m) eqn:Hpos|];
    destruct (transformKind node0) eqn:Hkind;
    destruct (forceAnimationChannels arguments) eqn:Hfc;
    cbn [expectedCorrectors expectedDummy1 expectedDummy2 Nat.ltb Nat.leb] in SC, SD1, SD2, SW;
    open_slot ST; open_slot SR; open_slot SS; open_slot SC; open_slot SD1;
    open_slot SD2; open_slot SW;
    use_slots; repeat forced_step Hforce Hdetect;
    rewrite ?Hcount, ?Hpos; cbv beta iota; repeat forced_step Hforce Hdetect;
    cbn [fst snd]; simpl_set; use_slots; eexists;
    (split; [repeat apply grows_push; symmetry; apply app_nil_r|]);
    cbn [app map flat_map length fst snd Nat.ltb Nat.leb];
    (split; [congruence | reflexivity]).
Qed.

Lemma forced_export_emits_every_buffer_witness :
  exists a' g' cerr new,
    exportTo "" (ex_joint_sampled 1) ex_animation = Some (a', g', cerr) /\
    GLTF.channels g' = GLTF.channels ex_animation ++ new /\
    map (fun ch => (GLTF.targetNode ch, GLTF.targetPath ch)) new
    = map (fun row => (fst (fst row), snd (fst row)))
        (expectedBuffers (transformKind (ex_split ComplexJoint))
           (forceAnimationChannels (ex_args false true 1))
           (glPrimaryNode (ex_split ComplexJoint))
           (glSecondaryNode (ex_split ComplexJoint))
           (morphTargets (ex_split ComplexJoint))) /\
    length (buffers a') = length new.
Proof.
  apply (forced_export_emits_every_buffer (1 # 100) "" (ex_split ComplexJoint)
           ex_frames 1 (ex_args false true 1) (ex_calls 2) (ex_joint_sampled 1)
           ex_animation).
  - vm_compute. reflexivity.
  - reflexivity.
  - intros m Hm. discriminate Hm.
  - reflexivity.
  - vm_compute. discriminate.
Defined.
